(** * py2neo.cypher.reading: the Cypher lexer and its statement splitter

    A shallow embedding of [src/py2neo/cypher/reading.py].

    The module defines the grammar tables ([cypher_keywords], ...), the two
    rule compilers [word_list] and [symbol_list], the state table
    [CypherLexer.tokens] and the method [CypherLexer.get_statements].  The
    class inherits its driver, [get_tokens_unprocessed], from
    [pygments.lexer.RegexLexer], and its patterns are run by Python's [re]
    with the flags IGNORECASE | MULTILINE | UNICODE.  Both are embedded
    here as far as the lexer uses them:

    - text is a list of 8-bit characters, read as the code points
      U+0000 .. U+00FF; the character classes [\s], [\w] and case folding
      are the ones Python 3 has on that range;
    - a pattern is a [regex] term, and [rmatch] lists the ends of all its
      matches at a cursor in the order in which a backtracking matcher
      finds them, so that the head of the list is the match of [re];
    - the driver is a step function on the cursor and the state stack,
      iterated with fuel. *)

From Stdlib Require Import Ascii String List Arith Bool Lia.
Import ListNotations.
Local Open Scope list_scope.

Set Implicit Arguments.

(** ** Characters *)

Definition text := list ascii.

Definition txt (s : string) : text := list_ascii_of_string s.

Definition code (c : ascii) : nat := nat_of_ascii c.

Definition between (lo hi : nat) (c : ascii) : bool :=
  (lo <=? code c) && (code c <=? hi).

Definition newline : ascii := "010"%char.
Definition dquote : ascii := "034"%char.
Definition backslash : ascii := "\"%char.

(** [str.isspace] and [\s] under re.UNICODE, on U+0000 .. U+00FF. *)
Definition is_space (c : ascii) : bool :=
  between 9 13 c || between 28 32 c || (code c =? 133) || (code c =? 160).

(** [\w] under re.UNICODE, on U+0000 .. U+00FF: alphanumerics and the
    underscore. *)
Definition is_word (c : ascii) : bool :=
  between 48 57 c || between 65 90 c || between 97 122 c || (code c =? 95)
  || (code c =? 170) || between 178 179 c || (code c =? 181)
  || between 185 186 c || between 188 190 c
  || between 192 214 c || between 216 246 c || between 248 255 c.

(** Simple lower-casing, as re.IGNORECASE applies it to both the pattern and
    the text. *)
Definition lower (c : ascii) : ascii :=
  if between 65 90 c || between 192 214 c || between 216 222 c
  then ascii_of_nat (code c + 32) else c.

Definition same_char (a b : ascii) : bool := Ascii.eqb (lower a) (lower b).

(** ** Patterns *)

Inductive cset_item : Type :=
| One (c : ascii)
| Rng (lo hi : ascii).

Inductive regex : Type :=
| Eps
| Lit (c : ascii)                 (* a literal character *)
| OneOf (s : list cset_item)      (* [...] *)
| NoneOf (s : list cset_item)     (* [^...] *)
| Space                           (* \s *)
| Dot                             (* . *)
| Bol                             (* ^ under re.MULTILINE *)
| WordB                           (* \b *)
| Cat (r1 r2 : regex)
| Or (r1 r2 : regex)
| Star (r : regex)
| Plus (r : regex)
| Opt (r : regex)
| Times (n : nat) (r : regex).    (* r{n} *)

Definition chars_of_range (lo hi : ascii) : list ascii :=
  map ascii_of_nat (seq (code lo) (S (code hi) - code lo)).

Definition item_has (c : ascii) (i : cset_item) : bool :=
  match i with
  | One x => same_char x c
  | Rng lo hi => existsb (fun x => same_char x c) (chars_of_range lo hi)
  end.

Definition in_set (s : list cset_item) (c : ascii) : bool :=
  existsb (item_has c) s.

(** The cursor of a match: the text before the offset, last character
    first, and the text from the offset on. *)
Record cursor : Type := Cursor { before : list ascii; rest : text }.

Definition offset (c : cursor) : nat := length (before c).

Definition eat (p : ascii -> bool) (c : cursor) : list cursor :=
  match rest c with
  | x :: r => if p x then [Cursor (x :: before c) r] else []
  | [] => []
  end.

Definition at_line_start (c : cursor) : bool :=
  match before c with
  | [] => true
  | x :: _ => Ascii.eqb x newline
  end.

Definition word_at (l : list ascii) : bool :=
  match l with
  | x :: _ => is_word x
  | [] => false
  end.

Definition at_word_boundary (c : cursor) : bool :=
  xorb (word_at (before c)) (word_at (rest c)).

(** Greedy repetition of the matcher [f]: the longer matches come first, the
    empty repetition last.  An iteration has to consume text; [n] bounds the
    number of iterations. *)
Fixpoint star (f : cursor -> list cursor) (n : nat) (c : cursor) : list cursor :=
  match n with
  | 0 => [c]
  | S n' =>
      flat_map (fun c1 => if length (rest c1) <? length (rest c)
                          then star f n' c1 else [])
               (f c) ++ [c]
  end.

Fixpoint times (f : cursor -> list cursor) (n : nat) (c : cursor) : list cursor :=
  match n with
  | 0 => [c]
  | S n' => flat_map (times f n') (f c)
  end.

Definition many (f : cursor -> list cursor) (c : cursor) : list cursor :=
  star f (S (length (rest c))) c.

(** [rmatch r c]: the ends of the matches of [r] that start at [c], in the
    order of preference of a backtracking matcher. *)
Fixpoint rmatch (r : regex) (c : cursor) : list cursor :=
  match r with
  | Eps => [c]
  | Lit a => eat (same_char a) c
  | OneOf s => eat (in_set s) c
  | NoneOf s => eat (fun x => negb (in_set s x)) c
  | Space => eat is_space c
  | Dot => eat (fun x => negb (Ascii.eqb x newline)) c
  | Bol => if at_line_start c then [c] else []
  | WordB => if at_word_boundary c then [c] else []
  | Cat r1 r2 => flat_map (rmatch r2) (rmatch r1 c)
  | Or r1 r2 => rmatch r1 c ++ rmatch r2 c
  | Star r1 => many (rmatch r1) c
  | Plus r1 => flat_map (many (rmatch r1)) (rmatch r1 c)
  | Opt r1 => rmatch r1 c ++ [c]
  | Times n r1 => times (rmatch r1) n c
  end.

(** [re.match(text, pos)]: the first match, if any. *)
Definition re_match (r : regex) (c : cursor) : option cursor :=
  hd_error (rmatch r c).

(** The text between two cursors of one match. *)
Definition span (c c' : cursor) : text :=
  firstn (length (rest c) - length (rest c')) (rest c).

Fixpoint cat_all (rs : list regex) : regex :=
  match rs with
  | [] => Eps
  | [r] => r
  | r :: rs' => Cat r (cat_all rs')
  end.

Definition lits (s : string) : regex := cat_all (map Lit (txt s)).

(** ** Grammar tables *)

Local Open Scope string_scope.

Definition cypher_keywords : list string :=
  [ "AS"; "ASC"; "ASCENDING"; "ASSERT"; "ASSERT EXISTS"; "CALL";
    "CONSTRAINT ON"; "CREATE"; "CREATE UNIQUE"; "CYPHER"; "DELETE"; "DESC";
    "DESCENDING"; "DETACH DELETE"; "DO"; "DROP"; "EXPLAIN";
    "FIELDTERMINATOR"; "FOREACH"; "FROM"; "GRAPH"; "GRAPH AT"; "GRAPH OF";
    "INDEX ON"; "INTO"; "IS NODE KEY"; "IS UNIQUE"; "LIMIT"; "LOAD";
    "LOAD CSV"; "MATCH"; "MERGE"; "ON CREATE SET"; "ON MATCH SET";
    "OPTIONAL MATCH"; "ORDER BY"; "PERSIST"; "_PRAGMA"; "PROFILE"; "REMOVE";
    "RELOCATE"; "RETURN"; "RETURN DISTINCT"; "SET"; "SKIP"; "SNAPSHOT";
    "SOURCE"; "START"; "TARGET"; "UNION"; "UNION ALL"; "UNWIND";
    "USING INDEX"; "USING JOIN ON"; "USING PERIODIC COMMIT"; "USING SCAN";
    "WHERE"; "WITH"; "WITH DISTINCT"; "WITH HEADERS"; "YIELD"; ">>" ].

Definition cypher_pseudo_keywords : list string :=
  [ "BEGIN"; "COMMIT"; "ROLLBACK" ].

Definition cypher_operator_symbols : list string :=
  [ "!="; "%"; "*"; "+"; "+="; "-"; "."; "/"; "<"; "<="; "<>"; "="; "=~";
    ">"; ">="; "^" ].

Definition cypher_operator_words : list string :=
  [ "AND"; "CASE"; "CONTAINS"; "DISTINCT"; "ELSE"; "END"; "ENDS WITH"; "IN";
    "IS NOT NULL"; "IS NULL"; "NOT"; "OR"; "STARTS WITH"; "THEN"; "WHEN";
    "XOR" ].

Definition cypher_constants : list string :=
  [ "null"; "true"; "false" ].

Local Close Scope string_scope.

(** ** Token types (pygments.token) *)

Inductive token_type : Type :=
| Keyword
| Punctuation
| Comment_Single
| Comment_Multiline
| Operator
| Name_Label
| Name_Function
| Name_Variable
| Name_Variable_Global
| Name_Constant
| String_
| Number_Float
| Number_Integer
| Whitespace
| Text
| Error.

Definition token_type_eqb (a b : token_type) : bool :=
  match a, b with
  | Keyword, Keyword | Punctuation, Punctuation
  | Comment_Single, Comment_Single | Comment_Multiline, Comment_Multiline
  | Operator, Operator | Name_Label, Name_Label
  | Name_Function, Name_Function | Name_Variable, Name_Variable
  | Name_Variable_Global, Name_Variable_Global
  | Name_Constant, Name_Constant | String_, String_
  | Number_Float, Number_Float | Number_Integer, Number_Integer
  | Whitespace, Whitespace | Text, Text | Error, Error => true
  | _, _ => false
  end.

(** ** The rule compilers *)

(** Comparison of Python strings: lexicographic, by code point. *)
Fixpoint str_leb (a b : text) : bool :=
  match a, b with
  | [], _ => true
  | _ :: _, [] => false
  | x :: a', y :: b' =>
      if code x <? code y then true
      else if code y <? code x then false
      else str_leb a' b'
  end.

(** [sorted]: a stable ascending sort.  The items are (pattern, token type)
    pairs; within one call every pair has the same token type, so the
    order of the pairs is the order of their patterns. *)
Fixpoint insert_sorted (A : Type) (x : text * A) (l : list (text * A)) : list (text * A) :=
  match l with
  | [] => [x]
  | y :: l' => if str_leb (fst x) (fst y) then x :: l
               else y :: insert_sorted x l'
  end.

Definition sorted (A : Type) (l : list (text * A)) : list (text * A) :=
  fold_right (@insert_sorted A) [] l.

Definition reversed (A : Type) (l : list A) : list A := rev l.

(** Every space of the word replaced by [\s+], and [\b] appended. *)
Definition word_pattern (word : string) : text :=
  flat_map (fun ch => if Ascii.eqb ch " " then txt "\s+" else [ch]) (txt word)
  ++ txt "\b".

(** Every character of the symbol with a backslash in front of it. *)
Definition symbol_pattern (symbol : string) : text :=
  flat_map (fun ch => [backslash; ch]) (txt symbol).

Definition word_list (words : list string) (ttype : token_type)
  : list (text * token_type) :=
  reversed (sorted (map (fun word => (word_pattern word, ttype)) words)).

Definition symbol_list (symbols : list string) (ttype : token_type)
  : list (text * token_type) :=
  reversed (sorted (map (fun symbol => (symbol_pattern symbol, ttype)) symbols)).

(** ** Compiling the generated patterns

    [re.compile] on the pattern syntax that [word_list] and [symbol_list]
    write: literal characters, [\s], [\b], an escaped punctuation character,
    and [+] after one of these.  Any other use of a special character is
    refused. *)

Definition is_special (c : ascii) : bool :=
  existsb (Ascii.eqb c) (txt ".^$*+?{}[]()|\").

Definition is_alnum (c : ascii) : bool :=
  between 48 57 c || between 65 90 c || between 97 122 c.

Definition escaped (x : ascii) : option regex :=
  if Ascii.eqb x "s" then Some Space
  else if Ascii.eqb x "b" then Some WordB
  else if is_alnum x then None
  else Some (Lit x).

Fixpoint re_atoms (p : text) : option (list regex) :=
  match p with
  | [] => Some []
  | x :: p1 =>
      if Ascii.eqb x backslash then
        match p1 with
        | [] => None
        | y :: p2 =>
            match escaped y with
            | None => None
            | Some a =>
                match p2 with
                | z :: p3 =>
                    if Ascii.eqb z "+"
                    then option_map (cons (Plus a)) (re_atoms p3)
                    else option_map (cons a) (re_atoms p2)
                | [] => Some [a]
                end
            end
        end
      else if is_special x then None
      else
        match p1 with
        | z :: p3 =>
            if Ascii.eqb z "+"
            then option_map (cons (Plus (Lit x))) (re_atoms p3)
            else option_map (cons (Lit x)) (re_atoms p1)
        | [] => Some [Lit x]
        end
  end.

Definition re_compile (p : text) : option regex :=
  option_map cat_all (re_atoms p).

(** ** States and rules (CypherLexer.tokens) *)

Inductive state : Type :=
| root | in_paren | in_bracket | in_brace
| comments | multiline_comments | strings | keywords | pseudo_keywords
| labels | operators | expressions | procedures | functions | aliases
| variables | parameters | constants | numbers | whitespace.

(** The third component of a rule: ['#pop'], ['#push'] or the name of a
    state to push; a tuple is a list of these, no entry the empty list. *)
Inductive transition : Type :=
| Pop
| PushSame
| Push (s : state).

(** A rule either gives its whole match one token type, or its pattern is a
    sequence of groups [(g1)(g2)...] and [bygroups] gives each group its
    type. *)
Inductive rule_body : Type :=
| Single (r : regex) (t : token_type)
| ByGroups (gs : list (regex * token_type)).

Record rule : Type := Rule { body : rule_body; new_state : list transition }.

Definition tok (r : regex) (t : token_type) : rule := Rule (Single r t) [].
Definition tok_to (r : regex) (t : token_type) (n : list transition) : rule :=
  Rule (Single r t) n.
Definition bygroups (gs : list (regex * token_type)) : rule := Rule (ByGroups gs) [].

(** A pattern that [re.compile] refuses raises when the class is built; the
    patterns generated from the tables all compile
    ([generated_patterns_compile]), so [OneOf []] stands for no rule of the
    lexer. *)
Definition compiled (p : text) : regex :=
  match re_compile p with
  | Some r => r
  | None => OneOf []
  end.

Definition rules_of (l : list (text * token_type)) : list rule :=
  map (fun pt => tok (compiled (fst pt)) (snd pt)) l.

Definition letter_ : regex := OneOf [Rng "A" "Z"; Rng "a" "z"; One "_"].
Definition alnum_ : regex := OneOf [Rng "0" "9"; Rng "A" "Z"; Rng "a" "z"; One "_"].
Definition alnum_dot : regex :=
  OneOf [Rng "0" "9"; Rng "A" "Z"; Rng "a" "z"; One "_"; One "."].
Definition digit : regex := OneOf [Rng "0" "9"].
Definition hexdigit : regex := OneOf [Rng "0" "9"; Rng "A" "F"; Rng "a" "f"].

(** [[A-Za-z_][0-9A-Za-z_]*] *)
Definition identifier : regex := Cat letter_ (Star alnum_).
(** [[A-Za-z_][0-9A-Za-z_\.]*] *)
Definition dotted_identifier : regex := Cat letter_ (Star alnum_dot).
(** [`(?:``|[^`])+`] *)
Definition quoted_identifier : regex :=
  cat_all [Lit "`"; Plus (Or (Cat (Lit "`") (Lit "`")) (NoneOf [One "`"])); Lit "`"].

(** The two patterns of 'strings': for the quote character q (single or
    double), q, then any number of: a backslash and one of b f n r t, a
    quote of either kind or a backslash; backslash u and four hexadecimal
    digits; backslash U and eight; a character other than the backslash
    and q; then q. *)
Definition string_literal (q : ascii) : regex :=
  cat_all
    [ Lit q;
      Star (Or (Cat (Lit backslash)
                    (OneOf [One "b"; One "f"; One "n"; One "r"; One "t";
                            One dquote; One "'"; One backslash]))
           (Or (cat_all [Lit backslash; Lit "u"; Times 4 hexdigit])
           (Or (cat_all [Lit backslash; Lit "U"; Times 8 hexdigit])
               (NoneOf [One backslash; One q]))));
      Lit q ].

Definition strings_rules : list rule :=
  [ tok (string_literal "'") String_;
    tok (string_literal dquote) String_ ].

(** [^.*//.*\n] *)
Definition line_comment : regex :=
  cat_all [Bol; Star Dot; Lit "/"; Lit "/"; Star Dot; Lit newline].

Definition comments_rules : list rule :=
  [ tok line_comment Comment_Single;
    tok_to (lits "/*") Comment_Multiline [Push multiline_comments] ].

Definition multiline_comments_rules : list rule :=
  [ tok_to (lits "/*") Comment_Multiline [Push multiline_comments];
    tok_to (lits "*/") Comment_Multiline [Pop];
    tok (Plus (NoneOf [One "/"; One "*"])) Comment_Multiline;
    tok (OneOf [One "/"; One "*"]) Comment_Multiline ].

Definition keywords_rules : list rule := rules_of (word_list cypher_keywords Keyword).

Definition pseudo_keywords_rules : list rule :=
  rules_of (word_list cypher_pseudo_keywords Keyword).

Definition labels_rules : list rule :=
  [ bygroups [(Lit ":", Punctuation); (Star Space, Whitespace);
              (quoted_identifier, Name_Label)];
    bygroups [(Lit ":", Punctuation); (Star Space, Whitespace);
              (identifier, Name_Label)] ].

Definition operators_rules : list rule :=
  rules_of (word_list cypher_operator_words Operator ++
            symbol_list cypher_operator_symbols Operator).

Definition procedures_rules : list rule :=
  [ bygroups [(lits "CALL", Keyword); (Plus Space, Whitespace);
              (dotted_identifier, Name_Function)] ].

Definition functions_rules : list rule :=
  [ Rule (ByGroups [(dotted_identifier, Name_Function); (Star Space, Whitespace);
                    (Lit "(", Punctuation)])
         [Push in_paren] ].

Definition aliases_rules : list rule :=
  [ bygroups [(lits "AS", Keyword); (Plus Space, Whitespace);
              (quoted_identifier, Name_Variable)];
    bygroups [(lits "AS", Keyword); (Plus Space, Whitespace);
              (identifier, Name_Variable)] ].

Definition variables_rules : list rule :=
  [ tok quoted_identifier Name_Variable;
    tok identifier Name_Variable ].

Definition parameters_rules : list rule :=
  [ bygroups [(Lit "$", Punctuation); (quoted_identifier, Name_Variable_Global)];
    bygroups [(Lit "$", Punctuation); (identifier, Name_Variable_Global)] ].

Definition constants_rules : list rule := rules_of (word_list cypher_constants Name_Constant).

Definition numbers_rules : list rule :=
  [ (* [0-9]*\.[0-9]*(e[+-]?[0-9]+)? *)
    tok (cat_all [Star digit; Lit "."; Star digit;
                  Opt (cat_all [Lit "e"; Opt (OneOf [One "+"; One "-"]); Plus digit])])
        Number_Float;
    (* [0-9]+e[+-]?[0-9]+ *)
    tok (cat_all [Plus digit; Lit "e"; Opt (OneOf [One "+"; One "-"]); Plus digit])
        Number_Float;
    tok (Plus digit) Number_Integer ].

Definition whitespace_rules : list rule := [ tok (Plus Space) Whitespace ].

Definition expressions_rules : list rule :=
  procedures_rules ++ functions_rules ++ constants_rules ++ aliases_rules ++
  variables_rules ++ parameters_rules ++ numbers_rules.

Definition root_rules : list rule :=
  strings_rules ++ comments_rules ++ keywords_rules ++ pseudo_keywords_rules ++
  [ tok (OneOf [One ","; One ";"]) Punctuation ] ++
  labels_rules ++ operators_rules ++ expressions_rules ++ whitespace_rules ++
  [ tok_to (Lit "(") Punctuation [Push in_paren];
    tok_to (Lit "[") Punctuation [Push in_bracket];
    tok_to (Lit "{") Punctuation [Push in_brace] ].

Definition in_paren_rules : list rule :=
  strings_rules ++ comments_rules ++ keywords_rules ++
  [ tok (OneOf [One ","; One "|"]) Punctuation ] ++
  labels_rules ++ operators_rules ++ expressions_rules ++ whitespace_rules ++
  [ tok_to (Lit "(") Punctuation [PushSame];
    (* \)\s*<?-+>?\s*\( *)
    tok (cat_all [Lit ")"; Star Space; Opt (Lit "<"); Plus (Lit "-");
                  Opt (Lit ">"); Star Space; Lit "("]) Punctuation;
    (* \)\s*<?-+\s*\[ *)
    tok_to (cat_all [Lit ")"; Star Space; Opt (Lit "<"); Plus (Lit "-");
                     Star Space; Lit "["]) Punctuation [Pop; Push in_bracket];
    tok_to (Lit ")") Punctuation [Pop];
    tok_to (Lit "[") Punctuation [Push in_bracket];
    tok_to (Lit "{") Punctuation [Push in_brace] ].

Definition in_bracket_rules : list rule :=
  strings_rules ++ comments_rules ++
  [ tok (Cat (lits "WHERE") WordB) Keyword;
    tok (OneOf [One ","; One "|"]) Punctuation ] ++
  labels_rules ++ operators_rules ++ expressions_rules ++ whitespace_rules ++
  [ tok_to (Lit "(") Punctuation [Push in_paren];
    tok_to (Lit "[") Punctuation [PushSame];
    (* \]\s*-+>?\s*\( *)
    tok_to (cat_all [Lit "]"; Star Space; Plus (Lit "-"); Opt (Lit ">");
                     Star Space; Lit "("]) Punctuation [Pop; Push in_paren];
    tok_to (Lit "]") Punctuation [Pop];
    tok_to (Lit "{") Punctuation [Push in_brace] ].

Definition in_brace_rules : list rule :=
  strings_rules ++ comments_rules ++
  [ tok (OneOf [One ","; One ":"]) Punctuation ] ++
  operators_rules ++ expressions_rules ++ whitespace_rules ++
  [ tok_to (Lit "(") Punctuation [Push in_paren];
    tok_to (Lit "[") Punctuation [Push in_bracket];
    tok_to (Lit "{") Punctuation [PushSame];
    tok_to (Lit "}") Punctuation [Pop] ].

Definition tokens (s : state) : list rule :=
  match s with
  | root => root_rules
  | in_paren => in_paren_rules
  | in_bracket => in_bracket_rules
  | in_brace => in_brace_rules
  | comments => comments_rules
  | multiline_comments => multiline_comments_rules
  | strings => strings_rules
  | keywords => keywords_rules
  | pseudo_keywords => pseudo_keywords_rules
  | labels => labels_rules
  | operators => operators_rules
  | expressions => expressions_rules
  | procedures => procedures_rules
  | functions => functions_rules
  | aliases => aliases_rules
  | variables => variables_rules
  | parameters => parameters_rules
  | constants => constants_rules
  | numbers => numbers_rules
  | whitespace => whitespace_rules
  end.

(** ** Matching one rule *)

(** A token as [get_tokens_unprocessed] yields it: (index, type, value). *)
Definition token : Type := nat * token_type * text.

Definition token_index (t : token) : nat := fst (fst t).
Definition token_ttype (t : token) : token_type := snd (fst t).
Definition token_value (t : token) : text := snd t.

(** The matches of [(g1)(g2)...(gn)]: for each, the ends of the groups. *)
Fixpoint match_groups (gs : list regex) (c : cursor) : list (list cursor) :=
  match gs with
  | [] => [[]]
  | g :: gs' =>
      flat_map (fun c1 => map (cons c1) (match_groups gs' c1)) (rmatch g c)
  end.

(** [bygroups]: one token per group whose text is not empty. *)
Fixpoint group_tokens (start : cursor) (ts : list token_type) (ends : list cursor)
  : list token :=
  match ts, ends with
  | t :: ts', e :: ends' =>
      match span start e with
      | [] => group_tokens e ts' ends'
      | data => (offset start, t, data) :: group_tokens e ts' ends'
      end
  | _, _ => []
  end.

Definition match_rule (r : rule) (c : cursor) : option (list token * cursor) :=
  match body r with
  | Single re t =>
      match re_match re c with
      | Some c' => Some ([(offset c, t, span c c')], c')
      | None => None
      end
  | ByGroups gs =>
      match hd_error (match_groups (map fst gs) c) with
      | Some ends => Some (group_tokens c (map snd gs) ends, last ends c)
      | None => None
      end
  end.

(** The first rule of the list that matches at the cursor. *)
Fixpoint first_match (rules : list rule) (c : cursor)
  : option (rule * list token * cursor) :=
  match rules with
  | [] => None
  | r :: rules' =>
      match match_rule r c with
      | Some (toks, c') => Some (r, toks, c')
      | None => first_match rules' c
      end
  end.

(** ** The state stack

    [statestack] is a Python list whose last element is the current state;
    here the head of the list is the current state.  Popping or reading the
    top of an empty stack raises IndexError ([None]). *)
Definition apply_transition (st : list state) (t : transition) : option (list state) :=
  match t, st with
  | Pop, _ :: st' => Some st'
  | Pop, [] => None
  | PushSame, top :: _ => Some (top :: st)
  | PushSame, [] => None
  | Push s, _ => Some (s :: st)
  end.

Fixpoint apply_transitions (ts : list transition) (st : list state)
  : option (list state) :=
  match ts with
  | [] => Some st
  | t :: ts' =>
      match apply_transition st t with
      | Some st' => apply_transitions ts' st'
      | None => None
      end
  end.

(** ** The driver (RegexLexer.get_tokens_unprocessed) *)

Record lexer : Type := Lexer { pos : cursor; statestack : list state }.

Inductive outcome : Type :=
| Yield (toks : list token) (l : lexer)   (* tokens yielded, loop continues *)
| Stop                                    (* end of text: break *)
| Raise (toks : list token).              (* tokens yielded, then an exception *)

Definition advance (c : cursor) (x : ascii) (r : text) : cursor :=
  Cursor (x :: before c) r.

(** Modelled from the spec: one iteration of the loop that applies the
    rules.  The loop is not in the repository's source: [CypherLexer]
    inherits it from [pygments.lexer.RegexLexer], and [get_statements] calls
    it as [self.get_tokens_unprocessed(text)].  Section 4.3 of the spec
    gives its contract: at the offset, the rules of the state on top of
    the stack are tried in order and the first that matches there wins; its
    tokens are yielded, the offset moves to the end of the match and the
    transition is applied; when no rule matches, one Error token with the
    current character is yielded and the offset moves by one; the loop ends
    at the end of the text.  Three details of the inherited method that the
    contract leaves open are kept, each in the way that makes the claims
    harder to prove: the rules are tried at the end of the text as well,
    and the loop only ends there when none matches; a pop or a look at the
    top of an empty stack raises; an unmatched newline is yielded as Text
    and resets the stack to [[root]].  For this lexer neither of the last
    two happens ([step_spec], [newline_matched]). *)
Definition step (l : lexer) : outcome :=
  match statestack l with
  | [] => Raise []
  | top :: _ =>
      match first_match (tokens top) (pos l) with
      | Some (r, toks, c') =>
          match apply_transitions (new_state r) (statestack l) with
          | Some (top' :: st') => Yield toks (Lexer c' (top' :: st'))
          | _ => Raise toks
          end
      | None =>
          match rest (pos l) with
          | [] => Stop
          | x :: r =>
              if Ascii.eqb x newline
              then Yield [(offset (pos l), Text, [x])]
                         (Lexer (advance (pos l) x r) [root])
              else Yield [(offset (pos l), Error, [x])]
                         (Lexer (advance (pos l) x r) (statestack l))
          end
      end
  end.

(** How the loop ended. *)
Inductive ending : Type :=
| Finished
| Raised
| OutOfFuel.

(** One entry per iteration: the stack before it, the tokens it yielded and
    the stack after it. *)
Record entry : Type :=
  Entry { stack_before : list state; yielded : list token; stack_after : list state }.

Fixpoint run (fuel : nat) (l : lexer) : list entry * ending :=
  match fuel with
  | 0 => ([], OutOfFuel)
  | S fuel' =>
      match step l with
      | Stop => ([], Finished)
      | Raise toks => ([Entry (statestack l) toks []], Raised)
      | Yield toks l' =>
          let (tr, e) := run fuel' l' in
          (Entry (statestack l) toks (statestack l') :: tr, e)
      end
  end.

Definition start (t : text) : lexer := Lexer (Cursor [] t) [root].

(** The iterations of one pass over the text. *)
Definition trace (t : text) : list entry * ending := run (S (length t)) (start t).

Definition get_tokens_unprocessed (t : text) : list token * ending :=
  (flat_map yielded (fst (trace t)), snd (trace t)).

(** ** CypherLexer.get_statements *)

Fixpoint lstrip (s : text) : text :=
  match s with
  | x :: s' => if is_space x then lstrip s' else s
  | [] => []
  end.

(** [str.strip()] *)
Definition strip (s : text) : text := rev (lstrip (rev (lstrip s))).

Definition text_eqb (a b : text) : bool :=
  if list_eq_dec ascii_dec a b then true else false.

(** [token_type == Punctuation and value == ";"] *)
Definition is_separator (t : token) : bool :=
  token_type_eqb (token_ttype t) Punctuation && text_eqb (token_value t) (txt ";").

(** The fragments joined and stripped: the statement, yielded if it is not
    empty. *)
Definition flush (fragments : list text) : list text :=
  match strip (concat fragments) with
  | [] => []
  | statement => [statement]
  end.

(** The loop over the tokens; the statement after the loop is only reached
    when the token generator finished. *)
Fixpoint split_statements (fragments : list text) (toks : list token) (e : ending)
  : list text :=
  match toks with
  | [] => match e with Finished => flush fragments | _ => [] end
  | t :: toks' =>
      if is_separator t
      then flush fragments ++ split_statements [] toks' e
      else split_statements (fragments ++ [token_value t]) toks' e
  end.

Definition get_statements (t : text) : list text * ending :=
  let (toks, e) := get_tokens_unprocessed t in
  (split_statements [] toks e, e).

(** * Properties of the matcher *)

Unset Implicit Arguments.

(** [extends c c']: [c'] is [c] after some text [x] has been consumed. *)
Definition extends (c c' : cursor) : Prop :=
  exists x, rest c = x ++ rest c' /\ before c' = rev x ++ before c.

Lemma extends_refl c : extends c c.
Proof. exists []; split; reflexivity. Qed.

Lemma extends_trans c1 c2 c3 : extends c1 c2 -> extends c2 c3 -> extends c1 c3.
Proof.
  intros [x [Hx Hx']] [y [Hy Hy']].
  exists (x ++ y); split.
  - rewrite Hx, Hy, app_assoc; reflexivity.
  - rewrite Hy', Hx', rev_app_distr, app_assoc; reflexivity.
Qed.

Lemma extends_length c c' : extends c c' -> length (rest c') <= length (rest c).
Proof. intros [x [Hx _]]; rewrite Hx, length_app; lia. Qed.

Lemma span_exact_prefix c c' x : rest c = x ++ rest c' -> span c c' = x.
Proof.
  unfold span; intros ->; rewrite length_app.
  replace (length x + length (rest c') - length (rest c')) with (length x + 0) by lia.
  rewrite firstn_app_2; simpl; apply app_nil_r.
Qed.

Lemma extends_span c c' : extends c c' -> span c c' ++ rest c' = rest c.
Proof.
  intros [x [Hx _]]; unfold span; rewrite Hx, length_app.
  replace (length x + length (rest c') - length (rest c')) with (length x + 0) by lia.
  rewrite firstn_app_2; simpl; rewrite app_nil_r; reflexivity.
Qed.

Lemma extends_span_app c1 c2 c3 :
  extends c1 c2 -> extends c2 c3 -> span c1 c3 = span c1 c2 ++ span c2 c3.
Proof.
  intros H12 H23.
  pose proof (extends_span _ _ (extends_trans _ _ _ H12 H23)) as H13.
  pose proof (extends_span _ _ H12) as E12; pose proof (extends_span _ _ H23) as E23.
  rewrite <- E12, <- E23, app_assoc in H13.
  apply app_inv_tail in H13; exact H13.
Qed.

Lemma eat_extends p c c' : In c' (eat p c) -> extends c c'.
Proof.
  unfold eat; destruct c as [b [|x r]]; simpl; [tauto|].
  destruct (p x); simpl; [|tauto].
  intros [<-|[]]; exists [x]; split; reflexivity.
Qed.

Lemma eat_shorter p c c' : In c' (eat p c) -> length (rest c') < length (rest c).
Proof.
  unfold eat; destruct c as [b [|x r]]; simpl; [tauto|].
  destruct (p x); simpl; [|tauto].
  intros [<-|[]]; simpl; lia.
Qed.

Section Repetition.
Variable f : cursor -> list cursor.
Hypothesis f_extends : forall c c', In c' (f c) -> extends c c'.

Lemma star_extends n c c' : In c' (star f n c) -> extends c c'.
Proof.
  revert c; induction n as [|n IH]; intros c; simpl.
  - intros [<-|[]]; apply extends_refl.
  - rewrite in_app_iff, in_flat_map; intros [[c1 [H1 H2]]|[<-|[]]].
    + destruct (length (rest c1) <? length (rest c)); [|contradiction].
      eapply extends_trans; eauto.
    + apply extends_refl.
Qed.

Lemma times_extends n c c' : In c' (times f n c) -> extends c c'.
Proof.
  revert c; induction n as [|n IH]; intros c; simpl.
  - intros [<-|[]]; apply extends_refl.
  - rewrite in_flat_map; intros [c1 [H1 H2]].
    eapply extends_trans; eauto.
Qed.

(** Once the fuel exceeds the text that is left, more fuel changes
    nothing. *)
Lemma star_fuel n m c :
  length (rest c) < n -> length (rest c) < m -> star f n c = star f m c.
Proof.
  revert m c; induction n as [|n IH]; intros m c Hn Hm; [lia|].
  destruct m as [|m]; [lia|]; simpl; f_equal.
  apply flat_map_ext; intros c1.
  destruct (length (rest c1) <? length (rest c)) eqn:E; [|reflexivity].
  apply Nat.ltb_lt in E; apply IH; lia.
Qed.

(** The equation of the greedy loop. *)
Lemma many_unfold c :
  many f c =
  flat_map (fun c1 => if length (rest c1) <? length (rest c)
                      then many f c1 else []) (f c) ++ [c].
Proof.
  unfold many at 1; simpl; f_equal.
  apply flat_map_ext; intros c1.
  destruct (length (rest c1) <? length (rest c)) eqn:E; [|reflexivity].
  apply Nat.ltb_lt in E; unfold many; apply star_fuel; lia.
Qed.

Lemma many_extends c c' : In c' (many f c) -> extends c c'.
Proof. apply star_extends. Qed.

Lemma many_not_nil c : many f c <> [].
Proof. unfold many; simpl; intros H; apply app_eq_nil in H; destruct H; discriminate. Qed.
End Repetition.

Lemma rmatch_extends r : forall k k', In k' (rmatch r k) -> extends k k'.
Proof.
  induction r; intros k k'; simpl;
    try (apply eat_extends);
    try (intros [<-|[]]; apply extends_refl).
  - destruct (at_line_start k); simpl; [intros [<-|[]]; apply extends_refl|tauto].
  - destruct (at_word_boundary k); simpl; [intros [<-|[]]; apply extends_refl|tauto].
  - rewrite in_flat_map; intros [k1 [H1 H2]]; eapply extends_trans; eauto.
  - rewrite in_app_iff; intros [H|H]; eauto.
  - apply many_extends; exact IHr.
  - rewrite in_flat_map; intros [k1 [H1 H2]].
    eapply extends_trans; [eauto|]. eapply many_extends; eauto.
  - rewrite in_app_iff; intros [H|[<-|[]]]; [eauto|apply extends_refl].
  - apply times_extends; exact IHr.
Qed.

(** ** Patterns that cannot match the empty text *)

Fixpoint nullable (r : regex) : bool :=
  match r with
  | Eps | Bol | WordB | Star _ | Opt _ => true
  | Lit _ | OneOf _ | NoneOf _ | Space | Dot => false
  | Cat r1 r2 => nullable r1 && nullable r2
  | Or r1 r2 => nullable r1 || nullable r2
  | Plus r1 => nullable r1
  | Times n r1 => (n =? 0) || nullable r1
  end.

Lemma rmatch_shorter r :
  nullable r = false ->
  forall k k', In k' (rmatch r k) -> length (rest k') < length (rest k).
Proof.
  induction r; simpl; intros Hn k k'; try discriminate;
    try (apply eat_shorter).
  - rewrite in_flat_map; intros [k1 [H1 H2]].
    pose proof (extends_length _ _ (rmatch_extends _ _ _ H1)).
    pose proof (extends_length _ _ (rmatch_extends _ _ _ H2)).
    apply andb_false_iff in Hn; destruct Hn as [Hn|Hn].
    + specialize (IHr1 Hn _ _ H1); lia.
    + specialize (IHr2 Hn _ _ H2); lia.
  - apply orb_false_iff in Hn; destruct Hn as [Hn1 Hn2].
    rewrite in_app_iff; intros [H|H]; eauto.
  - rewrite in_flat_map; intros [k1 [H1 H2]].
    specialize (IHr Hn _ _ H1).
    pose proof (extends_length _ _ (many_extends _ (rmatch_extends r) _ _ H2)); lia.
  - apply orb_false_iff in Hn; destruct Hn as [Hz Hn].
    destruct n as [|n]; [discriminate|]; simpl.
    rewrite in_flat_map; intros [k1 [H1 H2]].
    specialize (IHr Hn _ _ H1).
    pose proof (extends_length _ _ (times_extends _ (rmatch_extends r) _ _ _ H2)); lia.
Qed.

(** * Properties of a rule match *)

Lemma hd_error_In (A : Type) (l : list A) (x : A) : hd_error l = Some x -> In x l.
Proof. destruct l; simpl; [discriminate|]; intros [= ->]; left; reflexivity. Qed.

Lemma last_cons (A : Type) (l : list A) (a d : A) : last (a :: l) d = last l a.
Proof.
  revert a d; induction l as [|b l IH]; intros a d; [reflexivity|].
  change (last (a :: b :: l) d) with (last (b :: l) d).
  rewrite !IH; reflexivity.
Qed.

Lemma span_same c : span c c = [].
Proof. unfold span; rewrite Nat.sub_diag; reflexivity. Qed.

Definition values (toks : list token) : text := concat (map token_value toks).

Lemma values_app a b : values (a ++ b) = values a ++ values b.
Proof. unfold values; rewrite map_app, concat_app; reflexivity. Qed.

Lemma group_tokens_nil start ts : group_tokens start ts [] = [].
Proof. destruct ts; reflexivity. Qed.

Lemma group_tokens_cons start t ts e ends :
  values (group_tokens start (t :: ts) (e :: ends)) =
  span start e ++ values (group_tokens e ts ends).
Proof.
  simpl; destruct (span start e) eqn:E; [reflexivity|].
  unfold values; simpl; reflexivity.
Qed.

Lemma match_groups_spec gs :
  forall c ends, In ends (match_groups gs c) ->
    extends c (last ends c) /\
    (forall ts, length ts = length gs ->
       values (group_tokens c ts ends) = span c (last ends c)) /\
    (forallb nullable gs = false -> length (rest (last ends c)) < length (rest c)).
Proof.
  induction gs as [|g gs IH]; intros c ends; simpl.
  - intros [<-|[]]; simpl; split; [apply extends_refl|split].
    + intros ts _; rewrite group_tokens_nil, span_same; reflexivity.
    + discriminate.
  - rewrite in_flat_map; intros [c1 [H1 H2]].
    apply in_map_iff in H2; destruct H2 as [ends' [<- H2]].
    rewrite last_cons.
    destruct (IH _ _ H2) as [He [Hv Hn]].
    pose proof (rmatch_extends _ _ _ H1) as He1.
    split; [eapply extends_trans; eauto|split].
    + intros [|t ts] Hlen; [discriminate|].
      rewrite group_tokens_cons, Hv by (simpl in Hlen; lia).
      symmetry; apply extends_span_app; assumption.
    + intros Hnull; apply andb_false_iff in Hnull.
      pose proof (extends_length _ _ He); pose proof (extends_length _ _ He1).
      destruct Hnull as [Hg|Hgs].
      * pose proof (rmatch_shorter _ Hg _ _ H1); lia.
      * specialize (Hn Hgs); lia.
Qed.

Definition rule_nullable (r : rule) : bool :=
  match body r with
  | Single re _ => nullable re
  | ByGroups gs => forallb nullable (map fst gs)
  end.

(** A match of a rule consumes the text of its tokens, and a rule whose
    pattern is not nullable consumes at least one character. *)
Lemma match_rule_spec r c toks c' :
  match_rule r c = Some (toks, c') ->
  extends c c' /\ values toks = span c c' /\
  (rule_nullable r = false -> length (rest c') < length (rest c)).
Proof.
  unfold match_rule, rule_nullable; destruct (body r) as [re t|gs].
  - unfold re_match; destruct (hd_error (rmatch re c)) as [c1|] eqn:E; [|discriminate].
    intros [= <- <-]; apply hd_error_In in E.
    split; [eapply rmatch_extends; eauto|split].
    + unfold values; simpl; apply app_nil_r.
    + intros Hn; eapply rmatch_shorter; eauto.
  - destruct (hd_error (match_groups (map fst gs) c)) as [ends|] eqn:E; [|discriminate].
    intros [= <- <-]; apply hd_error_In in E.
    destruct (match_groups_spec _ _ _ E) as [He [Hv Hn]].
    split; [exact He|split; [|exact Hn]].
    apply Hv; rewrite !length_map; reflexivity.
Qed.

Lemma first_match_In rules c r toks c' :
  first_match rules c = Some (r, toks, c') ->
  In r rules /\ match_rule r c = Some (toks, c').
Proof.
  induction rules as [|r0 rules IH]; simpl; [discriminate|].
  destruct (match_rule r0 c) as [[toks0 c0]|] eqn:E.
  - intros [= <- <- <-]; split; [left; reflexivity|exact E].
  - intros H; destruct (IH H); split; [right|]; assumption.
Qed.

Lemma first_match_None rules c :
  first_match rules c = None -> forall r, In r rules -> match_rule r c = None.
Proof.
  induction rules as [|r0 rules IH]; simpl; [tauto|].
  destruct (match_rule r0 c) as [[toks0 c0]|] eqn:E; [discriminate|].
  intros H r [<-|Hr]; auto.
Qed.

Lemma first_match_app l1 l2 c :
  first_match (l1 ++ l2) c =
  match first_match l1 c with
  | Some m => Some m
  | None => first_match l2 c
  end.
Proof.
  induction l1 as [|r l1 IH]; simpl; [reflexivity|].
  destruct (match_rule r c) as [[toks c']|]; [reflexivity|exact IH].
Qed.

(** * The state stack never empties *)

(** The states that are pushed on the stack. *)
Definition pushed (s : state) : bool :=
  match s with
  | in_paren | in_bracket | in_brace | multiline_comments => true
  | _ => false
  end.

(** [root] at the bottom, pushed states above it. *)
Definition good_stack (st : list state) : Prop :=
  exists above, st = above ++ [root] /\ forallb pushed above = true.

(** The transitions a rule of the state [top] may make: a pop only first and
    only in a pushed state, then pushes of pushed states. *)
Definition safe_transitions (top : state) (ts : list transition) : bool :=
  match ts with
  | [] => true
  | [Pop] => pushed top
  | Pop :: Push s :: ts' => pushed top && pushed s && match ts' with [] => true | _ => false end
  | [Push s] => pushed s
  | [PushSame] => pushed top
  | _ => false
  end.

Lemma good_stack_cons s st : pushed s = true -> good_stack st -> good_stack (s :: st).
Proof.
  intros Hs [above [-> Ha]]; exists (s :: above); split; [reflexivity|].
  simpl; rewrite Hs, Ha; reflexivity.
Qed.

Lemma good_stack_tail s st : pushed s = true -> good_stack (s :: st) -> good_stack st.
Proof.
  intros Hs [[|a above] [E Ha]]; simpl in *.
  - injection E as -> _; discriminate.
  - injection E as -> ->; exists above; split; [reflexivity|].
    apply andb_true_iff in Ha; tauto.
Qed.

Lemma good_stack_top st : good_stack st -> exists top st', st = top :: st'.
Proof. intros [[|a above] [-> _]]; simpl; eauto. Qed.

Lemma safe_transitions_sound top st ts :
  good_stack (top :: st) -> safe_transitions top ts = true ->
  exists top' st', apply_transitions ts (top :: st) = Some (top' :: st')
                   /\ good_stack (top' :: st').
Proof.
  intros Hg Hs.
  destruct ts as [|[| |s] [|[| |s'] [|? ?]]]; simpl in Hs; try discriminate; simpl.
  - eauto.
  - pose proof (good_stack_tail _ _ Hs Hg) as Hg'.
    destruct (good_stack_top _ Hg') as [t [st' ->]]; eauto.
  - apply andb_true_iff in Hs; destruct Hs as [Hs _].
    apply andb_true_iff in Hs; destruct Hs as [Ht Hs'].
    do 2 eexists; split; [reflexivity|].
    apply good_stack_cons; [assumption|apply (good_stack_tail top); assumption].
  - rewrite andb_false_r in Hs; discriminate.
  - do 2 eexists; split; [reflexivity|apply good_stack_cons; assumption].
  - do 2 eexists; split; [reflexivity|apply good_stack_cons; assumption].
Qed.

(** * The tables of the lexer *)

Definition is_some {A : Type} (o : option A) : bool :=
  match o with Some _ => true | None => false end.

(** Every pattern that [word_list] and [symbol_list] generate from the
    grammar tables compiles. *)
Lemma generated_patterns_compile :
  forallb (fun pt => is_some (re_compile (fst pt)))
          (word_list cypher_keywords Keyword ++
           word_list cypher_pseudo_keywords Keyword ++
           word_list cypher_operator_words Operator ++
           symbol_list cypher_operator_symbols Operator ++
           word_list cypher_constants Name_Constant) = true.
Proof. vm_compute; reflexivity. Qed.

Definition is_root (s : state) : bool :=
  match s with root => true | _ => false end.

Definition rule_ok (top : state) (r : rule) : bool :=
  negb (rule_nullable r) && safe_transitions top (new_state r).

(** In the five states that can be on the stack, no rule matches the empty
    text and every transition keeps [root] at the bottom of the stack. *)
Lemma tokens_ok s :
  is_root s || pushed s = true -> forallb (rule_ok s) (tokens s) = true.
Proof. destruct s; try discriminate; intros _; vm_compute; reflexivity. Qed.

Lemma good_stack_top_state top st :
  good_stack (top :: st) -> is_root top || pushed top = true.
Proof.
  intros [[|a above] [E Ha]]; simpl in *.
  - injection E as -> _; reflexivity.
  - injection E as -> _; apply andb_true_iff in Ha; destruct Ha as [-> _].
    apply orb_true_r.
Qed.

Lemma good_stack_root : good_stack [root].
Proof. exists []; split; reflexivity. Qed.

(** * One iteration *)

Lemma step_spec l :
  good_stack (statestack l) ->
  match step l with
  | Yield toks l' =>
      good_stack (statestack l') /\
      values toks ++ rest (pos l') = rest (pos l) /\
      length (rest (pos l')) < length (rest (pos l))
  | Stop => rest (pos l) = []
  | Raise _ => False
  end.
Proof.
  intros Hg; unfold step.
  destruct (good_stack_top _ Hg) as [top [st E]]; rewrite E in *.
  pose proof (tokens_ok _ (good_stack_top_state _ _ Hg)) as Hok.
  destruct (first_match (tokens top) (pos l)) as [[[r toks] c']|] eqn:F.
  - apply first_match_In in F; destruct F as [Hr Hm].
    rewrite forallb_forall in Hok; specialize (Hok _ Hr).
    apply andb_true_iff in Hok; destruct Hok as [Hnull Hsafe].
    apply negb_true_iff in Hnull.
    destruct (safe_transitions_sound _ _ _ Hg Hsafe) as [top' [st' [-> Hg']]].
    destruct (match_rule_spec _ _ _ _ Hm) as [He [Hv Hlt]].
    simpl; split; [exact Hg'|split; [|auto]].
    rewrite Hv; apply extends_span; exact He.
  - destruct (rest (pos l)) as [|x r] eqn:R; [reflexivity|].
    destruct (Ascii.eqb x newline); simpl; (split; [|split; [reflexivity|lia]]).
    + apply good_stack_root.
    + exact Hg.
Qed.

Lemma run_spec fuel :
  forall l, good_stack (statestack l) -> length (rest (pos l)) < fuel ->
    snd (run fuel l) = Finished /\
    values (flat_map yielded (fst (run fuel l))) = rest (pos l).
Proof.
  induction fuel as [|fuel IH]; intros l Hg Hlen; [lia|].
  simpl; pose proof (step_spec l Hg) as Hs.
  destruct (step l) as [toks l'| |toks]; [| |contradiction].
  - destruct Hs as [Hg' [Hv Hlt]].
    destruct (IH l' Hg' ltac:(lia)) as [He Hvs].
    destruct (run fuel l') as [tr e]; simpl in *.
    split; [exact He|]. rewrite values_app, Hvs; exact Hv.
  - simpl; split; [reflexivity|symmetry; exact Hs].
Qed.

(** More fuel than the pass needs does not change it. *)
Lemma run_more_fuel fuel :
  forall l fuel', snd (run fuel l) <> OutOfFuel -> fuel <= fuel' ->
    run fuel' l = run fuel l.
Proof.
  induction fuel as [|fuel IH]; intros l fuel' Hne Hle; simpl in *.
  - contradiction Hne; reflexivity.
  - destruct fuel' as [|fuel']; [lia|]; simpl.
    destruct (step l) as [toks l'| |toks]; try reflexivity.
    rewrite (IH l' fuel'); [reflexivity| |lia].
    destruct (run fuel l'); exact Hne.
Qed.

(** * States of a pass *)

(** [reaches l l']: the loop started in [l] comes to [l']. *)
Inductive reaches : lexer -> lexer -> Prop :=
| reaches_here l : reaches l l
| reaches_next l toks l1 l' : step l = Yield toks l1 -> reaches l1 l' -> reaches l l'.

Lemma reaches_good l l' :
  reaches l l' -> good_stack (statestack l) -> good_stack (statestack l').
Proof.
  induction 1 as [|l toks l1 l' Hs _ IH]; intros Hg; [exact Hg|].
  apply IH; pose proof (step_spec l Hg) as H; rewrite Hs in H; tauto.
Qed.

Lemma plus_eat_matches r p t c x rst :
  (forall k, rmatch r k = eat p k) -> rest c = x :: rst -> p x = true ->
  match_rule (tok (Plus r) t) c <> None.
Proof.
  intros Hr Hc Hp; unfold match_rule, re_match; simpl.
  rewrite Hr; unfold eat; rewrite Hc, Hp; simpl; rewrite app_nil_r.
  destruct (many (rmatch r) (Cursor (x :: before c) rst)) eqn:E.
  - exfalso; exact (many_not_nil _ _ E).
  - discriminate.
Qed.

Lemma whitespace_in_rules top :
  is_root top || pushed top = true -> top <> multiline_comments ->
  In (tok (Plus Space) Whitespace) (tokens top).
Proof.
  destruct top; try discriminate; intros _ Hne; try congruence; unfold tokens.
  - unfold root_rules; do 8 (apply in_or_app; right).
    apply in_or_app; left; left; reflexivity.
  - unfold in_paren_rules; do 7 (apply in_or_app; right).
    apply in_or_app; left; left; reflexivity.
  - unfold in_bracket_rules; do 6 (apply in_or_app; right).
    apply in_or_app; left; left; reflexivity.
  - unfold in_brace_rules; do 5 (apply in_or_app; right).
    apply in_or_app; left; left; reflexivity.
Qed.

(** At a newline some rule matches, in every state that can be on the
    stack: the driver's reset to [root] at an unmatched newline is never
    taken. *)
Lemma newline_matched top c rst :
  is_root top || pushed top = true -> rest c = newline :: rst ->
  first_match (tokens top) c <> None.
Proof.
  intros Htop Hc Hnone.
  pose proof (first_match_None _ _ Hnone) as Hall.
  assert (Hm : top = multiline_comments \/ top <> multiline_comments)
    by (destruct top; auto; right; discriminate).
  destruct Hm as [->|Hne].
  - apply (plus_eat_matches (NoneOf [One "/"; One "*"]) _ Comment_Multiline c newline rst
             (fun k => eq_refl) Hc eq_refl).
    apply Hall; simpl; right; right; left; reflexivity.
  - apply (plus_eat_matches Space _ Whitespace c newline rst (fun k => eq_refl) Hc eq_refl).
    apply Hall; apply whitespace_in_rules; assumption.
Qed.

(** ** The indices of the tokens *)

(** [contiguous n toks]: the first token starts at [n] and each next one
    where the one before it ends. *)
Fixpoint contiguous (n : nat) (toks : list token) : Prop :=
  match toks with
  | [] => True
  | t :: toks' =>
      token_index t = n /\ contiguous (n + length (token_value t)) toks'
  end.

Lemma contiguous_app a : forall n b,
  contiguous n a -> contiguous (n + length (values a)) b -> contiguous n (a ++ b).
Proof.
  induction a as [|t a IH]; intros n b; simpl.
  - intros _; unfold values; simpl; rewrite Nat.add_0_r; auto.
  - intros [Hi Ha] Hb; split; [exact Hi|]. apply IH; [exact Ha|].
    unfold values in *; simpl in Hb; rewrite length_app in Hb.
    rewrite <- Nat.add_assoc; exact Hb.
Qed.

Lemma extends_offset c c' :
  extends c c' -> offset c' = offset c + length (span c c').
Proof.
  intros [x [Hx Hb]]; rewrite (span_exact_prefix c c' x Hx).
  unfold offset; rewrite Hb, length_app, length_rev; lia.
Qed.

Lemma group_tokens_contiguous gs :
  forall c ends, In ends (match_groups gs c) ->
    forall ts, length ts = length gs ->
      contiguous (offset c) (group_tokens c ts ends).
Proof.
  induction gs as [|g gs IH]; intros c ends; simpl.
  - intros [<-|[]] ts _; rewrite group_tokens_nil; exact I.
  - rewrite in_flat_map; intros [c1 [H1 H2]].
    apply in_map_iff in H2; destruct H2 as [ends' [<- H2]].
    intros [|t ts] Hlen; [discriminate|].
    pose proof (extends_offset _ _ (rmatch_extends _ _ _ H1)) as Ho.
    specialize (IH _ _ H2 ts ltac:(simpl in Hlen; lia)).
    simpl; destruct (span c c1) as [|a w] eqn:Es.
    + simpl in Ho; rewrite Nat.add_0_r in Ho; rewrite <- Ho; exact IH.
    + simpl; split; [reflexivity|]. unfold token_value; simpl.
      simpl in Ho; rewrite <- Ho; exact IH.
Qed.

Lemma match_rule_contiguous r c toks c' :
  match_rule r c = Some (toks, c') ->
  contiguous (offset c) toks /\ offset c' = offset c + length (values toks).
Proof.
  intros Hm; destruct (match_rule_spec _ _ _ _ Hm) as [He [Hv _]].
  split; [|rewrite Hv; apply extends_offset; exact He].
  revert Hm; unfold match_rule; destruct (body r) as [re t|gs].
  - destruct (re_match re c); [|discriminate].
    intros [= <- _]; simpl; auto.
  - destruct (hd_error (match_groups (map fst gs) c)) as [ends|] eqn:E; [|discriminate].
    intros [= <- _]; apply hd_error_In in E.
    apply (group_tokens_contiguous _ _ _ E); rewrite !length_map; reflexivity.
Qed.

Lemma step_contiguous l toks l' :
  step l = Yield toks l' ->
  contiguous (offset (pos l)) toks /\
  offset (pos l') = offset (pos l) + length (values toks).
Proof.
  unfold step; destruct (statestack l) as [|top st]; [discriminate|].
  destruct (first_match (tokens top) (pos l)) as [[[r tks] c']|] eqn:F.
  - apply first_match_In in F; destruct F as [_ Hm].
    destruct (apply_transitions (new_state r) (top :: st)) as [[|top' st']|];
      try discriminate.
    intros [= <- <-]; apply (match_rule_contiguous _ _ _ _ Hm).
  - destruct (rest (pos l)) as [|x rst]; [discriminate|].
    destruct (Ascii.eqb x newline); intros [= <- <-]; simpl;
      unfold offset; simpl; (split; [auto|lia]).
Qed.

Lemma run_contiguous fuel :
  forall l, good_stack (statestack l) ->
    contiguous (offset (pos l)) (flat_map yielded (fst (run fuel l))).
Proof.
  induction fuel as [|fuel IH]; intros l Hg; simpl; [exact I|].
  pose proof (step_spec l Hg) as Hs.
  destruct (step l) as [toks l1| |toks] eqn:Es; [|exact I|contradiction].
  destruct Hs as [Hg1 _]; specialize (IH l1 Hg1).
  destruct (step_contiguous _ _ _ Es) as [Hc Ho].
  destruct (run fuel l1) as [tr e]; simpl in *.
  apply contiguous_app; [exact Hc|rewrite <- Ho; exact IH].
Qed.

(** The pass over any text finishes, and its tokens cover the text. *)
Lemma pass_covers (t : text) :
  snd (get_tokens_unprocessed t) = Finished /\
  values (fst (get_tokens_unprocessed t)) = t.
Proof.
  unfold get_tokens_unprocessed, trace; simpl fst; simpl snd.
  apply (run_spec (S (length t)) (start t)); simpl; [apply good_stack_root|lia].
Qed.

Lemma pass_contiguous (t : text) : contiguous 0 (fst (get_tokens_unprocessed t)).
Proof.
  unfold get_tokens_unprocessed, trace; simpl fst.
  apply (run_contiguous (S (length t)) (start t)); apply good_stack_root.
Qed.

(** * The claims *)

(** C1. Total coverage: for every input text the pass of
    [get_tokens_unprocessed] finishes, the values of the tokens it yields,
    concatenated in order, are the input text, and the first token starts
    at offset 0 and each next one where the one before it ends: each
    character is consumed exactly once, by a matched rule or by the
    one-character fallback. *)
Theorem C1_total_coverage :
  forall t : text,
    snd (get_tokens_unprocessed t) = Finished /\
    values (fst (get_tokens_unprocessed t)) = t /\
    contiguous 0 (fst (get_tokens_unprocessed t)).
Proof.
  intros t; destruct (pass_covers t) as [Hf Hv].
  split; [exact Hf|split; [exact Hv|apply pass_contiguous]].
Qed.

(** C9. Tokenization is total and never raises: for every input text the
    pass finishes within its fuel, and in every state the pass comes to no
    exception is raised, every iteration that yields consumes text, and
    when no rule of the current state matches at the offset, the iteration
    yields one Error token whose value is the current character, advances
    the offset by one and leaves the stack as it is. *)
Theorem C9_total_with_error_fallback :
  forall t : text,
    snd (get_tokens_unprocessed t) = Finished /\
    forall l, reaches (start t) l ->
      (forall toks, step l <> Raise toks) /\
      (forall toks l', step l = Yield toks l' ->
         length (rest (pos l')) < length (rest (pos l))) /\
      (forall top st x rst,
         statestack l = top :: st -> rest (pos l) = x :: rst ->
         first_match (tokens top) (pos l) = None ->
         step l = Yield [(offset (pos l), Error, [x])]
                        (Lexer (Cursor (x :: before (pos l)) rst) (statestack l))).
Proof.
  intros t; split; [apply pass_covers|].
  intros l Hr.
  assert (Hg : good_stack (statestack l))
    by (apply (reaches_good _ _ Hr); apply good_stack_root).
  pose proof (step_spec l Hg) as Hs.
  split; [|split].
  - intros toks E; rewrite E in Hs; exact Hs.
  - intros toks l' E; rewrite E in Hs; tauto.
  - intros top st x rst Est Erest Hnone.
    unfold step; rewrite Est, Hnone, Erest.
    destruct (Ascii.eqb x newline) eqn:Ex; [|rewrite <- Est; reflexivity].
    apply Ascii.eqb_eq in Ex; subst x; exfalso.
    rewrite Est in Hg.
    exact (newline_matched top (pos l) rst (good_stack_top_state _ _ Hg) Erest Hnone).
Qed.

(** The fallback of C9 at the input [?], which no rule of [root] matches. *)
Lemma C9_total_with_error_fallback_witness :
  step (start (txt "?")) =
  Yield [(0, Error, txt "?")] (Lexer (Cursor (txt "?") []) [root]).
Proof.
  apply (proj2 (proj2 (proj2 (C9_total_with_error_fallback (txt "?"))
                         (start (txt "?")) (reaches_here _)))
           root [] "?"%char []); [reflexivity|reflexivity|].
  vm_compute; reflexivity.
Defined.

(** ** Statements *)

Lemma lstrip_head s :
  lstrip s = [] \/ exists x r, lstrip s = x :: r /\ is_space x = false.
Proof.
  induction s as [|x s IH]; simpl; [left; reflexivity|].
  destruct (is_space x) eqn:E; [exact IH|right; eauto].
Qed.

Lemma lstrip_suffix s : exists p, s = p ++ lstrip s.
Proof.
  induction s as [|x s [p IH]]; simpl; [exists []; reflexivity|].
  destruct (is_space x); [exists (x :: p); simpl; f_equal; exact IH|exists []; reflexivity].
Qed.

Lemma lstrip_fixed x r : is_space x = false -> lstrip (x :: r) = x :: r.
Proof. intros E; simpl; rewrite E; reflexivity. Qed.

Lemma strip_idempotent s : strip (strip s) = strip s.
Proof.
  unfold strip.
  destruct (lstrip_head (rev (lstrip s))) as [E|[y [v' [E Hy]]]]; rewrite E; [reflexivity|].
  destruct (lstrip_suffix (rev (lstrip s))) as [p Hp]; rewrite E in Hp.
  apply (f_equal (@rev ascii)) in Hp; rewrite rev_involutive, rev_app_distr in Hp.
  destruct (lstrip_head s) as [E0|[a [u [E0 Ha]]]]; rewrite E0 in Hp.
  - simpl in Hp; symmetry in Hp; apply app_eq_nil in Hp; destruct Hp as [Hp _].
    apply app_eq_nil in Hp; destruct Hp; discriminate.
  - destruct (rev (y :: v')) as [|b w] eqn:Ev.
    + apply (f_equal (@length ascii)) in Ev; rewrite length_rev in Ev; discriminate.
    + simpl in Hp; injection Hp as <- _.
      rewrite (lstrip_fixed _ _ Ha), <- Ev, rev_involutive, (lstrip_fixed _ _ Hy).
      reflexivity.
Qed.

Lemma flush_spec fragments s :
  In s (flush fragments) -> s <> [] /\ strip s = s.
Proof.
  unfold flush; destruct (strip (concat fragments)) eqn:E; simpl; [tauto|].
  intros [<-|[]]; split; [discriminate|].
  rewrite <- E; apply strip_idempotent.
Qed.

Lemma split_statements_spec toks e :
  forall fragments s, In s (split_statements fragments toks e) ->
    s <> [] /\ strip s = s.
Proof.
  induction toks as [|t toks IH]; intros fragments s; simpl.
  - destruct e; simpl; try tauto; apply flush_spec.
  - destruct (is_separator t); [|apply IH].
    rewrite in_app_iff; intros [H|H]; [eapply flush_spec; eauto|eapply IH; eauto].
Qed.

Lemma lstrip_all_space s : forallb is_space s = true -> lstrip s = [].
Proof.
  induction s as [|x s IH]; simpl; [reflexivity|].
  intros H; apply andb_true_iff in H; destruct H as [-> H]; auto.
Qed.

Lemma strip_all_space s : forallb is_space s = true -> strip s = [].
Proof. intros H; unfold strip; rewrite (lstrip_all_space _ H); reflexivity. Qed.

Lemma forallb_concat_space (fragments : list text) :
  forallb (forallb is_space) fragments = true ->
  forallb is_space (concat fragments) = true.
Proof.
  induction fragments as [|f fs IH]; simpl; [reflexivity|].
  intros H; apply andb_true_iff in H; destruct H as [Hf Hfs].
  rewrite forallb_app, Hf; auto.
Qed.

(** White space between the separators yields nothing. *)
Lemma split_statements_blank toks e :
  (forall tk, In tk toks -> is_separator tk = false ->
              forallb is_space (token_value tk) = true) ->
  forall fragments, forallb (forallb is_space) fragments = true ->
    split_statements fragments toks e = [].
Proof.
  induction toks as [|t toks IH]; intros Hall fragments Hf; simpl.
  - destruct e; try reflexivity.
    unfold flush; rewrite (strip_all_space _ (forallb_concat_space _ Hf)); reflexivity.
  - destruct (is_separator t) eqn:Et.
    + unfold flush; rewrite (strip_all_space _ (forallb_concat_space _ Hf)); simpl.
      apply IH; [intros tk Hin; apply Hall; right; exact Hin|reflexivity].
    + apply IH; [intros tk Hin; apply Hall; right; exact Hin|].
      rewrite forallb_app; apply andb_true_iff; split; [exact Hf|].
      simpl; rewrite (Hall t (or_introl eq_refl) Et); reflexivity.
Qed.

(** C2. The input [MATCH (n) RETURN n; MATCH (m) RETURN m;] is split into
    the two statements [MATCH (n) RETURN n] and [MATCH (m) RETURN m], in
    that order, and the final terminator yields no empty statement. *)
Theorem C2_two_statements :
  get_statements (txt "MATCH (n) RETURN n; MATCH (m) RETURN m;") =
  ([txt "MATCH (n) RETURN n"; txt "MATCH (m) RETURN m"], Finished).
Proof. vm_compute; reflexivity. Qed.

(** C6. The pass over [(a)-[:REL]->(b)], iteration by iteration.  The
    opening parenthesis is matched in [root] and pushes [in_paren]; [a] is
    yielded in [in_paren]; [)-[] is one Punctuation token whose iteration
    starts in [in_paren] and ends in [in_bracket], the stack going from
    [in_paren; root] to [in_bracket; root] with no iteration in [root]
    between; the label is yielded in [in_bracket]; []->(] is one
    Punctuation token whose iteration starts in [in_bracket] and ends in
    [in_paren]; [b] is yielded in [in_paren] and the closing parenthesis
    pops to [root]. *)
Theorem C6_bracket_adjacency :
  trace (txt "(a)-[:REL]->(b)") =
  ([ Entry [root] [(0, Punctuation, txt "(")] [in_paren; root];
     Entry [in_paren; root] [(1, Name_Variable, txt "a")] [in_paren; root];
     Entry [in_paren; root] [(2, Punctuation, txt ")-[")] [in_bracket; root];
     Entry [in_bracket; root]
           [(5, Punctuation, txt ":"); (6, Name_Label, txt "REL")]
           [in_bracket; root];
     Entry [in_bracket; root] [(9, Punctuation, txt "]->(")] [in_paren; root];
     Entry [in_paren; root] [(13, Name_Variable, txt "b")] [in_paren; root];
     Entry [in_paren; root] [(14, Punctuation, txt ")")] [root] ],
   Finished).
Proof. vm_compute; reflexivity. Qed.

(** C8. Every statement that [get_statements] yields, for every input, is
    not empty and is its own [strip]; when every token that is not a
    separator is white space, so that every chunk between separators is
    empty or white space, nothing is yielded; the input [;;  ;] yields no
    statement. *)
Theorem C8_statements_trimmed_nonempty :
  (forall (t s : text), In s (fst (get_statements t)) -> s <> [] /\ strip s = s) /\
  (forall t : text,
     (forall tk, In tk (fst (get_tokens_unprocessed t)) -> is_separator tk = false ->
                 forallb is_space (token_value tk) = true) ->
     fst (get_statements t) = []) /\
  get_statements (txt ";;  ;") = ([], Finished).
Proof.
  split; [|split; [|vm_compute; reflexivity]].
  - intros t s; unfold get_statements.
    destruct (get_tokens_unprocessed t) as [toks e]; simpl.
    apply split_statements_spec.
  - intros t; unfold get_statements.
    destruct (get_tokens_unprocessed t) as [toks e]; simpl.
    intros Hall; apply split_statements_blank; [exact Hall|reflexivity].
Qed.

(** The first part of C8 at a statement of the input of C2. *)
Lemma C8_statements_trimmed_nonempty_witness :
  txt "MATCH (n) RETURN n" <> [] /\
  strip (txt "MATCH (n) RETURN n") = txt "MATCH (n) RETURN n".
Proof.
  apply (proj1 C8_statements_trimmed_nonempty
           (txt "MATCH (n) RETURN n; MATCH (m) RETURN m;")).
  vm_compute; left; reflexivity.
Defined.

(** ** Where a separator can come from *)

(** [may_start r x]: a match of [r] that consumes text may begin with the
    character [x]. *)
Fixpoint may_start (r : regex) (x : ascii) : bool :=
  match r with
  | Eps | Bol | WordB => false
  | Lit a => same_char a x
  | OneOf s => in_set s x
  | NoneOf s => negb (in_set s x)
  | Space => is_space x
  | Dot => negb (Ascii.eqb x newline)
  | Cat r1 r2 => may_start r1 x || (nullable r1 && may_start r2 x)
  | Or r1 r2 => may_start r1 x || may_start r2 x
  | Star r1 | Plus r1 | Opt r1 | Times _ r1 => may_start r1 x
  end.

Lemma eat_inv p k k' :
  In k' (eat p k) ->
  exists x rst, rest k = x :: rst /\ p x = true /\ k' = Cursor (x :: before k) rst.
Proof.
  unfold eat; destruct (rest k) as [|x rst]; [intros []|].
  destruct (p x) eqn:E; [|intros []].
  intros [<-|[]]; eauto.
Qed.

Lemma extends_no_progress k k1 :
  extends k k1 -> ~ length (rest k1) < length (rest k) -> k1 = k.
Proof.
  intros [x [Hx Hb]] Hlen; rewrite Hx, length_app in Hlen.
  destruct x as [|a x]; [|simpl in Hlen; lia].
  destruct k, k1; simpl in *; subst; reflexivity.
Qed.

Lemma star_first f n k k' :
  In k' (star f n k) ->
  k' = k \/ exists k1, In k1 (f k) /\ length (rest k1) < length (rest k).
Proof.
  destruct n as [|n]; simpl; [intros [<-|[]]; left; reflexivity|].
  rewrite in_app_iff, in_flat_map; intros [[k1 [H1 H2]]|[<-|[]]]; [|left; reflexivity].
  destruct (length (rest k1) <? length (rest k)) eqn:E; [|contradiction].
  apply Nat.ltb_lt in E; right; eauto.
Qed.

Lemma may_start_sound r :
  forall k k', In k' (rmatch r k) -> length (rest k') < length (rest k) ->
    exists x rst, rest k = x :: rst /\ may_start r x = true.
Proof.
  induction r; intros k k'; simpl;
    try (intros H _; apply eat_inv in H;
         destruct H as [x [rst [H1 [H2 _]]]]; eauto; fail);
    try (intros [<-|[]] Hlt; lia).
  - destruct (at_line_start k); simpl; [intros [<-|[]] Hlt; lia|tauto].
  - destruct (at_word_boundary k); simpl; [intros [<-|[]] Hlt; lia|tauto].
  - rewrite in_flat_map; intros [k1 [H1 H2]] Hlt.
    destruct (Nat.lt_ge_cases (length (rest k1)) (length (rest k))) as [Hl|Hl].
    + destruct (IHr1 _ _ H1 Hl) as [x [rst [E M]]].
      exists x, rst; rewrite M; auto.
    + assert (k1 = k)
        by (apply extends_no_progress; [eapply rmatch_extends; eauto|lia]).
      subst k1. destruct (IHr2 _ _ H2 Hlt) as [x [rst [E M]]].
      exists x, rst; rewrite M; split; [exact E|].
      destruct (nullable r1) eqn:N; [apply orb_true_r|].
      pose proof (rmatch_shorter _ N _ _ H1); lia.
  - rewrite in_app_iff; intros [H|H] Hlt.
    + destruct (IHr1 _ _ H Hlt) as [x [rst [E M]]]; exists x, rst; rewrite M; auto.
    + destruct (IHr2 _ _ H Hlt) as [x [rst [E M]]]; exists x, rst; rewrite M.
      split; [exact E|apply orb_true_r].
  - intros H Hlt; apply star_first in H; destruct H as [->|[k1 [H1 Hl]]]; [lia|eauto].
  - rewrite in_flat_map; intros [k1 [H1 H2]] Hlt.
    destruct (Nat.lt_ge_cases (length (rest k1)) (length (rest k))) as [Hl|Hl]; [eauto|].
    assert (k1 = k)
      by (apply extends_no_progress; [eapply rmatch_extends; eauto|lia]).
    subst k1. apply star_first in H2; destruct H2 as [->|[k2 [H2 Hl2]]]; [lia|eauto].
  - rewrite in_app_iff; intros [H|[<-|[]]] Hlt; [eauto|lia].
  - revert k; induction n as [|n IHn]; intros k; simpl; [intros [<-|[]] Hlt; lia|].
    rewrite in_flat_map; intros [k1 [H1 H2]] Hlt.
    destruct (Nat.lt_ge_cases (length (rest k1)) (length (rest k))) as [Hl|Hl]; [eauto|].
    assert (k1 = k)
      by (apply extends_no_progress; [eapply rmatch_extends; eauto|lia]).
    subst k1; eauto.
Qed.

Lemma span_head c c' x rst :
  rest c = x :: rst -> length (rest c') < length (rest c) ->
  exists w, span c c' = x :: w.
Proof.
  intros E Hlt; unfold span; rewrite E in *; simpl length in *.
  destruct (S (length rst) - length (rest c')) as [|n] eqn:D; [lia|].
  simpl; eauto.
Qed.


Definition semicolon : ascii := ";"%char.



















(** ** The line comment rule *)

Lemma same_char_newline x : same_char newline x = true -> x = newline.
Proof. destruct x as [[] [] [] [] [] [] [] []]; vm_compute; congruence. Qed.

Lemma same_char_slash x : same_char "/" x = true -> x = "/"%char.
Proof. destruct x as [[] [] [] [] [] [] [] []]; vm_compute; congruence. Qed.

Definition dot_char (x : ascii) : bool := negb (Ascii.eqb x newline).

Lemma dot_char_spec x : dot_char x = true <-> x <> newline.
Proof.
  unfold dot_char; rewrite negb_true_iff; split.
  - intros E ->; rewrite Ascii.eqb_refl in E; discriminate.
  - intros Hne; apply Ascii.eqb_neq; exact Hne.
Qed.

(** [.*] only runs over characters other than the newline ... *)
Lemma star_dot_sound n : forall c c1,
  In c1 (star (rmatch Dot) n c) ->
  exists x, rest c = x ++ rest c1 /\ ~ In newline x.
Proof.
  induction n as [|n IH]; intros c c1; simpl.
  - intros [<-|[]]; exists []; auto.
  - rewrite in_app_iff, in_flat_map; intros [[c2 [H2 H1]]|[<-|[]]]; [|exists []; auto].
    destruct (length (rest c2) <? length (rest c)); [|contradiction].
    apply eat_inv in H2; destruct H2 as [a [rst [E [Ha ->]]]].
    destruct (IH _ _ H1) as [x [Ex Hx]]; simpl in Ex.
    exists (a :: x); split; [rewrite E, Ex; reflexivity|].
    intros [->|Hin]; [discriminate Ha|contradiction].
Qed.

(** ... and it can stop after any run of them. *)
Lemma many_dot_complete x : forall c r,
  ~ In newline x -> rest c = x ++ r ->
  In (Cursor (rev x ++ before c) r) (many (rmatch Dot) c).
Proof.
  induction x as [|a x IH]; intros c r Hx E; rewrite many_unfold, in_app_iff.
  - right; left; destruct c; simpl in *; subst; reflexivity.
  - left; apply in_flat_map.
    exists (Cursor (a :: before c) (x ++ r)); split.
    + simpl; unfold eat; rewrite E; simpl.
      assert (Ha : a <> newline) by (intros ->; apply Hx; left; reflexivity).
      apply Ascii.eqb_neq in Ha; rewrite Ha; left; reflexivity.
    + rewrite E; simpl.
      replace (length (x ++ r) <? S (length (x ++ r))) with true
        by (symmetry; apply Nat.ltb_lt; lia).
      specialize (IH (Cursor (a :: before c) (x ++ r)) r).
      simpl in IH; rewrite <- app_assoc; simpl; apply IH; [|reflexivity].
      intros Hin; apply Hx; right; exact Hin.
Qed.

(** The text up to the first newline is determined. *)
Lemma first_newline_unique a : forall a' b b',
  ~ In newline a -> ~ In newline a' ->
  a ++ newline :: b = a' ++ newline :: b' -> a = a' /\ b = b'.
Proof.
  induction a as [|x a IH]; intros [|x' a'] b b' Ha Ha'; simpl; intros E.
  - injection E as <-; auto.
  - injection E as <- _; contradiction Ha'; left; reflexivity.
  - injection E as -> _; contradiction Ha; left; reflexivity.
  - injection E as <- E.
    destruct (IH a' b b') as [-> ->]; auto.
    + intros H; apply Ha; right; exact H.
    + intros H; apply Ha'; right; exact H.
Qed.

Section LineComment.
Variables (c : cursor) (line more : text).
Hypothesis at_start : at_line_start c = true.
Hypothesis the_line : rest c = line ++ newline :: more.
Hypothesis one_line : ~ In newline line.

Definition line_end : cursor := Cursor (newline :: rev line ++ before c) more.

Lemma line_comment_unfold :
  rmatch line_comment c =
  flat_map (fun c1 =>
    flat_map (fun c2 =>
      flat_map (fun c3 =>
        flat_map (rmatch (Lit newline)) (many (rmatch Dot) c3))
        (rmatch (Lit "/") c2))
      (rmatch (Lit "/") c1))
    (many (rmatch Dot) c).
Proof.
  unfold line_comment; simpl cat_all.
  change (rmatch (Cat Bol ?r) c) with (flat_map (rmatch r) (rmatch Bol c)).
  simpl (rmatch Bol c); rewrite at_start; simpl; rewrite app_nil_r; reflexivity.
Qed.

(** Every match of the rule ends after the newline of the line. *)
Lemma line_comment_ends c' : In c' (rmatch line_comment c) -> c' = line_end.
Proof.
  intros Hin; pose proof (rmatch_extends _ _ _ Hin) as [X [EX BX]].
  rewrite line_comment_unfold in Hin.
  apply in_flat_map in Hin; destruct Hin as [c1 [H1 Hin]].
  apply in_flat_map in Hin; destruct Hin as [c2 [H2 Hin]].
  apply in_flat_map in Hin; destruct Hin as [c3 [H3 Hin]].
  apply in_flat_map in Hin; destruct Hin as [c4 [H4 H5]].
  apply star_dot_sound in H1; destruct H1 as [x1 [E1 N1]].
  apply eat_inv in H2; destruct H2 as [s1 [r1 [E2 [S1 ->]]]].
  apply eat_inv in H3; destruct H3 as [s2 [r2 [E3 [S2 ->]]]].
  apply star_dot_sound in H4; destruct H4 as [x2 [E4 N2]].
  apply eat_inv in H5; destruct H5 as [n [r3 [E5 [S3 ->]]]].
  apply same_char_slash in S1, S2; apply same_char_newline in S3; subst s1 s2 n.
  simpl in E3, E4; subst r1 r2.
  assert (E : (x1 ++ "/"%char :: "/"%char :: x2) ++ newline :: r3 = line ++ newline :: more).
  { rewrite <- the_line, E1, E2, E5, <- app_assoc; reflexivity. }
  apply first_newline_unique in E; [|
    rewrite in_app_iff; intros [H|[H|[H|H]]];
      [contradiction|discriminate H|discriminate H|contradiction] | exact one_line].
  destruct E as [_ ->].
  simpl in EX, BX; rewrite the_line in EX.
  replace (line ++ newline :: more) with ((line ++ [newline]) ++ more) in EX
    by (rewrite <- app_assoc; reflexivity).
  apply app_inv_tail in EX; subst X.
  unfold line_end; rewrite BX, rev_app_distr; reflexivity.
Qed.

(** The rule matches when the line holds two slashes. *)
Lemma line_comment_matches a b :
  line = a ++ txt "//" ++ b -> rmatch line_comment c <> [].
Proof.
  intros El Hnil.
  assert (Ha : ~ In newline a)
    by (intros H; apply one_line; rewrite El, in_app_iff; auto).
  assert (Hb : ~ In newline b)
    by (intros H; apply one_line; rewrite El, !in_app_iff; auto).
  assert (Hin : In (Cursor (newline :: rev b ++ "/"%char :: "/"%char :: rev a ++ before c) more)
                   (rmatch line_comment c)); [|rewrite Hnil in Hin; exact Hin].
  rewrite line_comment_unfold; apply in_flat_map.
  exists (Cursor (rev a ++ before c) (txt "//" ++ b ++ newline :: more)); split.
  { apply many_dot_complete; [exact Ha|].
    rewrite the_line, El, <- !app_assoc; reflexivity. }
  apply in_flat_map; eexists; split; [left; reflexivity|].
  apply in_flat_map; eexists; split; [left; reflexivity|].
  apply in_flat_map.
  exists (Cursor (rev b ++ "/"%char :: "/"%char :: rev a ++ before c) (newline :: more)); split.
  { apply (many_dot_complete b (Cursor ("/"%char :: "/"%char :: rev a ++ before c)
                                       (b ++ newline :: more)));
      [exact Hb|reflexivity]. }
  left; reflexivity.
Qed.

Lemma line_comment_rule a b :
  line = a ++ txt "//" ++ b ->
  match_rule (tok line_comment Comment_Single) c =
  Some ([(offset c, Comment_Single, line ++ [newline])], line_end).
Proof.
  intros El; unfold match_rule, re_match, tok; cbn [body].
  assert (Hs : span c line_end = line ++ [newline]).
  { assert (Hs : span c line_end ++ rest line_end = rest c).
    { apply extends_span; exists (line ++ [newline]); split.
      - rewrite the_line, <- app_assoc; reflexivity.
      - unfold line_end; simpl; rewrite rev_app_distr; reflexivity. }
    simpl in Hs; rewrite the_line in Hs.
    replace (line ++ newline :: more) with ((line ++ [newline]) ++ more) in Hs
      by (rewrite <- app_assoc; reflexivity).
    apply app_inv_tail in Hs; exact Hs. }
  destruct (rmatch line_comment c) as [|c' l] eqn:E.
  - exfalso; exact (line_comment_matches a b El E).
  - assert (Hc : c' = line_end)
      by (apply line_comment_ends; rewrite E; left; reflexivity).
    subst c'; cbn [hd_error]; rewrite Hs; reflexivity.
Qed.
End LineComment.

(** The four states that include 'comments' begin with the same rules. *)
Lemma comment_rule_first top :
  In top [root; in_paren; in_bracket; in_brace] ->
  exists others,
    tokens top = strings_rules ++ tok line_comment Comment_Single :: others.
Proof.
  intros [<-|[<-|[<-|[<-|[]]]]]; eexists; reflexivity.
Qed.

(** C10. In a state that includes 'comments' ([root], [in_paren],
    [in_bracket], [in_brace]), when the offset is at the start of a line,
    the text from the offset to the first newline holds two adjacent
    slashes and neither rule of 'strings' (the only rules tried before)
    matches, the iteration yields the whole line with its newline,
    the text before the slashes included, as one Comment.Single token and
    leaves the stack as it is.  So the input [RETURN 1 // note] with its
    newline is one Comment.Single token, and a semicolon on such a line is
    no separator: [RETURN 1; // note], newline, [RETURN 2] is yielded as
    one statement. *)
Theorem C10_line_comment_takes_whole_line :
  (forall (l : lexer) (top : state) (st : list state) (line a b more : text),
     statestack l = top :: st ->
     In top [root; in_paren; in_bracket; in_brace] ->
     at_line_start (pos l) = true ->
     rest (pos l) = line ++ newline :: more ->
     ~ In newline line ->
     line = a ++ txt "//" ++ b ->
     first_match strings_rules (pos l) = None ->
     step l = Yield [(offset (pos l), Comment_Single, line ++ [newline])]
                    (Lexer (Cursor (newline :: rev line ++ before (pos l)) more)
                           (statestack l))) /\
  get_tokens_unprocessed (txt "RETURN 1 // note" ++ [newline]) =
    ([(0, Comment_Single, txt "RETURN 1 // note" ++ [newline])], Finished) /\
  get_statements (txt "RETURN 1; // note" ++ [newline] ++ txt "RETURN 2") =
    ([txt "RETURN 1; // note" ++ [newline] ++ txt "RETURN 2"], Finished).
Proof.
  split; [|split; vm_compute; reflexivity].
  intros l top st line a b more Est Htop Hstart Hline Hone Hslashes Hstr.
  destruct (comment_rule_first top Htop) as [others Etok].
  unfold step; rewrite Est, Etok, first_match_app, Hstr.
  cbn [first_match].
  rewrite (line_comment_rule (pos l) line more Hstart Hline Hone a b Hslashes).
  reflexivity.
Qed.

(** The first part of C10 at the start of the input [RETURN 1 // note]. *)
Lemma C10_line_comment_takes_whole_line_witness :
  step (start (txt "RETURN 1 // note" ++ [newline])) =
  Yield [(0, Comment_Single, txt "RETURN 1 // note" ++ [newline])]
        (Lexer (Cursor (newline :: rev (txt "RETURN 1 // note")) []) [root]).
Proof.
  apply (proj1 C10_line_comment_takes_whole_line
           (start (txt "RETURN 1 // note" ++ [newline])) root []
           (txt "RETURN 1 // note") (txt "RETURN 1 ") (txt " note") []).
  - reflexivity.
  - left; reflexivity.
  - reflexivity.
  - reflexivity.
  - simpl; intuition discriminate.
  - reflexivity.
  - vm_compute; reflexivity.
Defined.

(** ** The order of the compiled rules *)

Fixpoint is_prefix (a b : text) : bool :=
  match a, b with
  | [], _ => true
  | x :: a', y :: b' => Ascii.eqb x y && is_prefix a' b'
  | _ :: _, [] => false
  end.

Definition strict_prefix (a b : text) : bool :=
  is_prefix a b && (length a <? length b).

(** [precedes x y l]: an occurrence of [x] in [l] comes before one of [y]. *)
Fixpoint precedes (x y : text) (l : list text) : bool :=
  match l with
  | [] => false
  | z :: l' => (text_eqb z x && existsb (text_eqb y) l') || precedes x y l'
  end.

(** The order the claim describes: for two literals of the table of which
    one is a strict prefix of the other, the rule of the longer one comes
    first in the compiled list. *)
Definition longer_first (pattern : string -> text) (table : list string)
                        (rules : list (text * token_type)) : Prop :=
  forall short long, In short table -> In long table ->
    strict_prefix (txt short) (txt long) = true ->
    precedes (pattern long) (pattern short) (map fst rules) = true.

Lemma text_eqb_refl a : text_eqb a a = true.
Proof. unfold text_eqb; destruct (list_eq_dec ascii_dec a a); congruence. Qed.

Lemma text_eqb_eq a b : text_eqb a b = true -> a = b.
Proof. unfold text_eqb; destruct (list_eq_dec ascii_dec a b); congruence. Qed.

Lemma existsb_text_eqb y l : In y l -> existsb (text_eqb y) l = true.
Proof.
  intros H; apply existsb_exists; exists y; split; [exact H|apply text_eqb_refl].
Qed.

Lemma precedes_app_l x y l1 l2 :
  precedes x y l1 = true -> precedes x y (l1 ++ l2) = true.
Proof.
  induction l1 as [|z l1 IH]; simpl; [discriminate|].
  rewrite existsb_app; intros H; apply orb_true_iff in H; destruct H as [H|H].
  - apply andb_true_iff in H; destruct H as [-> ->]; reflexivity.
  - rewrite (IH H); apply orb_true_r.
Qed.

Lemma precedes_snoc x y l : In x l -> precedes x y (l ++ [y]) = true.
Proof.
  induction l as [|z l IH]; simpl; [tauto|].
  intros [->|H].
  - rewrite text_eqb_refl, existsb_app; simpl; rewrite text_eqb_refl.
    rewrite orb_true_r; reflexivity.
  - rewrite (IH H); apply orb_true_r.
Qed.

Lemma str_leb_refl a : str_leb a a = true.
Proof.
  induction a as [|x a IH]; simpl; [reflexivity|].
  rewrite Nat.ltb_irrefl; exact IH.
Qed.

Lemma str_leb_total a : forall b, str_leb a b = true \/ str_leb b a = true.
Proof.
  induction a as [|x a IH]; intros [|y b]; simpl; auto.
  destruct (Nat.ltb_spec (code x) (code y)); auto.
  destruct (Nat.ltb_spec (code y) (code x)); auto.
Qed.

Lemma str_leb_trans a : forall b c,
  str_leb a b = true -> str_leb b c = true -> str_leb a c = true.
Proof.
  induction a as [|x a IH]; intros [|y b] [|z c]; simpl; auto; try discriminate.
  destruct (Nat.ltb_spec (code x) (code y)), (Nat.ltb_spec (code y) (code z)),
           (Nat.ltb_spec (code y) (code x)), (Nat.ltb_spec (code z) (code y)),
           (Nat.ltb_spec (code x) (code z)), (Nat.ltb_spec (code z) (code x));
    try lia; try discriminate; auto.
  apply IH.
Qed.

Lemma str_leb_common_prefix p a b : str_leb (p ++ a) (p ++ b) = str_leb a b.
Proof.
  induction p as [|x p IH]; simpl; [reflexivity|].
  rewrite Nat.ltb_irrefl; exact IH.
Qed.

Section Sorting.
Variable A : Type.
Implicit Types (x y z : text * A) (l : list (text * A)).

Fixpoint ascending l : Prop :=
  match l with
  | [] => True
  | x :: l' => (forall y, In y l' -> str_leb (fst x) (fst y) = true) /\ ascending l'
  end.

Lemma insert_sorted_In x l z : In z (insert_sorted x l) <-> z = x \/ In z l.
Proof.
  induction l as [|y l IH]; simpl; [intuition|].
  destruct (str_leb (fst x) (fst y)); simpl; [intuition|].
  rewrite IH; intuition.
Qed.

Lemma insert_sorted_ascending x l : ascending l -> ascending (insert_sorted x l).
Proof.
  induction l as [|y l IH]; simpl; [auto|].
  intros [Hy Hl]; destruct (str_leb (fst x) (fst y)) eqn:E; simpl.
  - split; [|auto]. intros z [<-|Hz]; [exact E|].
    eapply str_leb_trans; eauto.
  - split; [|auto]. intros z Hz; apply insert_sorted_In in Hz.
    destruct Hz as [->|Hz]; [|auto].
    destruct (str_leb_total (fst x) (fst y)); congruence.
Qed.

Lemma sorted_In l z : In z (sorted l) <-> In z l.
Proof.
  induction l as [|x l IH]; simpl; [tauto|].
  rewrite insert_sorted_In, IH; intuition.
Qed.

Lemma sorted_ascending l : ascending (sorted l).
Proof.
  induction l as [|x l IH]; simpl; [exact I|].
  apply insert_sorted_ascending; exact IH.
Qed.

(** In the reversed list, a greater pattern comes before a smaller one. *)
Lemma descending_precedes l x y :
  ascending l -> In x l -> In y l -> str_leb (fst x) (fst y) = false ->
  precedes (fst x) (fst y) (map fst (reversed l)) = true.
Proof.
  unfold reversed; induction l as [|z l IH]; simpl; [tauto|].
  intros [Hz Hl] Hx Hy Hlt; rewrite map_app; simpl.
  destruct Hx as [->|Hx].
  - destruct Hy as [->|Hy].
    + rewrite str_leb_refl in Hlt; discriminate.
    + rewrite (Hz _ Hy) in Hlt; discriminate.
  - destruct Hy as [->|Hy].
    + apply precedes_snoc; apply in_map; apply in_rev in Hx; exact Hx.
    + apply precedes_app_l; apply IH; assumption.
Qed.
End Sorting.

Lemma compiled_order (f : string -> text) (table : list string) (t : token_type) a b :
  In a table -> In b table -> str_leb (f a) (f b) = false ->
  precedes (f a) (f b)
           (map fst (reversed (sorted (map (fun w => (f w, t)) table)))) = true.
Proof.
  intros Ha Hb Hlt.
  apply (descending_precedes _ _ (f a, t) (f b, t));
    [apply sorted_ascending| | |exact Hlt];
    apply sorted_In; apply (in_map (fun w => (f w, t))); assumption.
Qed.

Lemma is_prefix_app a : forall b,
  strict_prefix a b = true -> exists x tail, b = a ++ x :: tail.
Proof.
  unfold strict_prefix; induction a as [|y a IH]; intros [|z b]; simpl;
    try discriminate.
  - intros _; eauto.
  - intros H; apply andb_true_iff in H; destruct H as [H Hlen].
    apply andb_true_iff in H; destruct H as [Hyz Hp].
    apply Ascii.eqb_eq in Hyz; subst z.
    destruct (IH b) as [x [tail ->]]; [rewrite Hp; exact Hlen|eauto].
Qed.

Definition word_chars (w : text) : text :=
  flat_map (fun ch => if Ascii.eqb ch " " then txt "\s+" else [ch]) w.

Lemma word_pattern_app (short long : string) x tail :
  txt long = txt short ++ x :: tail ->
  word_pattern long = word_chars (txt short) ++ word_chars (x :: tail) ++ txt "\b" /\
  word_pattern short = word_chars (txt short) ++ txt "\b".
Proof.
  intros E; unfold word_pattern; fold (word_chars (txt long)); rewrite E.
  unfold word_chars at 1; rewrite flat_map_app, <- app_assoc; split; reflexivity.
Qed.

Lemma symbol_pattern_app (short long : string) x tail :
  txt long = txt short ++ x :: tail ->
  symbol_pattern long = symbol_pattern short ++ backslash :: x :: flat_map (fun ch => [backslash; ch]) tail.
Proof.
  intros E; unfold symbol_pattern; rewrite E, flat_map_app; reflexivity.
Qed.

Lemma str_leb_longer p x r : str_leb (p ++ x :: r) p = false.
Proof.
  rewrite <- (app_nil_r p) at 2; rewrite str_leb_common_prefix; reflexivity.
Qed.

(** C3, as stated, fails: in the rules compiled from [cypher_keywords] the
    rule of [ASC] comes before the rule of [ASCENDING], not after it.  The
    sort compares the patterns, and in [ASC\b] the backslash is greater
    than the [E] of [ASCENDING\b]. *)
Lemma C3_longer_first_fails :
  ~ (longer_first word_pattern cypher_keywords (word_list cypher_keywords Keyword) /\
     longer_first word_pattern cypher_operator_words
                  (word_list cypher_operator_words Operator) /\
     longer_first symbol_pattern cypher_operator_symbols
                  (symbol_list cypher_operator_symbols Operator)).
Proof.
  intros [H _].
  specialize (H "ASC"%string "ASCENDING"%string).
  assert (Hfalse : precedes (word_pattern "ASCENDING") (word_pattern "ASC")
                     (map fst (word_list cypher_keywords Keyword)) = false)
    by (vm_compute; reflexivity).
  rewrite H in Hfalse; [discriminate| | |reflexivity].
  - unfold cypher_keywords; simpl; tauto.
  - unfold cypher_keywords; simpl; tauto.
Qed.

(** C3, amended.  For two literals of one list, [long] continuing [short]
    with the character [x]: [symbol_list] always places the rule of [long]
    before the rule of [short]; [word_list] places the rule of [long]
    first when [x] is a space or a character above the backslash, and the
    rule of [short] first when [x] is another character below the
    backslash (a digit or an upper-case letter, as in ASC and ASCENDING). *)
Theorem C3_compiled_order :
  forall (table : list string) (ttype : token_type) (short long : string)
         (x : ascii) (tail : text),
    In short table -> In long table ->
    txt long = txt short ++ x :: tail ->
    precedes (symbol_pattern long) (symbol_pattern short)
             (map fst (symbol_list table ttype)) = true /\
    (x = " "%char \/ 92 < code x ->
     precedes (word_pattern long) (word_pattern short)
              (map fst (word_list table ttype)) = true) /\
    (x <> " "%char -> code x < 92 ->
     precedes (word_pattern short) (word_pattern long)
              (map fst (word_list table ttype)) = true).
Proof.
  intros table ttype short long x tail Hs Hl E.
  destruct (word_pattern_app short long x tail E) as [El Es].
  split; [|split].
  - apply compiled_order; [assumption..|].
    rewrite (symbol_pattern_app short long x tail E); apply str_leb_longer.
  - intros Hx; apply compiled_order; [assumption..|].
    rewrite El, Es, str_leb_common_prefix.
    destruct Hx as [->|Hx]; [reflexivity|].
    simpl; destruct (Ascii.eqb x " ") eqn:Ex.
    + apply Ascii.eqb_eq in Ex; subst x; vm_compute in Hx; lia.
    + simpl; change (code "\") with 92.
      destruct (Nat.ltb_spec (code x) 92); [lia|].
      destruct (Nat.ltb_spec 92 (code x)); [reflexivity|lia].
  - intros Hsp Hx; apply compiled_order; [assumption..|].
    rewrite El, Es, str_leb_common_prefix.
    simpl; destruct (Ascii.eqb x " ") eqn:Ex;
      [apply Ascii.eqb_eq in Ex; contradiction|].
    simpl; change (code "\") with 92.
    destruct (Nat.ltb_spec 92 (code x)); [lia|].
    destruct (Nat.ltb_spec (code x) 92); [reflexivity|lia].
Qed.

(** The amended order at the literals of the claim: [<=] before [<],
    [CREATE UNIQUE] before [CREATE], and [ASC] before [ASCENDING]. *)
Lemma C3_compiled_order_witness :
  precedes (symbol_pattern "<=") (symbol_pattern "<")
           (map fst (symbol_list cypher_operator_symbols Operator)) = true /\
  precedes (word_pattern "CREATE UNIQUE") (word_pattern "CREATE")
           (map fst (word_list cypher_keywords Keyword)) = true /\
  precedes (word_pattern "ASC") (word_pattern "ASCENDING")
           (map fst (word_list cypher_keywords Keyword)) = true.
Proof.
  split; [|split].
  - apply (proj1 (C3_compiled_order cypher_operator_symbols Operator "<" "<=" "=" []
                    ltac:(simpl; tauto) ltac:(simpl; tauto) eq_refl)).
  - apply (proj1 (proj2 (C3_compiled_order cypher_keywords Keyword "CREATE"
                           "CREATE UNIQUE" " " (txt "UNIQUE")
                           ltac:(simpl; tauto) ltac:(simpl; tauto) eq_refl))).
    left; reflexivity.
  - apply (proj2 (proj2 (C3_compiled_order cypher_keywords Keyword "ASC"
                           "ASCENDING" "E" (txt "NDING")
                           ltac:(simpl; tauto) ltac:(simpl; tauto) eq_refl))).
    + discriminate.
    + vm_compute; lia.
Defined.

(** ** Keywords and the word boundary *)

(** The pattern ends with [\b]. *)
Fixpoint ends_at_boundary (r : regex) : bool :=
  match r with
  | WordB => true
  | Cat _ r2 => ends_at_boundary r2
  | _ => false
  end.

Lemma ends_at_boundary_sound r :
  ends_at_boundary r = true ->
  forall k k', In k' (rmatch r k) -> at_word_boundary k' = true.
Proof.
  induction r; simpl; try discriminate; intros Hb k k'.
  - destruct (at_word_boundary k) eqn:E; [intros [<-|[]]; exact E|intros []].
  - rewrite in_flat_map; intros [k1 [_ H2]]; eauto.
Qed.

Lemma is_word_lower a : is_word (lower a) = is_word a.
Proof. destruct a as [[] [] [] [] [] [] [] []]; vm_compute; reflexivity. Qed.

Lemma is_word_same_char a y : same_char a y = true -> is_word y = is_word a.
Proof.
  unfold same_char; intros E; apply Ascii.eqb_eq in E.
  rewrite <- (is_word_lower y), <- E; apply is_word_lower.
Qed.

Definition starts_with_word (r : regex) : bool :=
  match r with
  | Lit x | Cat (Lit x) _ => is_word x
  | _ => false
  end.

(** [exclusive rs rl]: [rs] is a word [s1 ... sn] followed by [\b], and
    [rl] begins with the same [s1 ... sn] followed by one more word
    character. *)
Fixpoint exclusive (rs rl : regex) : bool :=
  match rs, rl with
  | Cat (Lit a) rs', Cat (Lit b) rl' =>
      Ascii.eqb a b &&
      match rs' with
      | WordB => is_word a && starts_with_word rl'
      | _ => exclusive rs' rl'
      end
  | _, _ => false
  end.

Lemma starts_with_word_sound r k :
  starts_with_word r = true -> rmatch r k <> [] -> word_at (rest k) = true.
Proof.
  assert (Hlit : forall x, is_word x = true -> eat (same_char x) k <> [] ->
                           word_at (rest k) = true).
  { intros x Hx; unfold eat; destruct (rest k) as [|y rst]; [congruence|].
    destruct (same_char x y) eqn:E; [|congruence].
    intros _; simpl; rewrite (is_word_same_char _ _ E); exact Hx. }
  destruct r; simpl; try discriminate; [apply Hlit|].
  destruct r1; try discriminate; simpl.
  intros Hx Hne; apply (Hlit c Hx); intros E; rewrite E in Hne; apply Hne; reflexivity.
Qed.

(** Where the longer pattern matches, the shorter one does not. *)
Lemma exclusive_sound rs : forall rl k,
  exclusive rs rl = true -> rmatch rl k <> [] -> rmatch rs k = [].
Proof.
  induction rs; intros rl k; simpl; try discriminate.
  destruct rs1; try discriminate.
  destruct rl; try discriminate. destruct rl1; try discriminate.
  intros H; apply andb_true_iff in H; destruct H as [Hc H].
  apply Ascii.eqb_eq in Hc; subst c0; simpl.
  unfold eat; destruct (rest k) as [|y rst]; [reflexivity|].
  destruct (same_char c y) eqn:Ey; [|reflexivity].
  simpl; rewrite !app_nil_r; intros Hl.
  destruct rs2; try discriminate; try (apply (IHrs2 _ _ H Hl)).
  apply andb_true_iff in H; destruct H as [Hw Hs]; simpl.
  unfold at_word_boundary; simpl.
  pose proof (starts_with_word_sound _ _ Hs Hl) as Hnext; simpl in Hnext.
  rewrite (is_word_same_char _ _ Ey), Hw, Hnext; reflexivity.
Qed.

(** The word lists of the lexer, with the token type of their rules. *)
Definition word_tables : list (list string * token_type) :=
  [ (cypher_keywords, Keyword); (cypher_pseudo_keywords, Keyword);
    (cypher_operator_words, Operator); (cypher_constants, Name_Constant) ].

Definition all_pairs (table : list string) (p : string -> string -> bool) : bool :=
  forallb (fun short => forallb (p short) table) table.

Lemma all_pairs_spec table p :
  all_pairs table p = true ->
  forall short long, In short table -> In long table -> p short long = true.
Proof.
  unfold all_pairs; rewrite forallb_forall; intros H short long Hs Hl.
  specialize (H _ Hs); rewrite forallb_forall in H; apply H; exact Hl.
Qed.

Lemma word_rules_end_at_boundary :
  forallb (fun tt => forallb (fun w => ends_at_boundary (compiled (word_pattern w)))
                             (fst tt)) word_tables = true.
Proof. vm_compute; reflexivity. Qed.

(** No shorter literal that comes first matches where the longer one does,
    checked on every pair of every word list. *)
Definition pair_exclusive (rules : list text) (short long : string) : bool :=
  if strict_prefix (txt short) (txt long) then
    if precedes (word_pattern short) (word_pattern long) rules
    then exclusive (compiled (word_pattern short)) (compiled (word_pattern long))
    else true
  else true.

Lemma word_rules_exclusive :
  forallb (fun tt =>
    let rules := map fst (word_list (fst tt) (snd tt)) in
    all_pairs (fst tt) (pair_exclusive rules)) word_tables = true.
Proof. vm_compute; reflexivity. Qed.

Definition pair_longer_first (rules : list text) (short long : string) : bool :=
  if strict_prefix (txt short) (txt long)
  then negb (precedes (symbol_pattern short) (symbol_pattern long) rules)
  else true.

Lemma symbol_rules_longer_first :
  let rules := map fst (symbol_list cypher_operator_symbols Operator) in
  all_pairs cypher_operator_symbols (pair_longer_first rules) = true.
Proof. vm_compute; reflexivity. Qed.

(** C5.  For every literal of the word lists (keywords, pseudo-keywords,
    operator words, constants), a match of its compiled rule ends at a
    word boundary: when the match ends with a word character, the next
    character is not one, so the keyword is never matched as the beginning
    of a longer identifier.  No literal is shadowed by a shorter one: when
    [short] is a strict prefix of [long] and the rule of [short] comes
    first, the rule of [short] does not match where the rule of [long]
    matches; and no operator symbol has a strict prefix placed before it.
    [ASCENDING] is one Keyword token, and [CREATED] is one Name.Variable
    token, not a Keyword [CREATE] and a rest. *)
Theorem C5_keywords_not_shadowed :
  (forall table ttype w k k',
     In (table, ttype) word_tables -> In w table ->
     In k' (rmatch (compiled (word_pattern w)) k) ->
     at_word_boundary k' = true /\
     (word_at (before k') = true -> word_at (rest k') = false)) /\
  (forall table ttype short long k,
     In (table, ttype) word_tables -> In short table -> In long table ->
     strict_prefix (txt short) (txt long) = true ->
     precedes (word_pattern short) (word_pattern long)
              (map fst (word_list table ttype)) = true ->
     rmatch (compiled (word_pattern long)) k <> [] ->
     rmatch (compiled (word_pattern short)) k = []) /\
  (forall short long,
     In short cypher_operator_symbols -> In long cypher_operator_symbols ->
     strict_prefix (txt short) (txt long) = true ->
     precedes (symbol_pattern short) (symbol_pattern long)
              (map fst (symbol_list cypher_operator_symbols Operator)) = false) /\
  get_tokens_unprocessed (txt "ASCENDING") =
    ([(0, Keyword, txt "ASCENDING")], Finished) /\
  get_tokens_unprocessed (txt "CREATED") =
    ([(0, Name_Variable, txt "CREATED")], Finished).
Proof.
  split; [|split; [|split; [|split; vm_compute; reflexivity]]].
  - intros table ttype w k k' Ht Hw Hin.
    pose proof word_rules_end_at_boundary as H.
    rewrite forallb_forall in H; specialize (H _ Ht); simpl in H.
    rewrite forallb_forall in H; specialize (H _ Hw).
    pose proof (ends_at_boundary_sound _ H _ _ Hin) as Hb.
    split; [exact Hb|].
    unfold at_word_boundary in Hb; intros Hbefore; rewrite Hbefore in Hb.
    destruct (word_at (rest k')); [discriminate|reflexivity].
  - intros table ttype short long k Ht Hs Hl Hp Hprec Hmatch.
    pose proof word_rules_exclusive as H.
    rewrite forallb_forall in H; specialize (H _ Ht); cbv zeta in H.
    pose proof (all_pairs_spec _ _ H short long Hs Hl) as Hpair.
    unfold pair_exclusive in Hpair; cbn [fst snd] in Hpair.
    rewrite Hp, Hprec in Hpair.
    exact (exclusive_sound _ _ _ Hpair Hmatch).
  - intros short long Hs Hl Hp.
    pose proof (all_pairs_spec _ _ symbol_rules_longer_first short long Hs Hl) as H.
    unfold pair_longer_first in H; rewrite Hp in H.
    apply negb_true_iff in H; exact H.
Qed.

(** The second part of C5 at ASC and ASCENDING: where [ASCENDING] stands,
    the rule of [ASC], which comes first, does not match. *)
Lemma C5_keywords_not_shadowed_witness :
  rmatch (compiled (word_pattern "ASC")) (Cursor [] (txt "ASCENDING")) = [].
Proof.
  apply (proj1 (proj2 C5_keywords_not_shadowed) cypher_keywords Keyword
           "ASC"%string "ASCENDING"%string).
  - left; reflexivity.
  - simpl; tauto.
  - simpl; tauto.
  - reflexivity.
  - vm_compute; reflexivity.
  - vm_compute; discriminate.
Defined.

(** ** CREATE UNIQUE *)


Lemma rmatch_cat_lit a r b x rst :
  same_char a x = true ->
  rmatch (Cat (Lit a) r) (Cursor b (x :: rst)) = rmatch r (Cursor (x :: b) rst).
Proof. intros E; simpl; unfold eat; simpl; rewrite E; simpl; apply app_nil_r. Qed.

Definition no_space_ahead (t : text) : bool :=
  match t with
  | x :: _ => negb (is_space x)
  | [] => true
  end.

(** [\s*] first tries the whole run of white space. *)
Lemma many_space_greedy ws : forall b tail,
  forallb is_space ws = true -> no_space_ahead tail = true ->
  exists l, many (rmatch Space) (Cursor b (ws ++ tail)) = Cursor (rev ws ++ b) tail :: l.
Proof.
  induction ws as [|w ws IH]; intros b tail Hws Htail; rewrite many_unfold;
    change (rmatch Space ?k) with (eat is_space k); unfold eat; cbn [rest before app].
  - exists []; destruct tail as [|x tail]; [reflexivity|].
    simpl in Htail; apply negb_true_iff in Htail; rewrite Htail; reflexivity.
  - cbn [forallb] in Hws; apply andb_true_iff in Hws; destruct Hws as [Hw Hws].
    rewrite Hw; cbn [flat_map rest].
    replace (length (ws ++ tail) <? length (w :: ws ++ tail)) with true
      by (symmetry; apply Nat.ltb_lt; simpl; lia).
    destruct (IH (w :: b) tail Hws Htail) as [l ->].
    cbn [rev]; rewrite <- !app_assoc; cbn [app]; eauto.
Qed.

(** [\s+] as well, on a run that is not empty. *)
Lemma plus_space_greedy ws b tail :
  ws <> [] -> forallb is_space ws = true -> no_space_ahead tail = true ->
  exists l, rmatch (Plus Space) (Cursor b (ws ++ tail)) = Cursor (rev ws ++ b) tail :: l.
Proof.
  destruct ws as [|w ws]; [congruence|]; intros _ Hws Htail.
  cbn [forallb] in Hws; apply andb_true_iff in Hws; destruct Hws as [Hw Hws].
  change (rmatch (Plus Space) ?k)
    with (flat_map (many (rmatch Space)) (eat is_space k)).
  unfold eat; cbn [rest before app]; rewrite Hw; cbn [flat_map].
  destruct (many_space_greedy ws (w :: b) tail Hws Htail) as [l ->].
  cbn [rev]; rewrite <- !app_assoc; cbn [app]; eauto.
Qed.

(** The rule of the line comment needs a slash. *)
Lemma line_comment_needs_slash c :
  rmatch line_comment c <> [] -> In "/"%char (rest c).
Proof.
  destruct (rmatch line_comment c) as [|c' l] eqn:E; [congruence|intros _].
  assert (Hin : In c' (rmatch line_comment c)) by (rewrite E; left; reflexivity).
  clear E; unfold line_comment in Hin; simpl cat_all in Hin.
  change (rmatch (Cat Bol ?r) c) with (flat_map (rmatch r) (rmatch Bol c)) in Hin.
  apply in_flat_map in Hin; destruct Hin as [c0 [H0 Hin]].
  assert (c0 = c)
    by (simpl in H0; destruct (at_line_start c); simpl in H0;
        [destruct H0 as [<-|[]]; reflexivity|contradiction]).
  subst c0.
  change (rmatch (Cat (Star Dot) ?r) c) with (flat_map (rmatch r) (rmatch (Star Dot) c)) in Hin.
  apply in_flat_map in Hin; destruct Hin as [c1 [H1 Hin]].
  change (rmatch (Cat (Lit "/") ?r) c1) with (flat_map (rmatch r) (rmatch (Lit "/") c1)) in Hin.
  apply in_flat_map in Hin; destruct Hin as [c2 [H2 _]].
  apply rmatch_extends in H1; destruct H1 as [x [Ex _]].
  apply eat_inv in H2; destruct H2 as [s [rst [Es [Hs _]]]].
  apply same_char_slash in Hs; subst s.
  rewrite Ex, Es, in_app_iff; right; left; reflexivity.
Qed.

Definition create_unique_rule : rule := tok (compiled (word_pattern "CREATE UNIQUE")) Keyword.

(** The keyword rules in front of the rule of CREATE UNIQUE. *)
Definition rules_before_create_unique : list rule := firstn 52 keywords_rules.

Lemma keywords_rules_split :
  keywords_rules =
  rules_before_create_unique ++ create_unique_rule :: skipn 53 keywords_rules.
Proof. vm_compute; reflexivity. Qed.

Section CreateUnique.
Variable ws : text.
Hypothesis ws_not_empty : ws <> [].
Hypothesis ws_space : forallb is_space ws = true.

Definition create_unique_text : text := txt "CREATE" ++ ws ++ txt "UNIQUE (n)".

Definition after_create_unique : cursor :=
  Cursor (txt "EUQINU" ++ rev ws ++ txt "ETAERC") (txt " (n)").

Lemma create_unique_no_slash : ~ In "/"%char create_unique_text.
Proof.
  unfold create_unique_text; rewrite !in_app_iff; intros [H|[H|H]].
  - simpl in H; repeat (destruct H as [H|H]; [discriminate H|]); exact H.
  - rewrite forallb_forall in ws_space; specialize (ws_space _ H); discriminate.
  - simpl in H; repeat (destruct H as [H|H]; [discriminate H|]); exact H.
Qed.

Lemma create_unique_rule_matches :
  match_rule create_unique_rule (Cursor [] create_unique_text) =
  Some ([(0, Keyword, txt "CREATE" ++ ws ++ txt "UNIQUE")], after_create_unique).
Proof.
  unfold match_rule, create_unique_rule, tok, re_match; cbn [body].
  assert (Hm : exists l, rmatch (compiled (word_pattern "CREATE UNIQUE"))
                                (Cursor [] create_unique_text) =
                         after_create_unique :: l).
  { let r := eval vm_compute in (compiled (word_pattern "CREATE UNIQUE")) in
    change (compiled (word_pattern "CREATE UNIQUE")) with r.
    unfold create_unique_text; simpl (txt "CREATE" ++ _).
    rewrite !rmatch_cat_lit by reflexivity.
    change (rmatch (Cat (Plus Space) ?r) ?c)
      with (flat_map (rmatch r) (rmatch (Plus Space) c)).
    destruct (plus_space_greedy ws (txt "ETAERC") (txt "UNIQUE (n)")
                ws_not_empty ws_space eq_refl) as [l E].
    simpl (txt _) in E; rewrite E; clear E.
    cbn [flat_map]; rewrite !rmatch_cat_lit by reflexivity.
    cbn [rmatch]; unfold at_word_boundary; cbn [before rest word_at].
    replace (xorb (is_word "E") (is_word " ")) with true by reflexivity.
    cbn [app]; unfold after_create_unique; simpl (txt _).
    eexists; reflexivity. }
  destruct Hm as [l ->]; cbn [hd_error].
  rewrite (span_exact_prefix _ after_create_unique (txt "CREATE" ++ ws ++ txt "UNIQUE")).
  - reflexivity.
  - simpl rest; unfold create_unique_text; rewrite <- !app_assoc; reflexivity.
Qed.

Lemma create_unique_first_step :
  step (start create_unique_text) =
  Yield [(0, Keyword, txt "CREATE" ++ ws ++ txt "UNIQUE")]
        (Lexer after_create_unique [root]).
Proof.
  unfold step, start; cbn [statestack pos tokens]; unfold root_rules.
  rewrite first_match_app.
  replace (first_match strings_rules (Cursor [] create_unique_text)) with
    (@None (rule * list token * cursor)) by (vm_compute; reflexivity).
  rewrite first_match_app.
  replace (first_match comments_rules (Cursor [] create_unique_text)) with
    (@None (rule * list token * cursor)).
  2:{ unfold comments_rules; cbn [first_match].
      unfold match_rule at 1, re_match, tok; cbn [body].
      destruct (rmatch line_comment (Cursor [] create_unique_text)) eqn:E.
      - vm_compute; reflexivity.
      - exfalso; apply create_unique_no_slash.
        apply (line_comment_needs_slash (Cursor [] create_unique_text)).
        rewrite E; discriminate. }
  rewrite keywords_rules_split, first_match_app, first_match_app.
  replace (first_match rules_before_create_unique (Cursor [] create_unique_text)) with
    (@None (rule * list token * cursor)) by (vm_compute; reflexivity).
  cbn [first_match]; rewrite create_unique_rule_matches; reflexivity.
Qed.

Lemma create_unique_rest_of_pass b :
  run 5 (Lexer (Cursor ("E"%char :: b) (txt " (n)")) [root]) =
  ([ Entry [root] [(S (length b), Whitespace, txt " ")] [root];
     Entry [root] [(S (S (length b)), Punctuation, txt "(")] [in_paren; root];
     Entry [in_paren; root] [(S (S (S (length b))), Name_Variable, txt "n")]
           [in_paren; root];
     Entry [in_paren; root] [(S (S (S (S (length b)))), Punctuation, txt ")")] [root] ],
   Finished).
Proof. vm_compute; reflexivity. Qed.
End CreateUnique.

(** C4. For every run [ws] of one or more white-space characters, the pass
    over [CREATE], [ws], [UNIQUE (n)] yields the two words and the run
    between them as one Keyword token, then the white space, the
    parenthesis, the variable and the closing parenthesis; there is no
    Keyword [CREATE] followed by a token for [UNIQUE]. *)
Theorem C4_create_unique_one_keyword :
  forall ws : text,
    ws <> [] -> forallb is_space ws = true ->
    get_tokens_unprocessed (txt "CREATE" ++ ws ++ txt "UNIQUE (n)") =
    ([ (0, Keyword, txt "CREATE" ++ ws ++ txt "UNIQUE");
       (12 + length ws, Whitespace, txt " ");
       (13 + length ws, Punctuation, txt "(");
       (14 + length ws, Name_Variable, txt "n");
       (15 + length ws, Punctuation, txt ")") ], Finished).
Proof.
  intros ws Hne Hws.
  unfold get_tokens_unprocessed, trace.
  fold (create_unique_text ws).
  cbn [run]; rewrite (create_unique_first_step ws Hne Hws).
  set (b := txt "UQINU" ++ rev ws ++ txt "ETAERC").
  assert (Hrun : run (length (create_unique_text ws)) (Lexer (after_create_unique ws) [root])
                 = run 5 (Lexer (Cursor ("E"%char :: b) (txt " (n)")) [root])).
  { apply run_more_fuel.
    - rewrite create_unique_rest_of_pass; discriminate.
    - unfold create_unique_text; rewrite !length_app; simpl; lia. }
  rewrite Hrun, create_unique_rest_of_pass; cbn [fst snd flat_map yielded app statestack].
  assert (Hb : length b = 11 + length ws)
    by (unfold b; rewrite !length_app, length_rev; simpl; lia).
  rewrite Hb; reflexivity.
Qed.

(** The claim's input [CREATE UNIQUE (n)], with one space between the words. *)
Lemma C4_create_unique_one_keyword_witness :
  get_tokens_unprocessed (txt "CREATE UNIQUE (n)") =
  ([ (0, Keyword, txt "CREATE UNIQUE"); (13, Whitespace, txt " ");
     (14, Punctuation, txt "("); (15, Name_Variable, txt "n");
     (16, Punctuation, txt ")") ], Finished).
Proof.
  apply (C4_create_unique_one_keyword (txt " ")); [discriminate|reflexivity].
Defined.

(** * Further properties of the statement splitter *)

(** The chunks joined with semicolons between them. *)
Fixpoint join_semicolon (chunks : list text) : text :=
  match chunks with
  | [] => []
  | [c] => c
  | c :: chunks' => c ++ semicolon :: join_semicolon chunks'
  end.

(** What a chunk yields: its [strip], unless that is empty. *)
Definition statement_of (chunk : text) : list text :=
  match strip chunk with
  | [] => []
  | statement => [statement]
  end.

Lemma flush_statement_of fragments : flush fragments = statement_of (concat fragments).
Proof. reflexivity. Qed.

Lemma is_separator_value tk : is_separator tk = true -> token_value tk = [semicolon].
Proof.
  unfold is_separator; intros H; apply andb_true_iff in H; destruct H as [_ H].
  apply text_eqb_eq in H; exact H.
Qed.

Lemma join_semicolon_cons c chunks :
  chunks <> [] -> join_semicolon (c :: chunks) = c ++ semicolon :: join_semicolon chunks.
Proof. destruct chunks; [congruence|reflexivity]. Qed.

(** The loop of [get_statements] cuts the text of its tokens at the
    separators and yields what the chunks give, in order. *)
Lemma split_statements_chunks toks :
  forall fragments, exists chunks,
    chunks <> [] /\
    join_semicolon chunks = concat fragments ++ values toks /\
    split_statements fragments toks Finished = flat_map statement_of chunks.
Proof.
  induction toks as [|t toks IH]; intros fragments.
  - exists [concat fragments]; split; [discriminate|split].
    + unfold values; simpl; rewrite app_nil_r; reflexivity.
    + simpl; rewrite app_nil_r; apply flush_statement_of.
  - simpl; destruct (is_separator t) eqn:Et.
    + destruct (IH []) as [chunks [Hne [Hj Hs]]].
      exists (concat fragments :: chunks); split; [discriminate|split].
      * rewrite (join_semicolon_cons _ _ Hne), Hj.
        unfold values; simpl; rewrite (is_separator_value _ Et); reflexivity.
      * cbn [flat_map]; rewrite flush_statement_of; f_equal; exact Hs.
    + destruct (IH (fragments ++ [token_value t])) as [chunks [Hne [Hj Hs]]].
      exists chunks; split; [exact Hne|split; [|exact Hs]].
      rewrite Hj, concat_app; unfold values; simpl.
      rewrite app_nil_r, <- app_assoc; reflexivity.
Qed.

Lemma get_statements_chunks (t : text) :
  exists chunks,
    chunks <> [] /\ join_semicolon chunks = t /\
    fst (get_statements t) = flat_map statement_of chunks.
Proof.
  destruct (pass_covers t) as [Hf Hv]; unfold get_statements.
  destruct (get_tokens_unprocessed t) as [toks e]; simpl in *; subst e.
  destruct (split_statements_chunks toks []) as [chunks [Hne [Hj Hs]]].
  exists chunks; split; [exact Hne|split; [|exact Hs]].
  rewrite Hj; simpl; exact Hv.
Qed.

Lemma get_statements_finished (t : text) : snd (get_statements t) = Finished.
Proof.
  destruct (pass_covers t) as [Hf _]; unfold get_statements.
  destruct (get_tokens_unprocessed t) as [toks e]; exact Hf.
Qed.

Lemma strip_infix c : exists a b, c = a ++ strip c ++ b.
Proof.
  destruct (lstrip_suffix c) as [p Hp].
  destruct (lstrip_suffix (rev (lstrip c))) as [q Hq].
  exists p, (rev q); unfold strip.
  rewrite <- rev_app_distr, <- Hq, rev_involutive; exact Hp.
Qed.

Lemma join_semicolon_infix chunks c :
  In c chunks -> exists a b, join_semicolon chunks = a ++ c ++ b.
Proof.
  induction chunks as [|c0 chunks IH]; [intros []|].
  destruct chunks as [|c1 chunks].
  - intros [<-|[]]; exists [], []; simpl; rewrite app_nil_r; reflexivity.
  - rewrite join_semicolon_cons by discriminate.
    intros [<-|Hin].
    + exists [], (semicolon :: join_semicolon (c1 :: chunks)); reflexivity.
    + destruct (IH Hin) as [a [b ->]].
      exists (c0 ++ semicolon :: a), b; rewrite <- app_assoc; reflexivity.
Qed.

Lemma statement_of_In chunk s : In s (statement_of chunk) -> s = strip chunk.
Proof.
  unfold statement_of; destruct (strip chunk); [intros []|].
  intros [<-|[]]; reflexivity.
Qed.

Lemma join_semicolon_single chunks :
  chunks <> [] -> ~ In semicolon (join_semicolon chunks) ->
  chunks = [join_semicolon chunks].
Proof.
  destruct chunks as [|c [|c1 chunks]]; [congruence|reflexivity|].
  intros _ Hno; exfalso; apply Hno.
  rewrite join_semicolon_cons by discriminate.
  rewrite in_app_iff; right; left; reflexivity.
Qed.

Lemma statement_of_length chunk : length (statement_of chunk) <= 1.
Proof. unfold statement_of; destruct (strip chunk); simpl; lia. Qed.

Lemma flat_map_statement_of_length chunks :
  length (flat_map statement_of chunks) <= length chunks.
Proof.
  induction chunks as [|c chunks IH]; simpl; [lia|].
  rewrite length_app; pose proof (statement_of_length c); lia.
Qed.

Lemma join_semicolon_count chunks :
  length chunks <= S (count_occ ascii_dec (join_semicolon chunks) semicolon).
Proof.
  induction chunks as [|c chunks IH]; [simpl; lia|].
  destruct chunks as [|c1 chunks]; [simpl; lia|].
  rewrite join_semicolon_cons by discriminate.
  rewrite count_occ_app, count_occ_cons_eq by reflexivity.
  simpl length in *; lia.
Qed.

(** X1. The statements are the text cut at semicolons: for every text
    there are chunks, at least one, that joined with semicolons are the
    text, and [get_statements] yields, in order, the [strip] of each chunk
    that has one. *)
Theorem X1_statements_are_stripped_chunks :
  forall t : text,
    exists chunks,
      chunks <> [] /\ join_semicolon chunks = t /\
      fst (get_statements t) = flat_map statement_of chunks.
Proof. exact get_statements_chunks. Qed.

(** X2. Every statement that [get_statements] yields is a contiguous part
    of the input text: nothing is invented or rearranged. *)
Theorem X2_statement_is_part_of_text :
  forall (t s : text),
    In s (fst (get_statements t)) -> exists a b, t = a ++ s ++ b.
Proof.
  intros t s Hin.
  destruct (get_statements_chunks t) as [chunks [_ [Hj Hs]]].
  rewrite Hs in Hin; apply in_flat_map in Hin; destruct Hin as [c [Hc Hin]].
  apply statement_of_In in Hin; subst s.
  destruct (join_semicolon_infix _ _ Hc) as [a [b Hab]].
  destruct (strip_infix c) as [a' [b' Hc']].
  exists (a ++ a'), (b' ++ b).
  rewrite <- Hj, Hab, Hc' at 1; rewrite <- !app_assoc; reflexivity.
Qed.

Lemma X2_statement_is_part_of_text_witness :
  exists a b, txt "a; b" = a ++ txt "b" ++ b.
Proof.
  apply (X2_statement_is_part_of_text (txt "a; b") (txt "b")).
  vm_compute; right; left; reflexivity.
Defined.

(** X3. A text without a semicolon is yielded whole: [get_statements]
    yields its [strip] as the only statement, and nothing when the text is
    empty or white space. *)
Theorem X3_no_semicolon_one_statement :
  forall t : text,
    ~ In semicolon t -> get_statements t = (statement_of t, Finished).
Proof.
  intros t Hno.
  destruct (get_statements_chunks t) as [chunks [Hne [Hj Hs]]].
  assert (Hc : chunks = [t]).
  { rewrite <- Hj in Hno; rewrite (join_semicolon_single _ Hne Hno), Hj; reflexivity. }
  subst chunks; cbn [flat_map] in Hs; rewrite app_nil_r in Hs.
  pose proof (get_statements_finished t) as Hf.
  destruct (get_statements t) as [statements e]; cbn [fst snd] in *.
  subst; reflexivity.
Qed.

Lemma X3_no_semicolon_one_statement_witness :
  get_statements (txt "  RETURN 1 ") = ([txt "RETURN 1"], Finished).
Proof.
  apply (X3_no_semicolon_one_statement (txt "  RETURN 1 ")).
  simpl; intuition discriminate.
Defined.

(** X4. [get_statements] yields at most one statement more than the text
    has semicolons. *)
Theorem X4_statements_bounded_by_semicolons :
  forall t : text,
    length (fst (get_statements t)) <= S (count_occ ascii_dec t semicolon).
Proof.
  intros t; destruct (get_statements_chunks t) as [chunks [_ [Hj Hs]]].
  rewrite Hs, <- Hj.
  pose proof (flat_map_statement_of_length chunks).
  pose proof (join_semicolon_count chunks); lia.
Qed.

(** * Further properties of the pass *)

(** A property of the tokens of every iteration holds for all the tokens
    of a pass. *)
Lemma run_tokens (P : token -> Prop) :
  (forall l toks l', good_stack (statestack l) -> step l = Yield toks l' ->
     forall tk, In tk toks -> P tk) ->
  forall fuel l, good_stack (statestack l) ->
    forall tk, In tk (flat_map yielded (fst (run fuel l))) -> P tk.
Proof.
  intros Hstep; induction fuel as [|fuel IH]; intros l Hg tk; simpl; [intros []|].
  pose proof (step_spec l Hg) as Hs.
  destruct (step l) as [toks l1| |toks] eqn:Es; [|intros []|contradiction].
  destruct Hs as [Hg1 _]; specialize (IH l1 Hg1 tk).
  destruct (run fuel l1) as [tr e]; simpl in *.
  rewrite in_app_iff; intros [Hin|Hin]; [exact (Hstep l toks l1 Hg Es tk Hin)|auto].
Qed.

Lemma pass_tokens (P : token -> Prop) :
  (forall l toks l', good_stack (statestack l) -> step l = Yield toks l' ->
     forall tk, In tk toks -> P tk) ->
  forall (t : text) tk, In tk (fst (get_tokens_unprocessed t)) -> P tk.
Proof.
  intros Hstep t tk; unfold get_tokens_unprocessed, trace; cbn [fst].
  apply (run_tokens P Hstep (S (length t)) (start t)); apply good_stack_root.
Qed.

Lemma group_tokens_not_empty ts : forall start ends tk,
  In tk (group_tokens start ts ends) -> token_value tk <> [].
Proof.
  induction ts as [|t ts IH]; intros start [|e ends] tk; simpl; try tauto.
  destruct (span start e) as [|a w] eqn:Es; [apply IH|].
  intros [<-|Hin]; [discriminate|eapply IH; eauto].
Qed.

Lemma group_tokens_types ts : forall start ends tk,
  In tk (group_tokens start ts ends) -> In (token_ttype tk) ts.
Proof.
  induction ts as [|t ts IH]; intros start [|e ends] tk; simpl; try tauto.
  destruct (span start e) as [|a w] eqn:Es; [intros H; right; eapply IH; eauto|].
  intros [<-|Hin]; [left; reflexivity|right; eapply IH; eauto].
Qed.

(** The token types a rule can give. *)
Definition rule_types (r : rule) : list token_type :=
  match body r with
  | Single _ t => [t]
  | ByGroups gs => map snd gs
  end.

Lemma match_rule_types r c toks c' :
  match_rule r c = Some (toks, c') ->
  forall tk, In tk toks -> In (token_ttype tk) (rule_types r).
Proof.
  unfold match_rule, rule_types; destruct (body r) as [re t|gs].
  - destruct (re_match re c); [|discriminate].
    intros [= <- _] tk [<-|[]]; left; reflexivity.
  - destruct (hd_error (match_groups (map fst gs) c)); [|discriminate].
    intros [= <- _] tk; apply group_tokens_types.
Qed.

Lemma match_rule_not_empty r c toks c' :
  rule_nullable r = false -> match_rule r c = Some (toks, c') ->
  forall tk, In tk toks -> token_value tk <> [].
Proof.
  intros Hn Hm; destruct (match_rule_spec _ _ _ _ Hm) as [_ [_ Hlt]].
  specialize (Hlt Hn); revert Hm.
  unfold match_rule; destruct (body r) as [re t|gs].
  - destruct (re_match re c) as [c1|]; [|discriminate].
    intros [= <- <-] tk [<-|[]]; unfold token_value; simpl.
    destruct (rest c) as [|x rst] eqn:E; [simpl in Hlt; lia|].
    rewrite <- E in Hlt.
    destruct (span_head _ _ _ _ E Hlt) as [w ->]; discriminate.
  - destruct (hd_error (match_groups (map fst gs) c)); [|discriminate].
    intros [= <- _] tk; apply group_tokens_not_empty.
Qed.

(** No rule of a state that can be on the stack gives Error or Text. *)
Definition plain_types (r : rule) : bool :=
  forallb (fun t => negb (token_type_eqb t Error) && negb (token_type_eqb t Text))
          (rule_types r).

Lemma tokens_plain_types s :
  is_root s || pushed s = true -> forallb plain_types (tokens s) = true.
Proof. destruct s; try discriminate; intros _; vm_compute; reflexivity. Qed.

(** What one iteration yields: tokens of a rule, none of them empty and none
    of type Error or Text, or the one-character Error token. *)
Lemma step_tokens l toks l' :
  good_stack (statestack l) -> step l = Yield toks l' ->
  forall tk, In tk toks ->
    token_value tk <> [] /\ token_ttype tk <> Text /\
    (token_ttype tk = Error -> length (token_value tk) = 1).
Proof.
  intros Hg; unfold step.
  destruct (good_stack_top _ Hg) as [top [st E]]; rewrite E in *.
  pose proof (good_stack_top_state _ _ Hg) as Htop.
  destruct (first_match (tokens top) (pos l)) as [[[r tks] c']|] eqn:F.
  - apply first_match_In in F; destruct F as [Hr Hm].
    destruct (apply_transitions (new_state r) (top :: st)) as [[|top' st']|];
      try discriminate.
    intros [= <- _] tk Hin.
    pose proof (tokens_ok _ Htop) as Hok; rewrite forallb_forall in Hok.
    specialize (Hok _ Hr); apply andb_true_iff in Hok; destruct Hok as [Hnull _].
    apply negb_true_iff in Hnull.
    pose proof (tokens_plain_types _ Htop) as Hpl; rewrite forallb_forall in Hpl.
    specialize (Hpl _ Hr); unfold plain_types in Hpl; rewrite forallb_forall in Hpl.
    specialize (Hpl _ (match_rule_types _ _ _ _ Hm _ Hin)).
    apply andb_true_iff in Hpl; destruct Hpl as [He Ht].
    split; [exact (match_rule_not_empty _ _ _ _ Hnull Hm _ Hin)|split].
    + intros Ety; rewrite Ety in Ht; discriminate.
    + intros Ety; rewrite Ety in He; discriminate.
  - destruct (rest (pos l)) as [|x rst] eqn:R; [discriminate|].
    destruct (Ascii.eqb x newline) eqn:Ex.
    + apply Ascii.eqb_eq in Ex; subst x; exfalso.
      exact (newline_matched top (pos l) rst Htop R F).
    + intros [= <- _] tk [<-|[]]; simpl.
      split; [discriminate|split; [discriminate|reflexivity]].
Qed.

(** X5. In every state a pass comes to, [root] is at the bottom of the
    stack with only parenthesis, bracket, brace and block-comment states
    above it, and the stack is at most one deeper than the offset: the
    stack never empties, [root] is never pushed, and each level costs a
    character of the text. *)
Theorem X5_stack_invariant :
  forall (t : text) (l : lexer),
    reaches (start t) l ->
    good_stack (statestack l) /\
    length (statestack l) <= S (offset (pos l)).
Proof.
  intros t l Hr.
  assert (Hgen : forall l0, reaches l0 l -> good_stack (statestack l0) ->
                   length (statestack l0) <= S (offset (pos l0)) ->
                   good_stack (statestack l) /\ length (statestack l) <= S (offset (pos l))).
  { clear; induction 1 as [|l0 toks l1 l' Hs _ IH]; intros Hg Hd; [auto|].
    pose proof (step_spec l0 Hg) as Hsp; rewrite Hs in Hsp.
    destruct Hsp as [Hg1 [Hv Hlt]].
    destruct (step_contiguous _ _ _ Hs) as [_ Ho].
    assert (Hval : 1 <= length (values toks)).
    { apply (f_equal (@length ascii)) in Hv; rewrite length_app in Hv; lia. }
    apply IH; [exact Hg1|].
    assert (Hdepth : length (statestack l1) <= S (length (statestack l0))).
    { revert Hs; unfold step.
      destruct (good_stack_top _ Hg) as [top [st E]]; rewrite E in *.
      destruct (first_match (tokens top) (pos l0)) as [[[r tks] c']|] eqn:F.
      - apply first_match_In in F; destruct F as [Hin _].
        pose proof (tokens_ok _ (good_stack_top_state _ _ Hg)) as Hok.
        rewrite forallb_forall in Hok; specialize (Hok _ Hin).
        apply andb_true_iff in Hok; destruct Hok as [_ Hsafe].
        destruct (new_state r) as [|[| |s] [|[| |s'] [|? ?]]]; simpl in Hsafe;
          try discriminate; simpl.
        + intros [= _ <-]; simpl; lia.
        + destruct st as [|top' st']; [discriminate|].
          intros [= _ <-]; simpl; lia.
        + destruct st as [|top' st']; intros [= _ <-]; simpl; lia.
        + rewrite andb_false_r in Hsafe; discriminate.
        + intros [= _ <-]; simpl; lia.
        + intros [= _ <-]; simpl; lia.
      - destruct (rest (pos l0)) as [|x rst]; [discriminate|].
        destruct (Ascii.eqb x newline); intros [= _ <-]; simpl; lia. }
    lia. }
  apply (Hgen (start t) Hr); [apply good_stack_root|simpl; lia].
Qed.

Lemma X5_stack_invariant_witness :
  good_stack [in_paren; root] /\ length [in_paren; root] <= S 1.
Proof.
  apply (X5_stack_invariant (txt "(a)")
           (Lexer (Cursor (txt "(") (txt "a)")) [in_paren; root])).
  eapply reaches_next; [vm_compute; reflexivity|apply reaches_here].
Defined.

(** X6. No token of a pass is empty, for any text. *)
Theorem X6_tokens_not_empty :
  forall (t : text) (tk : token),
    In tk (fst (get_tokens_unprocessed t)) -> token_value tk <> [].
Proof.
  intros t tk; apply (pass_tokens (fun tk => token_value tk <> [])).
  intros l toks l' Hg Hs tk' Hin; exact (proj1 (step_tokens l toks l' Hg Hs tk' Hin)).
Qed.

Lemma X6_tokens_not_empty_witness : txt ":" <> [].
Proof.
  apply (X6_tokens_not_empty (txt ":a") (0, Punctuation, txt ":")).
  vm_compute; left; reflexivity.
Defined.

(** X7. An Error token of a pass is always one character long, and no
    token of a pass has the type Text: the reset of the inherited driver at
    an unmatched newline is never taken, since every state of this lexer
    matches the newline. *)
Theorem X7_error_tokens_are_single_characters :
  forall (t : text) (tk : token),
    In tk (fst (get_tokens_unprocessed t)) ->
    token_ttype tk <> Text /\
    (token_ttype tk = Error -> length (token_value tk) = 1).
Proof.
  intros t tk;
    apply (pass_tokens (fun tk => token_ttype tk <> Text /\
                                  (token_ttype tk = Error -> length (token_value tk) = 1))).
  intros l toks l' Hg Hs tk' Hin; exact (proj2 (step_tokens l toks l' Hg Hs tk' Hin)).
Qed.

Lemma X7_error_tokens_are_single_characters_witness :
  Error <> Text /\ (Error = Error -> length (txt "?") = 1).
Proof.
  apply (X7_error_tokens_are_single_characters (txt "a?") (1, Error, txt "?")).
  vm_compute; right; left; reflexivity.
Defined.

(** * Further properties of the states *)

Lemma match_rule_single re t c toks c' :
  match_rule (tok re t) c = Some (toks, c') -> toks = [(offset c, t, span c c')].
Proof.
  unfold match_rule, tok; cbn [body].
  destruct (re_match re c); [|discriminate]; intros [= <- <-]; reflexivity.
Qed.

Lemma match_rule_single_to re t n c toks c' :
  match_rule (tok_to re t n) c = Some (toks, c') -> toks = [(offset c, t, span c c')].
Proof.
  unfold match_rule, tok_to; cbn [body].
  destruct (re_match re c); [|discriminate]; intros [= <- <-]; reflexivity.
Qed.

Lemma eat_hit p c x rst :
  rest c = x :: rst -> p x = true -> eat p c = [Cursor (x :: before c) rst].
Proof. intros E Hp; unfold eat; rewrite E, Hp; reflexivity. Qed.

(** X8. Inside a block comment everything is comment: in the state
    'multiline-comments', as long as text is left, an iteration yields
    exactly one token, of type Comment.Multiline and not empty; no
    character is an Error there. *)
Theorem X8_block_comment_is_opaque :
  forall (l : lexer) (st : list state),
    good_stack (statestack l) ->
    statestack l = multiline_comments :: st ->
    rest (pos l) <> [] ->
    exists v l', v <> [] /\
      step l = Yield [(offset (pos l), Comment_Multiline, v)] l'.
Proof.
  intros l st Hg Est Hrest.
  pose proof (step_spec l Hg) as Hs.
  pose proof (step_tokens l) as Ht.
  unfold step in *; rewrite Est in *.
  destruct (first_match (tokens multiline_comments) (pos l)) as [[[r toks] c']|] eqn:F.
  - destruct (first_match_In _ _ _ _ _ F) as [Hr Hm].
    destruct (apply_transitions (new_state r) (multiline_comments :: st))
      as [[|top' st']|]; try contradiction.
    assert (Htoks : toks = [(offset (pos l), Comment_Multiline, span (pos l) c')]).
    { destruct Hr as [<-|[<-|[<-|[<-|[]]]]];
        first [exact (match_rule_single _ _ _ _ _ Hm)
              |exact (match_rule_single_to _ _ _ _ _ _ Hm)]. }
    subst toks; do 2 eexists; split; [|reflexivity].
    exact (proj1 (Ht _ _ Hg eq_refl _ (or_introl eq_refl))).
  - exfalso; destruct (rest (pos l)) as [|x rst] eqn:R; [congruence|].
    pose proof (first_match_None _ _ F) as Hall.
    destruct (in_set [One "/"; One "*"] x) eqn:Ex.
    + assert (Hm : match_rule (tok (OneOf [One "/"; One "*"]) Comment_Multiline) (pos l)
                   = None) by (apply Hall; simpl; auto).
      unfold match_rule, tok, re_match in Hm; cbn [body rmatch] in Hm.
      rewrite (eat_hit _ _ _ _ R Ex) in Hm; discriminate.
    + apply (plus_eat_matches (NoneOf [One "/"; One "*"]) _ Comment_Multiline
               (pos l) x rst (fun k => eq_refl) R); [rewrite Ex; reflexivity|].
      apply Hall; simpl; auto.
Qed.

Lemma X8_block_comment_is_opaque_witness :
  exists v l', v <> [] /\
    step (Lexer (Cursor (txt "*/") (txt ";*/")) [multiline_comments; root]) =
    Yield [(2, Comment_Multiline, v)] l'.
Proof.
  apply (X8_block_comment_is_opaque
           (Lexer (Cursor (txt "*/") (txt ";*/")) [multiline_comments; root]) [root]).
  - exists [multiline_comments]; split; reflexivity.
  - reflexivity.
  - discriminate.
Defined.

(** ** Iterations decided by the first character *)

(** The rules of a state that includes 'comments', after the line-comment
    rule. *)
Definition after_line_comment (top : state) : list rule := skipn 3 (tokens top).

Lemma tokens_after_line_comment top :
  In top [root; in_paren; in_bracket; in_brace] ->
  tokens top = strings_rules ++ tok line_comment Comment_Single :: after_line_comment top.
Proof. intros [<-|[<-|[<-|[<-|[]]]]]; reflexivity. Qed.

(** What a match gives, without the values of its tokens: the transition,
    the token types and the end. *)
Definition outline (rules : list rule) (c : cursor)
  : option (list transition * list token_type * cursor) :=
  match first_match rules c with
  | Some (r, toks, c') => Some (new_state r, map token_ttype toks, c')
  | None => None
  end.

Lemma outline_single rules c n ty c' :
  outline rules c = Some (n, [ty], c') ->
  exists r, new_state r = n /\
    first_match rules c = Some (r, [(offset c, ty, span c c')], c').
Proof.
  unfold outline; destruct (first_match rules c) as [[[r toks] c1]|] eqn:F; [|discriminate].
  intros [= Hn Hty <-]; exists r; split; [exact Hn|].
  destruct (first_match_In _ _ _ _ _ F) as [_ Hm].
  destruct (match_rule_spec _ _ _ _ Hm) as [_ [Hv _]].
  destruct (match_rule_contiguous _ _ _ _ Hm) as [Hc _].
  destruct toks as [|[[i t] v] [|? ?]]; try discriminate.
  injection Hty as <-; simpl in Hc; destruct Hc as [<- _].
  unfold values in Hv; simpl in Hv; rewrite app_nil_r in Hv; subst v; reflexivity.
Qed.

Lemma outline_none rules c : outline rules c = None -> first_match rules c = None.
Proof.
  unfold outline; destruct (first_match rules c) as [[[r toks] c1]|]; [discriminate|auto].
Qed.

Lemma first_match_after_line_comment top c :
  In top [root; in_paren; in_bracket; in_brace] ->
  first_match strings_rules c = None -> re_match line_comment c = None ->
  first_match (tokens top) c = first_match (after_line_comment top) c.
Proof.
  intros Htop Hs Hc; rewrite (tokens_after_line_comment top Htop), first_match_app, Hs.
  cbn [first_match]; unfold match_rule at 1, tok; cbn [body]; rewrite Hc; reflexivity.
Qed.

(** The closing character that does not close the state. *)
Definition stray_closer (top : state) (x : ascii) : bool :=
  match top with
  | root => existsb (Ascii.eqb x) (txt ")]}")
  | in_paren => existsb (Ascii.eqb x) (txt "]}")
  | in_bracket => existsb (Ascii.eqb x) (txt ")}")
  | in_brace => existsb (Ascii.eqb x) (txt ")]")
  | _ => false
  end.

(** The state an opening character pushes. *)
Definition opened_by (x : ascii) : option state :=
  if Ascii.eqb x "(" then Some in_paren
  else if Ascii.eqb x "[" then Some in_bracket
  else if Ascii.eqb x "{" then Some in_brace
  else None.

Lemma in_existsb_eqb x (l : text) : existsb (Ascii.eqb x) l = true -> In x l.
Proof.
  rewrite existsb_exists; intros [y [Hy E]]; apply Ascii.eqb_eq in E; subst; exact Hy.
Qed.

Ltac each_state Htop :=
  destruct Htop as [<-|[<-|[<-|[<-|[]]]]].

Ltac each_char H :=
  simpl in H; repeat (destruct H as [<-|H]; [|]); try contradiction.

(** [groups_may_start gs x]: a match of [(g1)(g2)...] that consumes text may
    begin with [x]. *)
Fixpoint groups_may_start (gs : list regex) (x : ascii) : bool :=
  match gs with
  | [] => false
  | g :: gs' => may_start g x || (nullable g && groups_may_start gs' x)
  end.

Lemma groups_may_start_sound gs : forall c ends,
  In ends (match_groups gs c) ->
  length (rest (last ends c)) < length (rest c) ->
  exists x rst, rest c = x :: rst /\ groups_may_start gs x = true.
Proof.
  induction gs as [|g gs IH]; intros c ends; simpl.
  - intros [<-|[]]; simpl; lia.
  - rewrite in_flat_map; intros [c1 [H1 H2]].
    apply in_map_iff in H2; destruct H2 as [ends' [<- H2]].
    rewrite last_cons; intros Hlt.
    destruct (Nat.lt_ge_cases (length (rest c1)) (length (rest c))) as [Hl|Hl].
    + destruct (may_start_sound _ _ _ H1 Hl) as [x [rst [E M]]].
      exists x, rst; rewrite M; auto.
    + assert (c1 = c)
        by (apply extends_no_progress; [eapply rmatch_extends; eauto|lia]).
      subst c1; destruct (IH _ _ H2 Hlt) as [x [rst [E M]]].
      exists x, rst; rewrite M; split; [exact E|].
      destruct (nullable g) eqn:N; [apply orb_true_r|].
      pose proof (rmatch_shorter _ N _ _ H1); lia.
Qed.

Definition rule_may_start (r : rule) (x : ascii) : bool :=
  match body r with
  | Single re _ => may_start re x
  | ByGroups gs => groups_may_start (map fst gs) x
  end.

(** [dead r x]: the rule matches no text that begins with [x]. *)
Definition dead (r : rule) (x : ascii) : bool :=
  negb (rule_nullable r) && negb (rule_may_start r x).

Lemma dead_no_match r c x rst :
  dead r x = true -> rest c = x :: rst -> match_rule r c = None.
Proof.
  unfold dead; intros Hd E; apply andb_true_iff in Hd; destruct Hd as [Hn Hs].
  apply negb_true_iff in Hn; apply negb_true_iff in Hs.
  destruct (match_rule r c) as [[toks c']|] eqn:Hm; [exfalso|reflexivity].
  destruct (match_rule_spec _ _ _ _ Hm) as [_ [_ Hlt]]; specialize (Hlt Hn).
  revert Hm Hs; unfold match_rule, rule_may_start; destruct (body r) as [re t|gs].
  - unfold re_match; destruct (hd_error (rmatch re c)) as [c1|] eqn:H1; [|discriminate].
    intros [= _ <-] Hs; apply hd_error_In in H1.
    destruct (may_start_sound _ _ _ H1 Hlt) as [y [rst' [E' M]]].
    rewrite E in E'; injection E' as <- _; congruence.
  - destruct (hd_error (match_groups (map fst gs) c)) as [ends|] eqn:H1; [|discriminate].
    intros [= _ <-] Hs; apply hd_error_In in H1.
    destruct (groups_may_start_sound _ _ _ H1 Hlt) as [y [rst' [E' M]]].
    rewrite E in E'; injection E' as <- _; congruence.
Qed.

(** The rules from the first one that can begin with [x]. *)
Fixpoint drop_dead (x : ascii) (rules : list rule) : list rule :=
  match rules with
  | [] => []
  | r :: rules' => if dead r x then drop_dead x rules' else rules
  end.

Lemma first_match_drop_dead rules c x rst :
  rest c = x :: rst -> first_match rules c = first_match (drop_dead x rules) c.
Proof.
  intros E; induction rules as [|r rules IH]; [reflexivity|].
  simpl; destruct (dead r x) eqn:D; [|reflexivity].
  rewrite (dead_no_match _ _ _ _ D E); exact IH.
Qed.

(** No rule of the state, the line-comment rule apart, can begin with [x]. *)
Definition no_rule_begins (top : state) (x : ascii) : bool :=
  forallb (fun r => dead r x) (strings_rules ++ after_line_comment top).

Lemma drop_dead_all x rules :
  forallb (fun r => dead r x) rules = true -> drop_dead x rules = [].
Proof.
  induction rules as [|r rules IH]; simpl; [reflexivity|].
  intros H; apply andb_true_iff in H; destruct H as [-> H]; auto.
Qed.

Lemma error_step l top st x rst :
  statestack l = top :: st ->
  In top [root; in_paren; in_bracket; in_brace] ->
  rest (pos l) = x :: rst ->
  re_match line_comment (pos l) = None ->
  no_rule_begins top x = true ->
  step l = Yield [(offset (pos l), Error, [x])]
                 (Lexer (Cursor (x :: before (pos l)) rst) (statestack l)).
Proof.
  intros Est Htop E Hc Hno; unfold no_rule_begins in Hno.
  rewrite forallb_app in Hno; apply andb_true_iff in Hno; destruct Hno as [Hs Ha].
  assert (Hnone : first_match (tokens top) (pos l) = None).
  { rewrite (first_match_after_line_comment top (pos l) Htop); [| |exact Hc].
    - rewrite (first_match_drop_dead _ _ _ _ E), (drop_dead_all _ _ Ha); reflexivity.
    - rewrite (first_match_drop_dead _ _ _ _ E), (drop_dead_all _ _ Hs); reflexivity. }
  unfold step; rewrite Est, Hnone, E.
  destruct (Ascii.eqb x newline) eqn:Ex; [|rewrite <- Est; reflexivity].
  apply Ascii.eqb_eq in Ex; subst x; exfalso.
  assert (Hw : In (tok (Plus Space) Whitespace) (tokens top))
    by (each_state Htop; apply whitespace_in_rules; try reflexivity; discriminate).
  apply (plus_eat_matches Space _ Whitespace (pos l) newline rst (fun k => eq_refl) E eq_refl).
  exact (first_match_None _ _ Hnone _ Hw).
Qed.

(** X9. A semicolon met in a parenthesis, bracket or brace state, and a
    closing parenthesis, bracket or brace that does not close the current
    state (any of the three in [root]), is an Error token and changes no
    state, where the line-comment rule does not match: in particular
    [root] is never popped. *)
Theorem X9_semicolon_and_stray_closers_are_errors :
  forall (l : lexer) (top : state) (st : list state) (x : ascii) (rst : text),
    statestack l = top :: st ->
    In top [root; in_paren; in_bracket; in_brace] ->
    rest (pos l) = x :: rst ->
    re_match line_comment (pos l) = None ->
    (x = semicolon /\ top <> root) \/ stray_closer top x = true ->
    step l = Yield [(offset (pos l), Error, [x])]
                   (Lexer (Cursor (x :: before (pos l)) rst) (statestack l)).
Proof.
  intros l top st x rst Est Htop E Hc Hx.
  apply (error_step l top st x rst Est Htop E Hc).
  destruct Hx as [[-> Hne]|Hx].
  - each_state Htop; try congruence; vm_compute; reflexivity.
  - each_state Htop; cbv [stray_closer] in Hx; apply in_existsb_eqb in Hx; simpl in Hx;
      repeat (destruct Hx as [<-|Hx]; [vm_compute; reflexivity|]); contradiction.
Qed.

Lemma X9_semicolon_and_stray_closers_are_errors_witness :
  step (Lexer (Cursor (txt "a(") (txt ";b)")) [in_paren; root]) =
  Yield [(2, Error, txt ";")] (Lexer (Cursor (txt ";a(") (txt "b)")) [in_paren; root]).
Proof.
  apply (X9_semicolon_and_stray_closers_are_errors
           (Lexer (Cursor (txt "a(") (txt ";b)")) [in_paren; root])
           in_paren [root] semicolon (txt "b)")); try reflexivity.
  - right; left; reflexivity.
  - left; split; [reflexivity|discriminate].
Defined.

(** ** Brackets *)

(** ASCII punctuation: below U+0080 and neither a letter nor a digit. *)
Definition ascii_punct (x : ascii) : bool :=
  (code x <? 128) && negb (is_alnum x).

Lemma lower_punct y : ascii_punct (lower y) = true -> lower y = y.
Proof. destruct y as [[] [] [] [] [] [] [] []]; vm_compute; congruence. Qed.

Lemma punct_lower x : ascii_punct x = true -> lower x = x.
Proof. destruct x as [[] [] [] [] [] [] [] []]; vm_compute; congruence. Qed.

(** Case folding does not touch punctuation. *)
Lemma same_char_punct x y : ascii_punct x = true -> same_char x y = Ascii.eqb x y.
Proof.
  intros Hx; unfold same_char; rewrite (punct_lower x Hx).
  destruct (Ascii.eqb x (lower y)) eqn:E.
  - apply Ascii.eqb_eq in E; subst x; rewrite (lower_punct y Hx).
    symmetry; apply Ascii.eqb_refl.
  - destruct (Ascii.eqb x y) eqn:E'; [|reflexivity].
    apply Ascii.eqb_eq in E'; subst y; rewrite (punct_lower x Hx), Ascii.eqb_refl in E.
    discriminate.
Qed.

Lemma same_char_refl x : same_char x x = true.
Proof. apply Ascii.eqb_refl. Qed.

Lemma match_rule_lit a t n c x rst :
  rest c = x :: rst -> same_char a x = true ->
  match_rule (Rule (Single (Lit a) t) n) c =
  Some ([(offset c, t, [x])], Cursor (x :: before c) rst).
Proof.
  intros E Hx; unfold match_rule, re_match; cbn [body rmatch].
  rewrite (eat_hit _ _ _ _ E Hx); cbn [hd_error].
  rewrite (span_exact_prefix c (Cursor (x :: before c) rst) [x]); [reflexivity|].
  rewrite E; reflexivity.
Qed.

(** [blocked r rst]: [r] matches nothing at the text [rst]. *)
Definition blocked (r : regex) (rst : text) : bool :=
  negb (nullable r) &&
  match rst with
  | [] => true
  | y :: _ => negb (may_start r y)
  end.

Lemma blocked_no_match r b rst : blocked r rst = true -> rmatch r (Cursor b rst) = [].
Proof.
  unfold blocked; intros H; apply andb_true_iff in H; destruct H as [Hn Hs].
  apply negb_true_iff in Hn.
  destruct (rmatch r (Cursor b rst)) as [|c1 l] eqn:E; [reflexivity|exfalso].
  assert (Hin : In c1 (rmatch r (Cursor b rst))) by (rewrite E; left; reflexivity).
  pose proof (rmatch_shorter _ Hn _ _ Hin) as Hlt.
  destruct (may_start_sound _ _ _ Hin Hlt) as [y [rst' [E' M]]].
  simpl in E'; subst rst; rewrite M in Hs; discriminate.
Qed.


Lemma strings_dead_step top c x rst :
  In top [root; in_paren; in_bracket; in_brace] ->
  rest c = x :: rst -> re_match line_comment c = None ->
  forallb (fun r => dead r x) strings_rules = true ->
  first_match (tokens top) c = first_match (drop_dead x (after_line_comment top)) c.
Proof.
  intros Htop E Hc Hs.
  rewrite (first_match_after_line_comment top c Htop); [| |exact Hc].
  - apply (first_match_drop_dead _ _ _ _ E).
  - rewrite (first_match_drop_dead _ _ _ _ E), (drop_dead_all _ _ Hs); reflexivity.
Qed.

(** X10. An opening parenthesis, bracket or brace met in [root] or in a
    parenthesis, bracket or brace state, where the line-comment rule does
    not match, is a Punctuation token of its own and pushes its state on
    the stack, whatever the state was: the three kinds nest in one another
    and in themselves. *)
Theorem X10_opening_bracket_pushes :
  forall (l : lexer) (top : state) (st : list state) (x : ascii) (s : state)
         (rst : text),
    statestack l = top :: st ->
    In top [root; in_paren; in_bracket; in_brace] ->
    rest (pos l) = x :: rst ->
    re_match line_comment (pos l) = None ->
    opened_by x = Some s ->
    step l = Yield [(offset (pos l), Punctuation, [x])]
                   (Lexer (Cursor (x :: before (pos l)) rst) (s :: top :: st)).
Proof.
  intros l top st x s rst Est Htop E Hc Hx.
  assert (Hcases : (x = "("%char /\ s = in_paren) \/ (x = "["%char /\ s = in_bracket)
                   \/ (x = "{"%char /\ s = in_brace)).
  { unfold opened_by in Hx.
    destruct (Ascii.eqb x "(") eqn:E1; [apply Ascii.eqb_eq in E1; injection Hx as <-; auto|].
    destruct (Ascii.eqb x "[") eqn:E2; [apply Ascii.eqb_eq in E2; injection Hx as <-; auto|].
    destruct (Ascii.eqb x "{") eqn:E3; [apply Ascii.eqb_eq in E3; injection Hx as <-; auto|].
    discriminate. }
  unfold step; rewrite Est.
  assert (Hm : exists n rs,
             drop_dead x (after_line_comment top) = Rule (Single (Lit x) Punctuation) n :: rs /\
             apply_transitions n (top :: st) = Some (s :: top :: st) /\
             forallb (fun r => dead r x) strings_rules = true).
  { destruct Hcases as [[-> ->]|[[-> ->]|[-> ->]]]; each_state Htop;
      do 2 eexists; (split; [vm_compute; reflexivity|split; reflexivity]). }
  destruct Hm as [n [rs [Hd [Ha Hs]]]].
  rewrite (strings_dead_step top (pos l) x rst Htop E Hc Hs), Hd.
  cbn [first_match]; rewrite (match_rule_lit x Punctuation n (pos l) x rst E (same_char_refl x)).
  cbn [new_state]; rewrite Ha; reflexivity.
Qed.

Lemma X10_opening_bracket_pushes_witness :
  step (Lexer (Cursor (txt "[") (txt "(a)]")) [in_bracket; root]) =
  Yield [(1, Punctuation, txt "(")]
        (Lexer (Cursor (txt "([") (txt "a)]")) [in_paren; in_bracket; root]).
Proof.
  apply (X10_opening_bracket_pushes
           (Lexer (Cursor (txt "[") (txt "(a)]")) [in_bracket; root])
           in_bracket [root] "("%char in_paren (txt "a)]")); try reflexivity.
  right; right; left; reflexivity.
Defined.






(** ** Block comments and strings *)

Lemma match_rule_lit2 a1 a2 t n c x1 x2 rst :
  rest c = x1 :: x2 :: rst -> same_char a1 x1 = true -> same_char a2 x2 = true ->
  match_rule (Rule (Single (Cat (Lit a1) (Lit a2)) t) n) c =
  Some ([(offset c, t, [x1; x2])], Cursor (x2 :: x1 :: before c) rst).
Proof.
  intros E H1 H2; unfold match_rule, re_match; cbn [body rmatch].
  rewrite (eat_hit _ _ _ _ E H1); cbn [flat_map].
  rewrite (eat_hit _ (Cursor (x1 :: before c) (x2 :: rst)) x2 rst eq_refl H2).
  cbn [app hd_error before].
  rewrite (span_exact_prefix c (Cursor (x2 :: x1 :: before c) rst) [x1; x2]);
    [reflexivity|rewrite E; reflexivity].
Qed.

Lemma strings_dead_first_match c x rst :
  rest c = x :: rst -> forallb (fun r => dead r x) strings_rules = true ->
  first_match strings_rules c = None.
Proof.
  intros E Hs; rewrite (first_match_drop_dead _ _ _ _ E), (drop_dead_all _ _ Hs).
  reflexivity.
Qed.

(** X12. Block comments nest.  In [root], in a parenthesis, bracket or
    brace state (where the line-comment rule does not match) and inside a
    block comment, the two characters that open a block comment are one
    Comment.Multiline token and push 'multiline-comments'; inside a block
    comment the two characters that close one are a Comment.Multiline
    token and pop it, so the state from before the comment, or the outer
    comment, comes back. *)
Theorem X12_block_comments_nest :
  (forall (l : lexer) (top : state) (st : list state) (rst : text),
     statestack l = top :: st ->
     top = multiline_comments \/
     (In top [root; in_paren; in_bracket; in_brace] /\
      re_match line_comment (pos l) = None) ->
     rest (pos l) = txt "/*" ++ rst ->
     step l = Yield [(offset (pos l), Comment_Multiline, txt "/*")]
                    (Lexer (Cursor (txt "*/" ++ before (pos l)) rst)
                           (multiline_comments :: top :: st))) /\
  (forall (l : lexer) (below : state) (st : list state) (rst : text),
     statestack l = multiline_comments :: below :: st ->
     rest (pos l) = txt "*/" ++ rst ->
     step l = Yield [(offset (pos l), Comment_Multiline, txt "*/")]
                    (Lexer (Cursor (txt "/*" ++ before (pos l)) rst) (below :: st))).
Proof.
  split.
  - intros l top st rst Est Htop E; unfold step; rewrite Est.
    assert (Hm : match_rule (tok_to (lits "/*") Comment_Multiline [Push multiline_comments])
                            (pos l) =
                 Some ([(offset (pos l), Comment_Multiline, txt "/*")],
                       Cursor (txt "*/" ++ before (pos l)) rst))
      by (apply (match_rule_lit2 "/" "*" _ _ (pos l) "/" "*" rst E); reflexivity).
    destruct Htop as [->|[Htop Hc]].
    + cbn [tokens multiline_comments_rules first_match]; rewrite Hm; reflexivity.
    + rewrite (first_match_after_line_comment top (pos l) Htop); [| |exact Hc].
      * assert (Ha : exists rs, after_line_comment top =
                       tok_to (lits "/*") Comment_Multiline [Push multiline_comments] :: rs)
          by (each_state Htop; eexists; reflexivity).
        destruct Ha as [rs ->]; cbn [first_match]; rewrite Hm; reflexivity.
      * apply (strings_dead_first_match (pos l) "/" (txt "*" ++ rst) E).
        vm_compute; reflexivity.
  - intros l below st rst Est E; unfold step; rewrite Est.
    cbn [tokens multiline_comments_rules first_match].
    assert (Hopen : match_rule (tok_to (lits "/*") Comment_Multiline
                                       [Push multiline_comments]) (pos l) = None).
    { unfold match_rule, re_match, tok_to; cbn [body lits cat_all map txt
                                                  list_ascii_of_string rmatch].
      unfold eat; rewrite E; reflexivity. }
    assert (Hclose : match_rule (tok_to (lits "*/") Comment_Multiline [Pop]) (pos l) =
                     Some ([(offset (pos l), Comment_Multiline, txt "*/")],
                           Cursor (txt "/*" ++ before (pos l)) rst))
      by (apply (match_rule_lit2 "*" "/" _ _ (pos l) "*" "/" rst E); reflexivity).
    rewrite Hopen, Hclose; reflexivity.
Qed.

Lemma X12_block_comments_nest_witness :
  step (Lexer (Cursor (txt " a") (txt "/* b */")) [in_paren; root]) =
  Yield [(2, Comment_Multiline, txt "/*")]
        (Lexer (Cursor (txt "*/ a") (txt " b */")) [multiline_comments; in_paren; root]).
Proof.
  apply (proj1 X12_block_comments_nest
           (Lexer (Cursor (txt " a") (txt "/* b */")) [in_paren; root])
           in_paren [root] (txt " b */")); try reflexivity.
  right; split; [right; left; reflexivity|reflexivity].
Defined.

(** A repetition first runs over a whole stretch of text of which each
    character is taken by one step, when no step is possible after it. *)
Lemma many_run (f : cursor -> list cursor) (p : ascii -> bool) :
  (forall b x r, p x = true -> f (Cursor b (x :: r)) = [Cursor (x :: b) r]) ->
  forall body b tail,
    forallb p body = true -> (forall b', f (Cursor b' tail) = []) ->
    exists others,
      many f (Cursor b (body ++ tail)) = Cursor (rev body ++ b) tail :: others.
Proof.
  intros Hf body; induction body as [|x body IH]; intros b tail Hp Ht;
    rewrite many_unfold; cbn [app].
  - rewrite Ht; exists []; reflexivity.
  - cbn [forallb] in Hp; apply andb_true_iff in Hp; destruct Hp as [Hx Hp].
    rewrite (Hf b x (body ++ tail) Hx); cbn [flat_map rest].
    replace (length (body ++ tail) <? length (x :: body ++ tail)) with true
      by (symmetry; apply Nat.ltb_lt; simpl; lia).
    destruct (IH (x :: b) tail Hp Ht) as [others ->].
    cbn [rev]; rewrite <- !app_assoc; cbn [app]; eauto.
Qed.

(** The alternatives of a string literal, between the quotes. *)
Definition string_char (q : ascii) : regex :=
  Or (Cat (Lit backslash)
          (OneOf [One "b"; One "f"; One "n"; One "r"; One "t";
                  One dquote; One "'"; One backslash]))
     (Or (cat_all [Lit backslash; Lit "u"; Times 4 hexdigit])
     (Or (cat_all [Lit backslash; Lit "U"; Times 8 hexdigit])
         (NoneOf [One backslash; One q]))).

Lemma string_literal_unfold q b x rst :
  same_char q x = true ->
  rmatch (string_literal q) (Cursor b (x :: rst)) =
  flat_map (rmatch (Lit q)) (many (rmatch (string_char q)) (Cursor (x :: b) rst)).
Proof.
  intros Hq; unfold string_literal; cbn [cat_all].
  rewrite (rmatch_cat_lit q _ b x rst Hq); reflexivity.
Qed.

Lemma string_char_plain q b x rst :
  x <> backslash -> same_char q x = false ->
  rmatch (string_char q) (Cursor b (x :: rst)) = [Cursor (x :: b) rst].
Proof.
  intros Hx Hq.
  assert (Hb : same_char backslash x = false).
  { rewrite same_char_punct by reflexivity; apply Ascii.eqb_neq; congruence. }
  unfold string_char; cbn [cat_all rmatch]; unfold eat; cbn [rest before in_set existsb item_has].
  rewrite Hb, Hq; reflexivity.
Qed.

Lemma string_char_stop q b x rst :
  ascii_punct q = true -> q <> backslash -> x = q ->
  rmatch (string_char q) (Cursor b (x :: rst)) = [].
Proof.
  intros Hp Hq ->.
  assert (Hb : same_char backslash q = false).
  { rewrite same_char_punct by reflexivity; apply Ascii.eqb_neq; congruence. }
  unfold string_char; cbn [cat_all rmatch]; unfold eat; cbn [rest before in_set existsb item_has].
  rewrite Hb, same_char_refl; reflexivity.
Qed.

Lemma string_literal_matches q b body more :
  In q ["'"%char; dquote] -> ~ In backslash body -> ~ In q body ->
  exists others,
    rmatch (string_literal q) (Cursor b (q :: body ++ q :: more)) =
    Cursor (q :: rev body ++ q :: b) more :: others.
Proof.
  intros Hq Hb Hnq.
  assert (Hp : ascii_punct q = true /\ q <> backslash)
    by (destruct Hq as [<-|[<-|[]]]; split; try reflexivity; discriminate).
  destruct Hp as [Hp Hne].
  rewrite (string_literal_unfold q b q _ (same_char_refl q)).
  destruct (many_run (rmatch (string_char q))
              (fun x => negb (Ascii.eqb x backslash) && negb (same_char q x))
              ltac:(intros b0 x r H; apply andb_true_iff in H; destruct H as [H1 H2];
                    apply negb_true_iff in H1, H2; apply Ascii.eqb_neq in H1;
                    apply string_char_plain; assumption)
              body (q :: b) (q :: more)) as [others ->].
  - apply forallb_forall; intros x Hx; apply andb_true_iff; split; apply negb_true_iff.
    + apply Ascii.eqb_neq; intros ->; contradiction.
    + rewrite same_char_punct by exact Hp; apply Ascii.eqb_neq; intros ->; contradiction.
  - intros b'; apply string_char_stop; auto.
  - cbn [flat_map rmatch]; unfold eat; cbn [rest before].
    rewrite same_char_refl; cbn [app]; eauto.
Qed.

(** X13. A quoted string is one token, whatever is between the quotes:
    in [root] and in a parenthesis, bracket or brace state, when the text
    at the offset is a single or double quote, then any text without a
    backslash and without that quote, then the quote again, the
    iteration yields all of it as one String token and leaves the stack
    as it is.  Semicolons, slashes, brackets, newlines and the other
    quote in the string are not looked at. *)
Theorem X13_quoted_string_is_one_token :
  forall (l : lexer) (top : state) (st : list state) (q : ascii) (inner more : text),
    statestack l = top :: st ->
    In top [root; in_paren; in_bracket; in_brace] ->
    In q ["'"%char; dquote] ->
    ~ In backslash inner -> ~ In q inner ->
    rest (pos l) = q :: inner ++ q :: more ->
    step l = Yield [(offset (pos l), String_, q :: inner ++ [q])]
                   (Lexer (Cursor (q :: rev inner ++ q :: before (pos l)) more)
                          (statestack l)).
Proof.
  intros l top st q inner more Est Htop Hq Hb Hnq E.
  destruct (string_literal_matches q (before (pos l)) inner more Hq Hb Hnq) as [others Hm].
  assert (Hrule : match_rule (tok (string_literal q) String_) (pos l) =
                  Some ([(offset (pos l), String_, q :: inner ++ [q])],
                        Cursor (q :: rev inner ++ q :: before (pos l)) more)).
  { unfold match_rule, re_match, tok; cbn [body].
    replace (pos l) with (Cursor (before (pos l)) (q :: inner ++ q :: more)) at 1
      by (rewrite <- E; destruct (pos l); reflexivity).
    rewrite Hm; cbn [hd_error].
    rewrite (span_exact_prefix (pos l) _ (q :: inner ++ [q])); [reflexivity|].
    rewrite E; cbn [rest app]; rewrite <- app_assoc; reflexivity. }
  assert (Hfirst : exists r, new_state r = [] /\
            first_match strings_rules (pos l) =
            Some (r, [(offset (pos l), String_, q :: inner ++ [q])],
                  Cursor (q :: rev inner ++ q :: before (pos l)) more)).
  { unfold strings_rules; cbn [first_match].
    destruct Hq as [<-|[<-|[]]].
    - rewrite Hrule; eexists; split; [|reflexivity]; reflexivity.
    - assert (Hsingle : match_rule (tok (string_literal "'") String_) (pos l) = None).
      { unfold match_rule, re_match, tok, string_literal; cbn [body cat_all rmatch].
        unfold eat; rewrite E; reflexivity. }
      rewrite Hsingle, Hrule; eexists; split; [|reflexivity]; reflexivity. }
  destruct Hfirst as [r [Hn Hf]].
  unfold step; rewrite Est, (tokens_after_line_comment top Htop), first_match_app, Hf, Hn.
  cbn [apply_transitions]; rewrite <- Est; reflexivity.
Qed.

Lemma X13_quoted_string_is_one_token_witness :
  step (Lexer (Cursor (txt " NRUTER") ([dquote] ++ txt "a;b // (c" ++ [dquote]))
              [root]) =
  Yield [(7, String_, [dquote] ++ txt "a;b // (c" ++ [dquote])]
        (Lexer (Cursor ([dquote] ++ txt "c( // b;a" ++ [dquote] ++ txt " NRUTER") [])
               [root]).
Proof.
  apply (X13_quoted_string_is_one_token
           (Lexer (Cursor (txt " NRUTER") ([dquote] ++ txt "a;b // (c" ++ [dquote]))
                  [root])
           root [] dquote (txt "a;b // (c") []); try reflexivity.
  - left; reflexivity.
  - right; left; reflexivity.
  - simpl; intuition discriminate.
  - simpl; intuition discriminate.
Defined.

(** * Further properties of the rule compilers *)

From Stdlib Require Import Permutation Sorted.

Section SortedPermutation.
Variable A : Type.
Implicit Types (x : text * A) (l : list (text * A)).

Lemma insert_sorted_permutation x l : Permutation (x :: l) (insert_sorted x l).
Proof.
  induction l as [|y l IH]; simpl; [apply Permutation_refl|].
  destruct (str_leb (fst x) (fst y)); [apply Permutation_refl|].
  eapply Permutation_trans; [apply perm_swap|apply perm_skip; exact IH].
Qed.

Lemma sorted_permutation l : Permutation l (sorted l).
Proof.
  induction l as [|x l IH]; simpl; [apply perm_nil|].
  eapply Permutation_trans; [apply perm_skip; exact IH|apply insert_sorted_permutation].
Qed.

(** Each pattern is at least as great as every later one. *)
Definition descending l : Prop :=
  StronglySorted (fun a b => str_leb (fst b) (fst a) = true) l.

Lemma strongly_sorted_snoc (R : text * A -> text * A -> Prop) l x :
  StronglySorted R l -> (forall y, In y l -> R y x) -> StronglySorted R (l ++ [x]).
Proof.
  induction 1 as [|y l Hl IH Hy]; intros Hx; simpl.
  - constructor; [constructor|constructor].
  - constructor.
    + apply IH; intros z Hz; apply Hx; right; exact Hz.
    + apply Forall_app; split; [exact Hy|].
      constructor; [apply Hx; left; reflexivity|constructor].
Qed.

Lemma reversed_descending l : ascending A l -> descending (reversed l).
Proof.
  unfold descending, reversed; induction l as [|x l IH]; simpl; [constructor|].
  intros [Hx Hl]; apply strongly_sorted_snoc; [auto|].
  intros y Hy; apply Hx; apply in_rev; exact Hy.
Qed.
End SortedPermutation.

(** X14. For any list of words or symbols, the compiled list holds exactly
    the patterns of the list, each as often as the list has it, with the
    token type given, and in descending order of the patterns, compared as
    strings. *)
Theorem X14_compiled_list_is_sorted_permutation :
  forall (table : list string) (ttype : token_type),
    (Permutation (map (fun w => (word_pattern w, ttype)) table) (word_list table ttype) /\
     descending token_type (word_list table ttype)) /\
    (Permutation (map (fun w => (symbol_pattern w, ttype)) table)
                 (symbol_list table ttype) /\
     descending token_type (symbol_list table ttype)).
Proof.
  intros table ttype; unfold word_list, symbol_list; split; split.
  - eapply Permutation_trans; [apply sorted_permutation|apply Permutation_rev].
  - apply reversed_descending; apply sorted_ascending.
  - eapply Permutation_trans; [apply sorted_permutation|apply Permutation_rev].
  - apply reversed_descending; apply sorted_ascending.
Qed.

(** ** Operator symbols match literally *)

Lemma flat_map_singleton (A : Type) (l : list A) : flat_map (fun x => [x]) l = l.
Proof. induction l as [|x l IH]; simpl; [reflexivity|rewrite IH; reflexivity]. Qed.

Lemma rmatch_cat_all_cons r rs c :
  rmatch (cat_all (r :: rs)) c = flat_map (rmatch (cat_all rs)) (rmatch r c).
Proof.
  destruct rs as [|r' rs]; [|reflexivity].
  cbn [cat_all]; symmetry; apply (flat_map_singleton cursor).
Qed.

(** The match of a sequence of punctuation characters: the text itself. *)
Lemma rmatch_punct_literal s : forall c,
  forallb ascii_punct s = true ->
  rmatch (cat_all (map Lit s)) c =
  if is_prefix s (rest c)
  then [Cursor (rev s ++ before c) (skipn (length s) (rest c))]
  else [].
Proof.
  induction s as [|a s IH]; intros c Hs.
  - destruct c; reflexivity.
  - cbn [forallb] in Hs; apply andb_true_iff in Hs; destruct Hs as [Ha Hs].
    cbn [map]; rewrite rmatch_cat_all_cons; cbn [rmatch]; unfold eat.
    destruct (rest c) as [|x rst] eqn:E; [reflexivity|].
    rewrite (same_char_punct a x Ha); cbn [is_prefix].
    destruct (Ascii.eqb a x) eqn:Eax; [|reflexivity].
    apply Ascii.eqb_eq in Eax; subst x.
    cbn [flat_map]; rewrite (IH _ Hs), app_nil_r; cbn [rest before andb length skipn].
    destruct (is_prefix s rst); [|reflexivity].
    cbn [rev]; rewrite <- app_assoc; reflexivity.
Qed.

Lemma re_atoms_symbol s :
  forallb ascii_punct s = true ->
  re_atoms (flat_map (fun ch => [backslash; ch]) s) = Some (map Lit s).
Proof.
  induction s as [|a s IH]; [reflexivity|].
  intros Hs; cbn [forallb] in Hs; apply andb_true_iff in Hs; destruct Hs as [Ha Hs].
  specialize (IH Hs).
  assert (He : escaped a = Some (Lit a)).
  { revert Ha; destruct a as [[] [] [] [] [] [] [] []]; vm_compute; congruence. }
  cbn [flat_map app re_atoms]; rewrite Ascii.eqb_refl, He.
  destruct s as [|a' s]; [reflexivity|].
  cbn [flat_map app] in *.
  replace (Ascii.eqb backslash "+") with false by reflexivity.
  rewrite IH; reflexivity.
Qed.

(** X15. The escaping of [symbol_list] makes a symbol match literally: for
    any symbol of ASCII punctuation characters, the compiled pattern
    matches at a cursor exactly when the text there begins with the
    symbol, and the match is the symbol; no character of the symbol acts as
    an operator of the pattern language. *)
Theorem X15_symbol_pattern_matches_literally :
  forall (symbol : string) (c : cursor),
    forallb ascii_punct (txt symbol) = true ->
    rmatch (compiled (symbol_pattern symbol)) c =
    if is_prefix (txt symbol) (rest c)
    then [Cursor (rev (txt symbol) ++ before c) (skipn (length (txt symbol)) (rest c))]
    else [].
Proof.
  intros symbol c Hs; unfold compiled, re_compile, symbol_pattern.
  rewrite (re_atoms_symbol _ Hs); cbn [option_map].
  apply rmatch_punct_literal; exact Hs.
Qed.

Lemma X15_symbol_pattern_matches_literally_witness :
  rmatch (compiled (symbol_pattern ".")) (Cursor [] (txt "ab")) = [] /\
  rmatch (compiled (symbol_pattern "+=")) (Cursor [] (txt "+= 1")) =
    [Cursor (txt "=+") (txt " 1")].
Proof.
  split.
  - apply (X15_symbol_pattern_matches_literally "." (Cursor [] (txt "ab"))); reflexivity.
  - apply (X15_symbol_pattern_matches_literally "+=" (Cursor [] (txt "+= 1"))); reflexivity.
Defined.

(** * The grammar tables, lexed *)

Local Open Scope string_scope.

Definition neo4j_built_in_functions : list string :=
  [ "abs"; "acos"; "all"; "allShortestPaths"; "any"; "asin"; "atan"; "atan2";
    "avg"; "ceil"; "coalesce"; "collect"; "cos"; "cot"; "count"; "degrees";
    "e"; "endNode"; "exists"; "exp"; "extract"; "filter"; "floor";
    "haversin"; "head"; "id"; "keys"; "labels"; "last"; "left"; "length";
    "log"; "log10"; "lTrim"; "max"; "min"; "nodes"; "none"; "percentileCont";
    "percentileDisc"; "pi"; "distance"; "point"; "radians"; "rand"; "range";
    "reduce"; "relationships"; "replace"; "reverse"; "right"; "round";
    "rTrim"; "shortestPath"; "sign"; "sin"; "single"; "size"; "split";
    "sqrt"; "startNode"; "stdDev"; "stdDevP"; "substring"; "sum"; "tail";
    "tan"; "timestamp"; "toBoolean"; "toFloat"; "toInteger"; "toLower";
    "toString"; "toUpper"; "properties"; "trim"; "type" ].

Definition neo4j_user_defined_functions : list string :=
  [ "date"; "date.realtime"; "date.statement"; "date.transaction";
    "date.truncate"; "datetime"; "datetime.fromepoch";
    "datetime.fromepochmillis"; "datetime.realtime"; "datetime.statement";
    "datetime.transaction"; "datetime.truncate"; "duration";
    "duration.between"; "duration.inDays"; "duration.inMonths";
    "duration.inSeconds"; "localdatetime"; "localdatetime.realtime";
    "localdatetime.statement"; "localdatetime.transaction";
    "localdatetime.truncate"; "localtime"; "localtime.realtime";
    "localtime.statement"; "localtime.transaction"; "localtime.truncate";
    "randomUUID"; "time"; "time.realtime"; "time.statement";
    "time.transaction"; "time.truncate" ].

Local Close Scope string_scope.

(** Upper case of an ASCII letter. *)
Definition upper (c : ascii) : ascii :=
  if between 97 122 c then ascii_of_nat (code c - 32) else c.

Lemma token_type_eqb_eq a b : token_type_eqb a b = true -> a = b.
Proof. destruct a, b; simpl; congruence. Qed.

(** The pass over the text yields the text as one token of the type. *)
Definition one_token (t : text) (ty : token_type) : bool :=
  match get_tokens_unprocessed t with
  | ([(0, ty', v)], Finished) => token_type_eqb ty ty' && text_eqb v t
  | _ => false
  end.

Lemma one_token_spec t ty :
  one_token t ty = true -> get_tokens_unprocessed t = ([(0, ty, t)], Finished).
Proof.
  unfold one_token; destruct (get_tokens_unprocessed t) as [toks e].
  destruct toks as [|[[[|i] ty'] v] [|? ?]]; try discriminate.
  destruct e; try discriminate.
  intros H; apply andb_true_iff in H; destruct H as [H1 H2].
  apply token_type_eqb_eq in H1; apply text_eqb_eq in H2; subst; reflexivity.
Qed.

Definition string_eqb (a b : string) : bool := text_eqb (txt a) (txt b).

Lemma string_eqb_eq a b : string_eqb a b = true -> a = b.
Proof.
  unfold string_eqb, txt; intros H; apply text_eqb_eq in H.
  rewrite <- (string_of_list_ascii_of_string a), <- (string_of_list_ascii_of_string b), H.
  reflexivity.
Qed.

Lemma word_tables_lexed :
  forallb (fun tt =>
    forallb (fun w =>
      string_eqb w ">>" ||
      (one_token (txt w) (snd tt) && one_token (map lower (txt w)) (snd tt)
       && one_token (map upper (txt w)) (snd tt)))
      (fst tt)) word_tables = true.
Proof. vm_compute; reflexivity. Qed.

(** X16. Every literal of the word lists, the keyword [>>] apart, taken
    alone as the text, as the table has it, in lower case and in upper
    case, is lexed as one token of the type of its list: Keyword for the
    keywords and pseudo-keywords, Operator for the operator words and
    Name.Constant for the constants.  Matching ignores the case of the
    letters. *)
Theorem X16_table_words_are_single_tokens :
  forall (table : list string) (ttype : token_type) (w : string),
    In (table, ttype) word_tables -> In w table -> w <> ">>"%string ->
    get_tokens_unprocessed (txt w) = ([(0, ttype, txt w)], Finished) /\
    get_tokens_unprocessed (map lower (txt w)) = ([(0, ttype, map lower (txt w))], Finished) /\
    get_tokens_unprocessed (map upper (txt w)) = ([(0, ttype, map upper (txt w))], Finished).
Proof.
  intros table ttype w Ht Hw Hne.
  pose proof word_tables_lexed as H.
  rewrite forallb_forall in H; specialize (H _ Ht); cbn [fst snd] in H.
  rewrite forallb_forall in H; specialize (H _ Hw).
  apply orb_true_iff in H; destruct H as [H|H].
  - apply string_eqb_eq in H; contradiction.
  - apply andb_true_iff in H; destruct H as [H H3].
    apply andb_true_iff in H; destruct H as [H1 H2].
    split; [|split]; apply one_token_spec; assumption.
Qed.

Lemma X16_table_words_are_single_tokens_witness :
  get_tokens_unprocessed (txt "OPTIONAL MATCH") =
    ([(0, Keyword, txt "OPTIONAL MATCH")], Finished) /\
  get_tokens_unprocessed (txt "optional match") =
    ([(0, Keyword, txt "optional match")], Finished) /\
  get_tokens_unprocessed (txt "OPTIONAL MATCH") =
    ([(0, Keyword, txt "OPTIONAL MATCH")], Finished).
Proof.
  apply (X16_table_words_are_single_tokens cypher_keywords Keyword "OPTIONAL MATCH").
  - left; reflexivity.
  - simpl; tauto.
  - discriminate.
Defined.

Lemma symbol_table_lexed :
  forallb (fun w => one_token (txt w) Operator) cypher_operator_symbols = true.
Proof. vm_compute; reflexivity. Qed.

(** X17. Every operator symbol of the table, taken alone as the text, is
    lexed as one Operator token: the symbols of two characters are not
    split into two operators, and the point is an operator, not the start
    of a number. *)
Theorem X17_table_symbols_are_single_tokens :
  forall w : string,
    In w cypher_operator_symbols ->
    get_tokens_unprocessed (txt w) = ([(0, Operator, txt w)], Finished).
Proof.
  intros w Hw; apply one_token_spec.
  pose proof symbol_table_lexed as H; rewrite forallb_forall in H; exact (H _ Hw).
Qed.

Lemma X17_table_symbols_are_single_tokens_witness :
  get_tokens_unprocessed (txt "<=") = ([(0, Operator, txt "<=")], Finished).
Proof.
  apply (X17_table_symbols_are_single_tokens "<="); simpl; tauto.
Defined.

(** The pass over a call of the function without arguments. *)
Definition called (f : string) : bool :=
  match get_tokens_unprocessed (txt f ++ txt "()") with
  | ([(0, Name_Function, v); (i, Punctuation, o); (j, Punctuation, c)], Finished) =>
      text_eqb v (txt f) && (i =? length (txt f)) && text_eqb o (txt "(")
      && (j =? S (length (txt f))) && text_eqb c (txt ")")
  | _ => false
  end.

Lemma called_spec f :
  called f = true ->
  get_tokens_unprocessed (txt f ++ txt "()") =
  ([(0, Name_Function, txt f); (length (txt f), Punctuation, txt "(");
    (S (length (txt f)), Punctuation, txt ")")], Finished).
Proof.
  unfold called; destruct (get_tokens_unprocessed (txt f ++ txt "()")) as [toks e].
  destruct toks as [|[[[|i0] [] ] v] [|[[i []] o] [|[[j []] c] [|? ?]]]]; try discriminate.
  destruct e; try discriminate.
  intros H; repeat (apply andb_true_iff in H; destruct H as [H ?]).
  repeat match goal with
         | E : text_eqb _ _ = true |- _ => apply text_eqb_eq in E
         | E : (_ =? _) = true |- _ => apply Nat.eqb_eq in E
         end.
  subst; reflexivity.
Qed.

Lemma function_tables_lexed :
  forallb called (neo4j_built_in_functions ++ neo4j_user_defined_functions) = true.
Proof. vm_compute; reflexivity. Qed.

(** X18. Every name of [neo4j_built_in_functions] and of
    [neo4j_user_defined_functions], with a dot in it or not, followed by a
    pair of parentheses, is lexed as a Name.Function token and two
    Punctuation tokens: no keyword, operator word or constant shadows a
    listed function name. *)
Theorem X18_listed_functions_are_function_names :
  forall f : string,
    In f (neo4j_built_in_functions ++ neo4j_user_defined_functions) ->
    get_tokens_unprocessed (txt f ++ txt "()") =
    ([(0, Name_Function, txt f); (length (txt f), Punctuation, txt "(");
      (S (length (txt f)), Punctuation, txt ")")], Finished).
Proof.
  intros f Hf; apply called_spec.
  pose proof function_tables_lexed as H; rewrite forallb_forall in H; exact (H _ Hf).
Qed.

Lemma X18_listed_functions_are_function_names_witness :
  get_tokens_unprocessed (txt "date.truncate()") =
  ([(0, Name_Function, txt "date.truncate"); (13, Punctuation, txt "(");
    (14, Punctuation, txt ")")], Finished).
Proof.
  apply (X18_listed_functions_are_function_names "date.truncate").
  apply in_or_app; right; simpl; tauto.
Defined.

(** X19. The keyword [>>] is only matched in front of a word: as
    [word_list] appends the word boundary to every literal and [>] is no
    word character, the compiled rule matches exactly where the text
    begins with [>>] and a word character follows.  Taken alone, [>>] is
    two Operator tokens. *)
Theorem X19_shift_keyword_needs_a_word_after :
  (forall c : cursor,
     rmatch (compiled (word_pattern ">>")) c =
     if is_prefix (txt ">>") (rest c) && word_at (skipn 2 (rest c))
     then [Cursor (txt ">>" ++ before c) (skipn 2 (rest c))]
     else []) /\
  get_tokens_unprocessed (txt ">>") =
    ([(0, Operator, txt ">"); (1, Operator, txt ">")], Finished).
Proof.
  split; [|vm_compute; reflexivity].
  intros c.
  let r := eval vm_compute in (compiled (word_pattern ">>")) in
  change (compiled (word_pattern ">>")) with r.
  cbn [rmatch]; unfold eat.
  destruct (rest c) as [|x1 [|x2 rst]] eqn:E; cbn [is_prefix txt list_ascii_of_string andb flat_map];
    rewrite ?(same_char_punct ">" _ eq_refl); try reflexivity.
  - rewrite Ascii.eqb_sym; destruct (Ascii.eqb x1 ">"); reflexivity.
  - rewrite (Ascii.eqb_sym ">" x1); destruct (Ascii.eqb x1 ">") eqn:E1; [|reflexivity].
    cbn [flat_map rest before app]; rewrite (same_char_punct ">" _ eq_refl).
    rewrite (Ascii.eqb_sym ">" x2); destruct (Ascii.eqb x2 ">") eqn:E2; [|reflexivity].
    apply Ascii.eqb_eq in E1, E2; subst.
    cbn [flat_map app skipn andb]; unfold at_word_boundary; cbn [before rest word_at].
    replace (is_word ">") with false by reflexivity; cbn [xorb].
    destruct (word_at rst); reflexivity.
Qed.

(** * Further properties of the expressions *)

(** ** Numbers *)

Definition is_digit (x : ascii) : bool := between 48 57 x.

(** The rule can give a Number.Float token. *)
Definition has_float (r : rule) : bool :=
  existsb (token_type_eqb Number_Float) (rule_types r).

Definition float_rules : list rule := filter has_float numbers_rules.

Lemma float_rules_of_state top :
  In top [root; in_paren; in_bracket; in_brace; multiline_comments] ->
  incl (filter has_float (tokens top)) float_rules.
Proof.
  intros Htop.
  assert (H : filter has_float (tokens top) = float_rules \/
              filter has_float (tokens top) = []).
  { destruct Htop as [<-|[<-|[<-|[<-|[<-|[]]]]]];
      ((left; vm_compute; reflexivity) || (right; vm_compute; reflexivity)). }
  destruct H as [->| ->]; [apply incl_refl|intros r []].
Qed.

(** A float rule matches only at a digit or at the point. *)
Lemma float_rules_start x :
  forallb (fun r => is_digit x || Ascii.eqb x "." || dead r x) float_rules = true.
Proof. destruct x as [[] [] [] [] [] [] [] []]; vm_compute; reflexivity. Qed.

(** In every state with numbers, the rule of the operator [.] comes before
    the rules that give a float. *)
Lemma point_before_floats top :
  In top [root; in_paren; in_bracket; in_brace] ->
  exists pre post,
    tokens top = pre ++ Rule (Single (Lit ".") Operator) [] :: post /\
    forallb (fun r => negb (has_float r)) pre = true.
Proof.
  intros Htop; each_state Htop.
  - exists (firstn 97 (tokens root)), (skipn 98 (tokens root)).
    split; vm_compute; reflexivity.
  - exists (firstn 94 (tokens in_paren)), (skipn 95 (tokens in_paren)).
    split; vm_compute; reflexivity.
  - exists (firstn 33 (tokens in_bracket)), (skipn 34 (tokens in_bracket)).
    split; vm_compute; reflexivity.
  - exists (firstn 30 (tokens in_brace)), (skipn 31 (tokens in_brace)).
    split; vm_compute; reflexivity.
Qed.

Lemma stack_state_cases top :
  is_root top || pushed top = true ->
  In top [root; in_paren; in_bracket; in_brace; multiline_comments].
Proof. destruct top; try discriminate; intros _; simpl; tauto. Qed.

Lemma float_step l toks l' :
  good_stack (statestack l) -> step l = Yield toks l' ->
  forall tk, In tk toks -> token_ttype tk = Number_Float ->
    exists d v, token_value tk = d :: v /\ is_digit d = true.
Proof.
  intros Hg; unfold step.
  destruct (good_stack_top _ Hg) as [top [st E]]; rewrite E in *.
  pose proof (stack_state_cases _ (good_stack_top_state _ _ Hg)) as Htop.
  destruct (first_match (tokens top) (pos l)) as [[[r tks] c']|] eqn:F.
  - destruct (first_match_In _ _ _ _ _ F) as [Hr Hm].
    destruct (apply_transitions (new_state r) (top :: st)) as [[|top' st']|];
      try discriminate.
    intros [= <- _] tk Hin Hty.
    assert (Hf : has_float r = true).
    { unfold has_float; apply existsb_exists; exists (token_ttype tk); split.
      - exact (match_rule_types _ _ _ _ Hm _ Hin).
      - rewrite Hty; reflexivity. }
    assert (Hft : In r (filter has_float (tokens top)))
      by (apply filter_In; split; assumption).
    pose proof (float_rules_of_state top Htop _ Hft) as Hfr.
    assert (Hsingle : exists re, r = tok re Number_Float /\ rule_nullable r = false).
    { revert Hfr; unfold float_rules, numbers_rules; cbn [filter has_float existsb rule_types
        tok body token_type_eqb orb].
      intros [<-|[<-|[]]]; eexists; split; reflexivity. }
    destruct Hsingle as [re [-> Hnull]].
    destruct (match_rule_spec _ _ _ _ Hm) as [_ [_ Hlt]]; specialize (Hlt Hnull).
    pose proof Hm as Hm'; revert Hm; unfold match_rule at 1, tok; cbn [body].
    destruct (re_match re (pos l)) as [c1|] eqn:Hre; [|discriminate].
    intros [= <- <-]; destruct Hin as [<-|[]]; unfold token_value; cbn [snd].
    destruct (rest (pos l)) as [|x rst] eqn:R; [simpl in Hlt; lia|].
    rewrite <- R in Hlt; destruct (span_head _ _ _ _ R Hlt) as [w ->].
    exists x, w; split; [reflexivity|].
    pose proof (float_rules_start x) as Hs; rewrite forallb_forall in Hs.
    specialize (Hs _ Hfr); apply orb_true_iff in Hs; destruct Hs as [Hs|Hd].
    + apply orb_true_iff in Hs; destruct Hs as [Hd|Hp]; [exact Hd|exfalso].
      apply Ascii.eqb_eq in Hp; subst x.
      assert (Htop4 : In top [root; in_paren; in_bracket; in_brace]).
      { destruct Htop as [<-|[<-|[<-|[<-|[<-|[]]]]]];
          [simpl; tauto|simpl; tauto|simpl; tauto|simpl; tauto|].
        exfalso; revert Hft; clear; vm_compute; tauto. }
      destruct (point_before_floats top Htop4) as [pre [post [Et Hpre]]].
      rewrite Et, first_match_app in F.
      destruct (first_match pre (pos l)) as [[[r0 t0] c0]|] eqn:Fp.
      * injection F as -> _ _; apply first_match_In in Fp; destruct Fp as [Hin0 _].
        rewrite forallb_forall in Hpre; specialize (Hpre _ Hin0).
        rewrite Hf in Hpre; discriminate.
      * cbn [first_match] in F.
        rewrite (match_rule_lit "." Operator [] (pos l) "." rst R eq_refl) in F.
        discriminate.
    + rewrite (dead_no_match _ _ _ _ Hd R) in Hm'; discriminate.
  - destruct (rest (pos l)) as [|x rst] eqn:R; [discriminate|].
    destruct (Ascii.eqb x newline); intros [= <- _] tk [<-|[]]; discriminate.
Qed.

(** X20. A Number.Float token always begins with a digit.  The first
    pattern for floats allows an empty integer part, and alone it matches
    a text such as [.5] whole; but the rule of the operator [.] comes
    before the numbers in every state, so at a point the operator is
    taken. *)
Theorem X20_float_begins_with_digit :
  (forall (t : text) (tk : token),
     In tk (fst (get_tokens_unprocessed t)) -> token_ttype tk = Number_Float ->
     exists d v, token_value tk = d :: v /\ is_digit d = true) /\
  (exists re, In (tok re Number_Float) numbers_rules /\
     re_match re (Cursor [] (txt ".5")) = Some (Cursor (txt "5.") [])).
Proof.
  split.
  - intros t tk Hin; revert t tk Hin.
    apply (pass_tokens (fun tk => token_ttype tk = Number_Float ->
                          exists d v, token_value tk = d :: v /\ is_digit d = true)).
    exact float_step.
  - eexists; split; [left; reflexivity|vm_compute; reflexivity].
Qed.

Lemma X20_float_begins_with_digit_witness :
  exists d v, txt "1.5" = d :: v /\ is_digit d = true.
Proof.
  apply (proj1 X20_float_begins_with_digit (txt "1.5 ") (0, Number_Float, txt "1.5")).
  - vm_compute; left; reflexivity.
  - reflexivity.
Defined.

(** ** White space *)

Definition space_chars : text := filter is_space (map ascii_of_nat (seq 0 256)).

Lemma space_chars_all x : is_space x = true -> In x space_chars.
Proof.
  intros H.
  assert (Hb : existsb (Ascii.eqb x) space_chars = true)
    by (revert H; destruct x as [[] [] [] [] [] [] [] []]; vm_compute; auto).
  apply existsb_exists in Hb; destruct Hb as [y [Hy E]].
  apply Ascii.eqb_eq in E; subst; exact Hy.
Qed.

Definition is_whitespace_rule (r : rule) : bool :=
  match r with
  | Rule (Single (Plus Space) Whitespace) [] => true
  | _ => false
  end.

Lemma is_whitespace_rule_spec r :
  is_whitespace_rule r = true -> r = tok (Plus Space) Whitespace.
Proof.
  destruct r as [[re t|gs] n]; simpl; try discriminate.
  destruct re; try discriminate; destruct re; try discriminate.
  destruct t; try discriminate; destruct n; try discriminate; reflexivity.
Qed.

(** At a white-space character no string rule can match, and the first
    rule after the line comment that can is the rule of white space: no
    keyword, label, operator or expression begins with white space. *)
Lemma space_table :
  forallb (fun top =>
    forallb (fun x =>
      forallb (fun r => dead r x) strings_rules &&
      match drop_dead x (after_line_comment top) with
      | r :: _ => is_whitespace_rule r
      | [] => false
      end) space_chars) [root; in_paren; in_bracket; in_brace] = true.
Proof. vm_compute; reflexivity. Qed.

(** X21. A run of white space is one token: in [root] and in a
    parenthesis, bracket or brace state, where the line-comment rule does
    not match, when the text at the offset is white space up to a
    character that is none, the iteration yields the whole run as one
    Whitespace token and leaves the stack as it is. *)
Theorem X21_white_space_run_is_one_token :
  forall (l : lexer) (top : state) (st : list state) (ws tail : text),
    statestack l = top :: st ->
    In top [root; in_paren; in_bracket; in_brace] ->
    ws <> [] -> forallb is_space ws = true -> no_space_ahead tail = true ->
    rest (pos l) = ws ++ tail ->
    re_match line_comment (pos l) = None ->
    step l = Yield [(offset (pos l), Whitespace, ws)]
                   (Lexer (Cursor (rev ws ++ before (pos l)) tail) (statestack l)).
Proof.
  intros l top st ws tail Est Htop Hne Hws Htail E Hc.
  destruct ws as [|w ws'] eqn:Ews; [congruence|]; rewrite <- Ews in *.
  assert (Hw : is_space w = true)
    by (rewrite Ews in Hws; cbn [forallb] in Hws; apply andb_true_iff in Hws; tauto).
  pose proof space_table as T; rewrite forallb_forall in T; specialize (T _ Htop).
  rewrite forallb_forall in T; specialize (T _ (space_chars_all _ Hw)).
  apply andb_true_iff in T; destruct T as [Hs Hd].
  destruct (drop_dead w (after_line_comment top)) as [|r post] eqn:D; [discriminate|].
  apply is_whitespace_rule_spec in Hd; subst r.
  assert (E' : rest (pos l) = w :: ws' ++ tail) by (rewrite E, Ews; reflexivity).
  destruct (plus_space_greedy ws (before (pos l)) tail Hne Hws Htail) as [others Hm].
  unfold step; rewrite Est, (strings_dead_step top (pos l) w _ Htop E' Hc Hs), D.
  cbn [first_match]; unfold match_rule, re_match, tok; cbn [body].
  replace (pos l) with (Cursor (before (pos l)) (ws ++ tail)) at 1
    by (rewrite <- E; destruct (pos l); reflexivity).
  rewrite Hm; cbn [hd_error].
  rewrite (span_exact_prefix (pos l) _ ws) by (rewrite E; reflexivity).
  cbn [new_state apply_transitions]; rewrite <- Est; reflexivity.
Qed.

Lemma X21_white_space_run_is_one_token_witness :
  step (Lexer (Cursor (txt "a") (txt "  b")) [in_paren; root]) =
  Yield [(1, Whitespace, txt "  ")]
        (Lexer (Cursor (txt "  a") (txt "b")) [in_paren; root]).
Proof.
  apply (X21_white_space_run_is_one_token
           (Lexer (Cursor (txt "a") (txt "  b")) [in_paren; root])
           in_paren [root] (txt "  ") (txt "b")); try reflexivity.
  - right; left; reflexivity.
  - discriminate.
Defined.

(** ** Names, parameters and labels *)

(** The first character of a name and the characters after it. *)
Definition name_start : ascii -> bool := in_set [Rng "A" "Z"; Rng "a" "z"; One "_"].
Definition name_char : ascii -> bool :=
  in_set [Rng "0" "9"; Rng "A" "Z"; Rng "a" "z"; One "_"].

Definition no_name_char_ahead (t : text) : bool :=
  match t with
  | x :: _ => negb (name_char x)
  | [] => true
  end.

(** [[A-Za-z_][0-9A-Za-z_]*] first tries the whole name. *)
Lemma identifier_matches x name b tail :
  name_start x = true -> forallb name_char name = true ->
  no_name_char_ahead tail = true ->
  exists others,
    rmatch identifier (Cursor b (x :: name ++ tail)) =
    Cursor (rev name ++ x :: b) tail :: others.
Proof.
  intros Hx Hn Ht; unfold identifier, letter_, alnum_; cbn [rmatch].
  change (in_set [Rng "A" "Z"; Rng "a" "z"; One "_"]) with name_start.
  change (in_set [Rng "0" "9"; Rng "A" "Z"; Rng "a" "z"; One "_"]) with name_char.
  rewrite (eat_hit _ (Cursor b (x :: name ++ tail)) x (name ++ tail) eq_refl Hx).
  cbn [flat_map before]; rewrite app_nil_r.
  apply (many_run (eat name_char) name_char).
  - intros b' y r Hy; apply (eat_hit _ (Cursor b' (y :: r)) y r eq_refl Hy).
  - exact Hn.
  - intros b'; unfold eat; cbn [rest]; destruct tail as [|y tail]; [reflexivity|].
    simpl in Ht; apply negb_true_iff in Ht; rewrite Ht; reflexivity.
Qed.

Lemma name_start_not_quoted x :
  name_start x = true -> may_start quoted_identifier x = false.
Proof. destruct x as [[] [] [] [] [] [] [] []]; vm_compute; auto. Qed.

Lemma name_start_not_space x : name_start x = true -> is_space x = false.
Proof. destruct x as [[] [] [] [] [] [] [] []]; vm_compute; auto. Qed.

(** A rule [(a)(r)] where [r] cannot match after [a]. *)
Lemma match_groups2_blocked a r t1 t2 c x rst :
  rest c = x :: rst -> blocked r rst = true ->
  match_rule (bygroups [(Lit a, t1); (r, t2)]) c = None.
Proof.
  intros E Hb; unfold match_rule, bygroups; cbn [body map fst match_groups rmatch].
  unfold eat; rewrite E; destruct (same_char a x); [|reflexivity].
  cbn [flat_map]; rewrite (blocked_no_match _ _ _ Hb); reflexivity.
Qed.

(** A rule [(a)(r)] where [r] first matches [v] after [a]. *)
Lemma match_groups2 a r t1 t2 c x v tail others :
  rest c = x :: v ++ tail -> same_char a x = true -> v <> [] ->
  rmatch r (Cursor (x :: before c) (v ++ tail)) =
    Cursor (rev v ++ x :: before c) tail :: others ->
  match_rule (bygroups [(Lit a, t1); (r, t2)]) c =
  Some ([(offset c, t1, [x]); (S (offset c), t2, v)],
        Cursor (rev v ++ x :: before c) tail).
Proof.
  intros E Hx Hv Hm; unfold match_rule, bygroups; cbn [body map fst snd match_groups rmatch].
  rewrite (eat_hit _ c x (v ++ tail) E Hx); cbn [flat_map]; rewrite Hm.
  cbn [flat_map map app hd_error group_tokens last].
  rewrite (span_exact_prefix c (Cursor (x :: before c) (v ++ tail)) [x])
    by (rewrite E; reflexivity).
  rewrite (span_exact_prefix (Cursor (x :: before c) (v ++ tail))
             (Cursor (rev v ++ x :: before c) tail) v) by reflexivity.
  destruct v as [|y v]; [congruence|reflexivity].
Qed.

(** At the dollar sign the rules of the parameters are the first, after
    the line comment, that can match, and they are the only ones. *)
Lemma dollar_table top :
  In top [root; in_paren; in_bracket; in_brace] ->
  forallb (fun r => dead r "$") strings_rules = true /\
  exists post,
    drop_dead "$" (after_line_comment top) = parameters_rules ++ post /\
    forallb (fun r => dead r "$") post = true.
Proof.
  intros Htop; split; [vm_compute; reflexivity|].
  exists (skipn 2 (drop_dead "$" (after_line_comment top))).
  each_state Htop; split; vm_compute; reflexivity.
Qed.

(** X22. A parameter is two tokens: in [root] and in a parenthesis,
    bracket or brace state, where the line-comment rule does not match, a
    dollar sign followed by a name (a letter or underscore, then letters,
    digits and underscores, up to a character that is none) is a
    Punctuation token for the dollar sign and a Name.Variable.Global token
    for the whole name; the stack stays as it is. *)
Theorem X22_parameter_is_two_tokens :
  forall (l : lexer) (top : state) (st : list state) (x : ascii) (name tail : text),
    statestack l = top :: st ->
    In top [root; in_paren; in_bracket; in_brace] ->
    rest (pos l) = "$"%char :: x :: name ++ tail ->
    name_start x = true -> forallb name_char name = true ->
    no_name_char_ahead tail = true ->
    re_match line_comment (pos l) = None ->
    step l = Yield [(offset (pos l), Punctuation, ["$"%char]);
                    (S (offset (pos l)), Name_Variable_Global, x :: name)]
                   (Lexer (Cursor (rev name ++ x :: "$"%char :: before (pos l)) tail)
                          (statestack l)).
Proof.
  intros l top st x name tail Est Htop E Hx Hn Ht Hc.
  destruct (dollar_table top Htop) as [Hs [post [Hd _]]].
  destruct (identifier_matches x name ("$"%char :: before (pos l)) tail Hx Hn Ht)
    as [others Hm].
  unfold step; rewrite Est, (strings_dead_step top (pos l) _ _ Htop E Hc Hs), Hd.
  unfold parameters_rules; cbn [app first_match].
  rewrite (match_groups2_blocked "$" quoted_identifier Punctuation Name_Variable_Global
             (pos l) "$" (x :: name ++ tail) E).
  2:{ unfold blocked; rewrite (name_start_not_quoted x Hx); reflexivity. }
  rewrite (match_groups2 "$" identifier Punctuation Name_Variable_Global (pos l) "$"
             (x :: name) tail others E eq_refl).
  - cbn [new_state bygroups apply_transitions]; rewrite <- Est.
    cbn [rev]; rewrite <- app_assoc; reflexivity.
  - discriminate.
  - cbn [rev app]; rewrite <- app_assoc; exact Hm.
Qed.

Lemma X22_parameter_is_two_tokens_witness :
  step (Lexer (Cursor (txt " NRUTER") (txt "$x_1 + 2")) [root]) =
  Yield [(7, Punctuation, txt "$"); (8, Name_Variable_Global, txt "x_1")]
        (Lexer (Cursor (txt "1_x$ NRUTER") (txt " + 2")) [root]).
Proof.
  apply (X22_parameter_is_two_tokens
           (Lexer (Cursor (txt " NRUTER") (txt "$x_1 + 2")) [root])
           root [] "x" (txt "_1") (txt " + 2")); try reflexivity.
  left; reflexivity.
Defined.

(** No name follows: the text ends, or goes on with a character that
    begins neither a name nor a quoted name. *)
Definition no_name_ahead (t : text) : bool :=
  match t with
  | y :: _ => negb (name_start y) && negb (Ascii.eqb y "`")
  | [] => true
  end.

Lemma no_name_ahead_blocked rst :
  no_name_ahead rst = true ->
  blocked quoted_identifier rst = true /\ blocked identifier rst = true.
Proof.
  destruct rst as [|y rst]; [intros _; split; reflexivity|].
  cbn [no_name_ahead]; intros H; apply andb_true_iff in H; destruct H as [H1 H2].
  revert H1 H2; destruct y as [[] [] [] [] [] [] [] []]; vm_compute; auto.
Qed.

(** X23. A dollar sign that no name follows is an Error token: in [root]
    and in a parenthesis, bracket or brace state, where the line-comment
    rule does not match, when the text after the dollar sign ends or goes
    on with a character that is no letter, underscore or backquote (a
    digit, for one), the dollar sign is yielded as Error and the stack
    stays as it is. *)
Theorem X23_dollar_without_name_is_error :
  forall (l : lexer) (top : state) (st : list state) (rst : text),
    statestack l = top :: st ->
    In top [root; in_paren; in_bracket; in_brace] ->
    rest (pos l) = "$"%char :: rst ->
    no_name_ahead rst = true ->
    re_match line_comment (pos l) = None ->
    step l = Yield [(offset (pos l), Error, ["$"%char])]
                   (Lexer (Cursor ("$"%char :: before (pos l)) rst) (statestack l)).
Proof.
  intros l top st rst Est Htop E Hno Hc.
  destruct (dollar_table top Htop) as [Hs [post [Hd Hpost]]].
  destruct (no_name_ahead_blocked rst Hno) as [Hq Hi].
  assert (Hnone : first_match (tokens top) (pos l) = None).
  { rewrite (strings_dead_step top (pos l) _ _ Htop E Hc Hs), Hd.
    unfold parameters_rules; cbn [app first_match].
    rewrite (match_groups2_blocked "$" quoted_identifier _ _ (pos l) "$" rst E Hq).
    rewrite (match_groups2_blocked "$" identifier _ _ (pos l) "$" rst E Hi).
    rewrite (first_match_drop_dead _ _ _ _ E), (drop_dead_all _ _ Hpost); reflexivity. }
  unfold step; rewrite Est, Hnone, E; cbn [Ascii.eqb Bool.eqb andb].
  rewrite <- Est; reflexivity.
Qed.

Lemma X23_dollar_without_name_is_error_witness :
  step (Lexer (Cursor (txt " NRUTER") (txt "$1")) [root]) =
  Yield [(7, Error, txt "$")] (Lexer (Cursor (txt "$ NRUTER") (txt "1")) [root]).
Proof.
  apply (X23_dollar_without_name_is_error
           (Lexer (Cursor (txt " NRUTER") (txt "$1")) [root]) root [] (txt "1"));
    try reflexivity.
  left; reflexivity.
Defined.

(** ** Separators *)

(** The characters of the Punctuation rule that each state has of its
    own: [[,;]] in [root], [[,|]] between parentheses and brackets, [[,:]]
    between braces. *)
Definition separators (top : state) : text :=
  match top with
  | root => txt ",;"
  | in_paren => txt ",|"
  | in_bracket => txt ",|"
  | in_brace => txt ",:"
  | _ => []
  end.

Lemma match_rule_oneof s t n c x rst :
  rest c = x :: rst -> in_set s x = true ->
  match_rule (Rule (Single (OneOf s) t) n) c =
  Some ([(offset c, t, [x])], Cursor (x :: before c) rst).
Proof.
  intros E Hx; unfold match_rule, re_match; cbn [body rmatch].
  rewrite (eat_hit _ _ _ _ E Hx); cbn [hd_error].
  rewrite (span_exact_prefix c (Cursor (x :: before c) rst) [x]); [reflexivity|].
  rewrite E; reflexivity.
Qed.

(** X24. The separators of a state are Punctuation: the comma in
    [root] and in a parenthesis, bracket or brace state, the semicolon in
    [root], the bar between parentheses and brackets and the colon between
    braces, where the line-comment rule does not match, are yielded as a
    Punctuation token of one character, whatever follows, and the stack
    stays as it is.  The rule comes before labels and operators: between
    braces a colon never begins a label, and between parentheses and
    brackets the bar is no operator. *)
Theorem X24_separators_are_punctuation :
  forall (l : lexer) (top : state) (st : list state) (x : ascii) (rst : text),
    statestack l = top :: st ->
    In x (separators top) ->
    rest (pos l) = x :: rst ->
    re_match line_comment (pos l) = None ->
    step l = Yield [(offset (pos l), Punctuation, [x])]
                   (Lexer (Cursor (x :: before (pos l)) rst) (statestack l)).
Proof.
  intros l top st x rst Est Hx E Hc.
  assert (Hm : In top [root; in_paren; in_bracket; in_brace] /\
             exists s post,
               drop_dead x (after_line_comment top) =
                 Rule (Single (OneOf s) Punctuation) [] :: post /\
               in_set s x = true /\
               forallb (fun r => dead r x) strings_rules = true).
  { destruct top; simpl in Hx; try contradiction;
      (split; [simpl; tauto|]);
      destruct Hx as [<-|[<-|[]]]; do 2 eexists;
      (split; [vm_compute; reflexivity|split; reflexivity]). }
  destruct Hm as [Htop [s [post [Hd [Hin Hs]]]]].
  unfold step; rewrite Est, (strings_dead_step top (pos l) x rst Htop E Hc Hs), Hd.
  cbn [first_match]; rewrite (match_rule_oneof s Punctuation [] (pos l) x rst E Hin).
  cbn [new_state apply_transitions]; rewrite <- Est; reflexivity.
Qed.

Lemma X24_separators_are_punctuation_witness :
  step (Lexer (Cursor (txt "a{") (txt ":b}")) [in_brace; root]) =
  Yield [(2, Punctuation, txt ":")]
        (Lexer (Cursor (txt ":a{") (txt "b}")) [in_brace; root]).
Proof.
  apply (X24_separators_are_punctuation
           (Lexer (Cursor (txt "a{") (txt ":b}")) [in_brace; root])
           in_brace [root] ":" (txt "b}")); try reflexivity.
  right; left; reflexivity.
Defined.

(** ** Labels *)

(** A rule of three groups, the character [a], optional white space and
    [r], where no white space follows [a]: the second group is empty, and
    the rule matches as [r] does after [a]. *)
Lemma match_groups3_blocked a r t1 t2 t3 c x rst :
  rest c = x :: rst -> no_space_ahead rst = true -> blocked r rst = true ->
  match_rule (bygroups [(Lit a, t1); (Star Space, t2); (r, t3)]) c = None.
Proof.
  intros E Hsp Hb; unfold match_rule, bygroups; cbn [body map fst match_groups].
  assert (He : rmatch (Lit a) c =
               if same_char a x then [Cursor (x :: before c) rst] else [])
    by (cbn [rmatch]; unfold eat; rewrite E; reflexivity).
  rewrite He; destruct (same_char a x); [|reflexivity].
  assert (Hno : rmatch (Star Space) (Cursor (x :: before c) rst) =
                [Cursor (x :: before c) rst]).
  { change (rmatch (Star Space) ?k) with (many (rmatch Space) k).
    rewrite many_unfold; change (rmatch Space ?k) with (eat is_space k).
    unfold eat; cbn [rest]; destruct rst as [|y rst]; [reflexivity|].
    simpl in Hsp; apply negb_true_iff in Hsp; rewrite Hsp; reflexivity. }
  cbn [flat_map]; rewrite Hno; cbn [flat_map app].
  rewrite (blocked_no_match _ _ _ Hb); reflexivity.
Qed.

Lemma match_groups3 a r t1 t2 t3 c x v tail others :
  rest c = x :: v ++ tail -> same_char a x = true -> v <> [] ->
  no_space_ahead (v ++ tail) = true ->
  rmatch r (Cursor (x :: before c) (v ++ tail)) =
    Cursor (rev v ++ x :: before c) tail :: others ->
  match_rule (bygroups [(Lit a, t1); (Star Space, t2); (r, t3)]) c =
  Some ([(offset c, t1, [x]); (S (offset c), t3, v)],
        Cursor (rev v ++ x :: before c) tail).
Proof.
  intros E Hx Hv Hsp Hm; unfold match_rule, bygroups;
    cbn [body map fst snd match_groups].
  change (rmatch (Lit a) c) with (eat (same_char a) c).
  rewrite (eat_hit _ c x (v ++ tail) E Hx); cbn [flat_map].
  assert (Hno : rmatch (Star Space) (Cursor (x :: before c) (v ++ tail)) =
                [Cursor (x :: before c) (v ++ tail)]).
  { change (rmatch (Star Space) ?k) with (many (rmatch Space) k).
    rewrite many_unfold; change (rmatch Space ?k) with (eat is_space k).
    unfold eat; cbn [rest]; destruct (v ++ tail) as [|y w]; [reflexivity|].
    simpl in Hsp; apply negb_true_iff in Hsp; rewrite Hsp; reflexivity. }
  rewrite Hno; cbn [flat_map app]; rewrite Hm.
  cbn [flat_map map app hd_error group_tokens last].
  rewrite (span_exact_prefix c (Cursor (x :: before c) (v ++ tail)) [x])
    by (rewrite E; reflexivity).
  rewrite (span_exact_prefix (Cursor (x :: before c) (v ++ tail))
             (Cursor (x :: before c) (v ++ tail)) []) by reflexivity.
  rewrite (span_exact_prefix (Cursor (x :: before c) (v ++ tail))
             (Cursor (rev v ++ x :: before c) tail) v) by reflexivity.
  destruct v as [|y v]; [congruence|reflexivity].
Qed.

(** At the colon, outside braces, the rules of the labels are the first
    after the line comment that can match. *)
Lemma colon_table top :
  In top [root; in_paren; in_bracket] ->
  forallb (fun r => dead r ":") strings_rules = true /\
  exists post, drop_dead ":" (after_line_comment top) = labels_rules ++ post.
Proof.
  intros Htop; split; [vm_compute; reflexivity|].
  exists (skipn 2 (drop_dead ":" (after_line_comment top))).
  destruct Htop as [<-|[<-|[<-|[]]]]; vm_compute; reflexivity.
Qed.

(** X25. A label is a colon and a name: in [root] and in a parenthesis
    or bracket state, where the line-comment rule does not match, a colon
    directly followed by a name is a Punctuation token for the colon and a
    Name.Label token for the whole name; the group of white space between
    them is empty and gives no token.  The stack stays as it is. *)
Theorem X25_label_is_colon_and_name :
  forall (l : lexer) (top : state) (st : list state) (x : ascii) (name tail : text),
    statestack l = top :: st ->
    In top [root; in_paren; in_bracket] ->
    rest (pos l) = ":"%char :: x :: name ++ tail ->
    name_start x = true -> forallb name_char name = true ->
    no_name_char_ahead tail = true ->
    re_match line_comment (pos l) = None ->
    step l = Yield [(offset (pos l), Punctuation, [":"%char]);
                    (S (offset (pos l)), Name_Label, x :: name)]
                   (Lexer (Cursor (rev name ++ x :: ":"%char :: before (pos l)) tail)
                          (statestack l)).
Proof.
  intros l top st x name tail Est Htop E Hx Hn Ht Hc.
  destruct (colon_table top Htop) as [Hs [post Hd]].
  assert (Htop4 : In top [root; in_paren; in_bracket; in_brace])
    by (destruct Htop as [<-|[<-|[<-|[]]]]; simpl; tauto).
  assert (Hsp : no_space_ahead (x :: name ++ tail) = true)
    by (cbn [no_space_ahead]; rewrite (name_start_not_space x Hx); reflexivity).
  destruct (identifier_matches x name (":"%char :: before (pos l)) tail Hx Hn Ht)
    as [others Hm].
  unfold step; rewrite Est, (strings_dead_step top (pos l) _ _ Htop4 E Hc Hs), Hd.
  unfold labels_rules; cbn [app first_match].
  rewrite (match_groups3_blocked ":" quoted_identifier Punctuation Whitespace Name_Label
             (pos l) ":" (x :: name ++ tail) E Hsp).
  2:{ unfold blocked; rewrite (name_start_not_quoted x Hx); reflexivity. }
  rewrite (match_groups3 ":" identifier Punctuation Whitespace Name_Label (pos l) ":"
             (x :: name) tail others E eq_refl).
  - cbn [new_state bygroups apply_transitions]; rewrite <- Est.
    cbn [rev]; rewrite <- app_assoc; reflexivity.
  - discriminate.
  - exact Hsp.
  - cbn [rev app]; rewrite <- app_assoc; exact Hm.
Qed.

Lemma X25_label_is_colon_and_name_witness :
  step (Lexer (Cursor (txt "n(") (txt ":Person)")) [in_paren; root]) =
  Yield [(2, Punctuation, txt ":"); (3, Name_Label, txt "Person")]
        (Lexer (Cursor (txt "nosreP:n(") (txt ")")) [in_paren; root]).
Proof.
  apply (X25_label_is_colon_and_name
           (Lexer (Cursor (txt "n(") (txt ":Person)")) [in_paren; root])
           in_paren [root] "P" (txt "erson") (txt ")")); try reflexivity.
  right; left; reflexivity.
Defined.
